(** * String metrics of stickyants-commons-text

    A shallow embedding of [src/LevenshteinDetailedDistance.ts],
    [src/LevenshteinResults.ts], [src/JaroWinklerDistance.ts] and
    [src/util.ts], and of the peer metrics [src/HammingDistance.ts],
    [src/JaccardSimilarity.ts], [src/JaccardDistance.ts] and
    [src/FuzzyScore.ts], followed by the properties of the design document
    as they hold, or fail, on that code, and by further properties of the
    code. *)

From Stdlib Require Import ZArith QArith Qminmax Qround Lia Lqa.
From stdpp Require Import base option list numbers strings gmap.

Local Open Scope Z_scope.

(** ** The fragment of JavaScript the metrics use *)

Module JS.

(** A call either returns a value or throws.  [OutOfFuel] belongs to the
    model only: [while] loops are unrolled with a fuel argument, and the
    lemmas below show that the fuel handed to them is never used up. *)
Inductive outcome (A : Type) : Type :=
| Return (a : A)
| Throw (msg : string)
| OutOfFuel.
Arguments Return {A} a.
Arguments Throw {A} msg.
Arguments OutOfFuel {A}.

Definition bind {A B} (x : outcome A) (f : A -> outcome B) : outcome B :=
  match x with
  | Return a => f a
  | Throw msg => Throw msg
  | OutOfFuel => OutOfFuel
  end.

(** A JavaScript string is a sequence of UTF-16 code units. *)
Abbreviation jsstring := (list N).

(** String literals of the examples: the code units of an ASCII text. *)
Fixpoint str (s : string) : jsstring :=
  match s with
  | EmptyString => []
  | String c s' => Ascii.N_of_ascii c :: str s'
  end.

(** [s.charAt(i)]: a one-unit string, or the empty string ([None]) when
    [i] is not an index of [s]. *)
Definition charAt (s : jsstring) (i : nat) : option N := s !! i.

(** [createArray(length, defValue)] of [util.ts] for a constant; with a
    generator every element is a fresh array, which for immutable lists is
    the same thing. *)
Definition createArray {A} (length : nat) (defValue : A) : list A :=
  replicate length defValue.

(** [Number.MAX_VALUE], the largest binary64 number; it is an integer. *)
Definition MAX_VALUE : Z := (2 ^ 53 - 1) * 2 ^ 971.

(** [1 + x] and [x - 1] on the numbers that occur in the cost arrays:
    integers far below 2^53, on which binary64 arithmetic is exact, and
    [Number.MAX_VALUE], which absorbs the addition of 1 by rounding.  Above
    2^53 binary64 rounds [x - 1] and these definitions do not; the tables
    that the two modes build stay below, a table handed to
    [findDetailedResults] by a caller need not. *)
Definition add1 (x : Z) : Z := if x =? MAX_VALUE then MAX_VALUE else 1 + x.
Definition sub1 (x : Z) : Z := if x =? MAX_VALUE then MAX_VALUE else x - 1.

(** [a.fill(value, start, end)] for [0 <= start]. *)
Definition fill (value : Z) (start stop : nat) (a : list Z) : list Z :=
  foldl (fun a k => <[k := value]> a) a (seq start (stop - start)).

(** Reading [a[i]] inside the bounds of [a]; the rolling rows of the cost
    table are only read there (their length is fixed at [n + 1]). *)
Definition get (a : list Z) (i : nat) : Z := a !!! i.

End JS.
Export JS.

(** ** LevenshteinResults.ts *)

Record LevenshteinResults : Type := mkLevenshteinResults {
  distance : Z;
  insertCount : Z;
  deleteCount : Z;
  substituteCount : Z
}.

(** ** LevenshteinDetailedDistance.ts *)

Module LevenshteinDetailedDistance.

Abbreviation matrix_t := (list (list Z)).

(** [matrix[r][c] = v] for a row and a column inside the matrix. *)
Definition matrix_set (matrix : matrix_t) (r c : nat) (v : Z) : matrix_t :=
  alter (fun row => <[c := v]> row) r matrix.

(** *** findDetailedResults *)

(** The variables of the backtrace that live across iterations. *)
Record bt_state : Type := mkBt {
  rowIndex : Z;
  columnIndex : Z;
  addCount : Z;
  delCount : Z;
  subCount : Z
}.

Inductive bt_next : Type :=
| Break
| Continue (st : bt_state).

(** [matrix[r]] throws a TypeError when there is no such row;
    [row[c]] is [undefined] ([None]) when there is no such column. *)
Definition row_at (matrix : matrix_t) (r : Z) : outcome (list Z) :=
  if r <? 0 then Throw "TypeError"
  else match matrix !! Z.to_nat r with
       | Some row => Return row
       | None => Throw "TypeError"
       end.

Definition elem_at (row : list Z) (c : Z) : option Z :=
  if c <? 0 then None else row !! Z.to_nat c.

Definition read (matrix : matrix_t) (r c : Z) : outcome (option Z) :=
  JS.bind (row_at matrix r) (fun row => Return (elem_at row c)).

(** [==], [<=] and [- 1] on a number or [undefined]: a comparison that
    involves [undefined] (or the NaN it turns into) is false. *)
Definition num_eq (a b : option Z) : bool :=
  match a, b with
  | Some x, Some y => x =? y
  | _, _ => false
  end.

Definition num_le (a b : option Z) : bool :=
  match a, b with
  | Some x, Some y => x <=? y
  | _, _ => false
  end.

Definition minus1 (a : option Z) : option Z := JS.sub1 <$> a.

Definition is_m1 (a : option Z) : bool := num_eq a (Some (-1)).

(** One iteration of the [while] loop. *)
Definition bt_body (left right : jsstring) (matrix : matrix_t)
    (swapped : bool) (st : bt_state) : outcome bt_next :=
  let row := rowIndex st in
  let col := columnIndex st in
  JS.bind (if col =? 0 then Return (Some (-1)) else read matrix row (col - 1))
  (fun dataAtLeft =>
  JS.bind (if row =? 0 then Return (Some (-1)) else read matrix (row - 1) col)
  (fun dataAtTop =>
  JS.bind (if (row >? 0) && (col >? 0) then read matrix (row - 1) (col - 1)
           else Return (Some (-1)))
  (fun dataAtDiagonal =>
  if is_m1 dataAtLeft && is_m1 dataAtTop && is_m1 dataAtDiagonal
  then Return Break
  else
  JS.bind (read matrix row col)
  (fun data =>
  if (col >? 0) && (row >? 0)
     && bool_decide (charAt left (Z.to_nat (col - 1))
                     = charAt right (Z.to_nat (row - 1)))
  then Return (Continue (mkBt (row - 1) (col - 1)
                              (addCount st) (delCount st) (subCount st)))
  else if (num_eq (minus1 data) dataAtLeft
           && (num_le data dataAtDiagonal && num_le data dataAtTop))
          || (is_m1 dataAtDiagonal && is_m1 dataAtTop)
  then Return (Continue
         (if swapped
          then mkBt row (col - 1) (addCount st + 1) (delCount st) (subCount st)
          else mkBt row (col - 1) (addCount st) (delCount st + 1) (subCount st)))
  else if (num_eq (minus1 data) dataAtTop
           && (num_le data dataAtDiagonal && num_le data dataAtLeft))
          || (is_m1 dataAtDiagonal && is_m1 dataAtLeft)
  then Return (Continue
         (if swapped
          then mkBt (row - 1) col (addCount st) (delCount st + 1) (subCount st)
          else mkBt (row - 1) col (addCount st + 1) (delCount st) (subCount st)))
  else Return (Continue (mkBt (row - 1) (col - 1)
                              (addCount st) (delCount st) (subCount st + 1))))))).

(** [while (rowIndex >= 0 && columnIndex >= 0) { ... }] *)
Fixpoint bt_loop (fuel : nat) (left right : jsstring) (matrix : matrix_t)
    (swapped : bool) (st : bt_state) : outcome bt_state :=
  if (rowIndex st >=? 0) && (columnIndex st >=? 0) then
    match fuel with
    | O => OutOfFuel
    | S fuel' =>
        JS.bind (bt_body left right matrix swapped st)
          (fun next =>
             match next with
             | Break => Return st
             | Continue st' => bt_loop fuel' left right matrix swapped st'
             end)
    end
  else Return st.

(** [findDetailedResults(left, right, matrix, swapped)].  Every iteration
    that does not leave the loop lowers [rowIndex] or [columnIndex], so
    [right.length + left.length + 1] iterations are all it can take. *)
Definition findDetailedResults (left right : jsstring) (matrix : matrix_t)
    (swapped : bool) : outcome LevenshteinResults :=
  JS.bind
    (bt_loop (length right + length left + 1) left right matrix swapped
       (mkBt (Z.of_nat (length right)) (Z.of_nat (length left)) 0 0 0))
    (fun st =>
       Return (mkLevenshteinResults
                 (addCount st + delCount st + subCount st)
                 (addCount st) (delCount st) (subCount st))).

(** *** The cost table shared by both modes *)

(** [matrix[0][index] = index] for [index <= n], then
    [matrix[index][0] = index] for [index <= m]. *)
Definition init_matrix (n m : nat) : matrix_t :=
  let matrix := createArray (m + 1) (createArray (n + 1) 0) in
  let matrix :=
    foldl (fun mx index => matrix_set mx 0 index (Z.of_nat index))
          matrix (seq 0 (n + 1)) in
  foldl (fun mx index => matrix_set mx index 0 (Z.of_nat index))
        matrix (seq 0 (m + 1)).

(** The operands after the swap that makes [left] the shorter one. *)
Definition swap_operands (left right : jsstring)
    : jsstring * jsstring * bool :=
  if (length right <? length left)%nat then (right, left, true)
  else (left, right, false).

(** *** unlimitedCompare *)

(** The body of [for (i = 1; i <= n; i++)] in row [j]. *)
Definition unl_cell (left : jsstring) (rightJ : option N) (p : list Z)
    (j : nat) (acc : list Z * matrix_t) (i : nat) : list Z * matrix_t :=
  let '(d, matrix) := acc in
  let cost := if bool_decide (charAt left (i - 1) = rightJ) then 0 else 1 in
  let d := <[i := Z.min (Z.min (get d (i - 1) + 1) (get p i + 1))
                       (get p (i - 1) + cost)]> d in
  (d, matrix_set matrix j i (get d i)).

(** The body of [for (j = 1; j <= m; j++)], ending with the exchange of
    [p] and [d]. *)
Definition unl_row (left right : jsstring) (n : nat)
    (acc : list Z * list Z * matrix_t) (j : nat)
    : list Z * list Z * matrix_t :=
  let '(p, d, matrix) := acc in
  let rightJ := charAt right (j - 1) in
  let d := <[0%nat := Z.of_nat j]> d in
  let '(d, matrix) := foldl (unl_cell left rightJ p j) (d, matrix) (seq 1 n) in
  (d, p, matrix).

(** The filled table that [unlimitedCompare] hands to the backtrace
    ([left] is the shorter operand here). *)
Definition unlimited_matrix (left right : jsstring) : matrix_t :=
  let n := length left in
  let m := length right in
  let p := createArray (n + 1) 0 in
  let d := createArray (n + 1) 0 in
  let matrix := init_matrix n m in
  let p := foldl (fun p i => <[i := Z.of_nat i]> p) p (seq 0 (n + 1)) in
  (foldl (unl_row left right n) (p, d, matrix) (seq 1 m)).2.

(** [unlimitedCompare(left, right)]; [None] is [null] or [undefined]. *)
Definition unlimitedCompare (left right : option jsstring)
    : outcome LevenshteinResults :=
  match left, right with
  | Some left0, Some right0 =>
      let n := length left0 in
      let m := length right0 in
      if (n =? 0)%nat then
        Return (mkLevenshteinResults (Z.of_nat m) (Z.of_nat m) 0 0)
      else if (m =? 0)%nat then
        Return (mkLevenshteinResults (Z.of_nat n) 0 (Z.of_nat n) 0)
      else
        let '(s, t, swapped) := swap_operands left0 right0 in
        findDetailedResults s t (unlimited_matrix s t) swapped
  | _, _ => Throw "CharSequences must not be null"
  end.

(** *** limitedCompare *)

Definition sentinel : LevenshteinResults := mkLevenshteinResults (-1) 0 0 0.

(** The body of [for (i = min; i <= max; i++)] in row [j]. *)
Definition lim_cell (left : jsstring) (rightJ : option N) (p : list Z)
    (j : nat) (acc : list Z * matrix_t) (i : nat) : list Z * matrix_t :=
  let '(d, matrix) := acc in
  let d :=
    if bool_decide (charAt left (i - 1) = rightJ)
    then <[i := get p (i - 1)]> d
    else <[i := JS.add1 (Z.min (Z.min (get d (i - 1)) (get p i))
                               (get p (i - 1)))]> d in
  (d, matrix_set matrix j i (get d i)).

(** The stripe [min .. max] of row [j]. *)
Definition stripe_min (threshold : Z) (j : nat) : Z :=
  Z.max 1 (Z.of_nat j - threshold).

Definition stripe_max (threshold : Z) (n j : nat) : Z :=
  if Z.of_nat j >? JS.MAX_VALUE - threshold then Z.of_nat n
  else Z.min (Z.of_nat n) (Z.of_nat j + threshold).

(** The rows [js] of [for (j = 1; j <= m; j++)]; [None] is the [return]
    taken inside the loop when the stripe has left the table. *)
Fixpoint lim_rows (left right : jsstring) (threshold : Z) (n : nat)
    (js : list nat) (p d : list Z) (matrix : matrix_t)
    : option (list Z * list Z * matrix_t) :=
  match js with
  | [] => Some (p, d, matrix)
  | j :: js' =>
      let rightJ := charAt right (j - 1) in
      let d := <[0%nat := Z.of_nat j]> d in
      let min := stripe_min threshold j in
      let max := stripe_max threshold n j in
      if min >? max then None
      else
        let d := if min >? 1 then <[Z.to_nat (min - 1) := JS.MAX_VALUE]> d
                 else d in
        let '(d, matrix) :=
          foldl (lim_cell left rightJ p j) (d, matrix)
                (seq (Z.to_nat min) (Z.to_nat (max - min + 1))) in
        lim_rows left right threshold n js' d p matrix
  end.

(** The state after the main loop of [limitedCompare] ([left] is the
    shorter operand). *)
Definition limited_run (left right : jsstring) (threshold : Z)
    : option (list Z * list Z * matrix_t) :=
  let n := length left in
  let m := length right in
  let p := createArray (n + 1) 0 in
  let d := createArray (n + 1) 0 in
  let matrix := init_matrix n m in
  let boundary := Z.to_nat (Z.min (Z.of_nat n) threshold + 1) in
  let p := foldl (fun p i => <[i := Z.of_nat i]> p) p (seq 0 boundary) in
  let p := JS.fill JS.MAX_VALUE boundary (length p) p in
  let d := JS.fill JS.MAX_VALUE 0 (length d) d in
  lim_rows left right threshold n (seq 1 m) p d matrix.

(** [limitedCompare(left, right, threshold)] for an integer [threshold].
    The source refuses a negative [threshold] only; one with a fraction
    makes the bounds of the stripe fractional and is not modelled. *)
Definition limitedCompare (left right : option jsstring) (threshold : Z)
    : outcome LevenshteinResults :=
  match left, right with
  | Some left0, Some right0 =>
      if threshold <? 0 then Throw "Threshold must not be negative"
      else
        let n := length left0 in
        let m := length right0 in
        if (n =? 0)%nat then
          Return (if Z.of_nat m <=? threshold
                  then mkLevenshteinResults (Z.of_nat m) (Z.of_nat m) 0 0
                  else sentinel)
        else if (m =? 0)%nat then
          Return (if Z.of_nat n <=? threshold
                  then mkLevenshteinResults (Z.of_nat n) 0 (Z.of_nat n) 0
                  else sentinel)
        else
          let '(s, t, swapped) := swap_operands left0 right0 in
          match limited_run s t threshold with
          | None => Return sentinel
          | Some (p, _, matrix) =>
              if get p (length s) <=? threshold
              then findDetailedResults s t matrix swapped
              else Return sentinel
          end
  | _, _ => Throw "CharSequences must not be null"
  end.

(** *** The class: field, constructor, methods *)

(** The state of an instance is its field [threshold]; [None] stands for
    [undefined] and [null], which [!= null] does not tell apart. *)
Record instance : Type := mkInstance { threshold : option Z }.

(** [new LevenshteinDetailedDistance(...)].  The class declares no
    [constructor]: the member that carries the class name is a method.  The
    implicit constructor ignores its arguments and assigns no field. *)
Definition new (args : list (option Z)) : outcome instance :=
  Return (mkInstance None).

(** The method [LevenshteinDetailedDistance(threshold = null)]. *)
Definition LevenshteinDetailedDistance (this : instance) (arg : option Z)
    : outcome instance :=
  match arg with
  | Some t =>
      if t <? 0 then Throw "Threshold must not be negative"
      else Return (mkInstance (Some t))
  | None => Return (mkInstance None)
  end.

Definition getThreshold (this : instance) : option Z := threshold this.

(** [apply(left, right)] *)
Definition apply (this : instance) (left right : option jsstring)
    : outcome LevenshteinResults :=
  match threshold this with
  | Some t => limitedCompare left right t
  | None => unlimitedCompare left right
  end.


End LevenshteinDetailedDistance.


(** ** JaroWinklerDistance.ts *)

Module JaroWinklerDistance.

Local Open Scope Q_scope.

(** The properties of the array [matchFlags]: the elements that
    [createArray] pushed, and whatever was later stored under a number
    that is not an index.  The newest entry for a key comes first. *)
Definition flags_t : Type := list (Q * bool).

Definition flags_create (length : nat) : flags_t :=
  (fun i => (inject_Z (Z.of_nat i), false)) <$> seq 0 length.

(** [matchFlags[x]]: [None] is [undefined]. *)
Fixpoint flags_get (flags : flags_t) (x : Q) : option bool :=
  match flags with
  | [] => None
  | (k, v) :: rest => if Qeq_bool k x then Some v else flags_get rest x
  end.

Definition flags_set (flags : flags_t) (x : Q) (v : bool) : flags_t :=
  (x, v) :: flags.

(** Truthiness of [matchFlags[x]]. *)
Definition flag_on (flags : flags_t) (x : Q) : bool :=
  default false (flags_get flags x).

(** [s.charAt(x)] for a number [0 <= x]: the position is truncated. *)
Definition charAtQ (s : jsstring) (x : Q) : option N :=
  charAt s (Z.to_nat (Qfloor x)).

Definition Qlen (s : jsstring) : Q := inject_Z (Z.of_nat (length s)).

(** [Math.max(max.length / 2 - 1, 0)]; [/] is the division of numbers, so
    an odd length gives a radius that ends in one half.  The numbers of the
    matching loops are multiples of one half, on which binary64 arithmetic
    is exact. *)
Definition range_of (max : jsstring) : Q := Qmax (Qlen max / 2 - 1) 0.

(** The values [xi] takes in
    [for (xi = Math.max(mi - range, 0), xn = Math.min(mi + range + 1, max.length); xi < xn; xi++)]. *)
Definition scan_positions (range : Q) (max : jsstring) (mi : nat) : list Q :=
  let xi := Qmax (inject_Z (Z.of_nat mi) - range) 0 in
  let xn := Qmin (inject_Z (Z.of_nat mi) + range + 1) (Qlen max) in
  (fun k => xi + inject_Z (Z.of_nat k)) <$> seq 0 (Z.to_nat (Qceiling (xn - xi))).

(** The inner loop: the first position that passes the test, if any. *)
Definition scan (max : jsstring) (flags : flags_t) (c1 : option N)
    (xs : list Q) : option Q :=
  List.find (fun xi => negb (flag_on flags xi)
                       && bool_decide (c1 = charAtQ max xi)) xs.

(** The state of the first loop: [matchIndexes], [matchFlags], [matches]. *)
Definition match_state : Type := list Q * flags_t * nat.

Definition match_step (min max : jsstring) (range : Q) (st : match_state)
    (mi : nat) : match_state :=
  let '(matchIndexes, matchFlags, matches) := st in
  match scan max matchFlags (charAt min mi) (scan_positions range max mi) with
  | Some xi => (<[mi := xi]> matchIndexes, flags_set matchFlags xi true,
                S matches)
  | None => st
  end.

Definition match_loop (min max : jsstring) : match_state :=
  foldl (match_step min max (range_of max))
        (createArray (length min) (-1), flags_create (length max), O)
        (seq 0 (length min)).

(** [ms1] and [ms2]; an element is a one-unit string or [''] ([None]). *)
Definition collect (hit : nat -> bool) (s : jsstring) (ms : list (option N))
    : list (option N) :=
  (foldl (fun '(ms, si) i =>
            if hit i then (<[si := charAt s i]> ms, S si) else (ms, si))
         (ms, O) (seq 0 (length s))).1.

Fixpoint common_prefix (first second : jsstring) (mis : list nat) : nat :=
  match mis with
  | [] => O
  | mi :: rest =>
      if bool_decide (charAt first mi = charAt second mi)
      then S (common_prefix first second rest)
      else O
  end.

(** [matches(first, second)]: matches, half transpositions, prefix. *)
Definition matches (first second : jsstring) : nat * nat * nat :=
  let '(max, min) :=
    if (length second <? length first)%nat then (first, second)
    else (second, first) in
  let '(matchIndexes, matchFlags, matches) := match_loop min max in
  let ms1 := collect
               (fun i => match matchIndexes !! i with
                         | Some xi => negb (Qeq_bool xi (-1))
                         | None => true
                         end)
               min (createArray matches None) in
  let ms2 := collect
               (fun i => flag_on matchFlags (inject_Z (Z.of_nat i)))
               max (createArray matches None) in
  let halfTranspositions :=
    length (filter (fun mi => ms1 !! mi ≠ ms2 !! mi) (seq 0 (length ms1))) in
  let prefix := common_prefix first second (seq 0 (Nat.min 4 (length min))) in
  (matches, halfTranspositions, prefix).

(** The score is a binary64 number.  [0.1] and [0.7] denote the doubles
    nearest to them, and each arithmetic operation returns its exact result
    rounded; [rnd] is that rounding.  The lengths and the three counts are
    integers below 2^53 and enter the computation as they are. *)
Definition double_0_1 : Q := 3602879701896397 # 36028797018963968.
Definition double_0_7 : Q := 3152519739159347 # 4503599627370496.

(** [apply(left, right)] *)
Definition apply (rnd : Q -> Q) (left right : option jsstring) : outcome Q :=
  match left, right with
  | Some left0, Some right0 =>
      let defaultScalingFactor := double_0_1 in
      let '(m, ht, prefix) := matches left0 right0 in
      if (m =? 0)%nat then Return 0
      else
        let m := inject_Z (Z.of_nat m) in
        let j :=
          rnd (rnd (rnd (rnd (m / Qlen left0) + rnd (m / Qlen right0))
                    + rnd (rnd (m - rnd (inject_Z (Z.of_nat ht) / 2)) / m))
               / 3) in
        Return (if Qlt_le_dec j double_0_7 then j
                else rnd (j + rnd (rnd (defaultScalingFactor
                                        * inject_Z (Z.of_nat prefix))
                                   * rnd (1 - j))))
  | _, _ => Throw "CharSequences must not be null"
  end.

End JaroWinklerDistance.

(** ** Instances of LevenshteinDetailedDistance as objects *)

Module Instances.

(** An instance is an object: the method that carries the class name
    assigns its field, and [DEFAULT_INSTANCE] is one object that every
    caller of [getDefaultInstance] receives.  The store holds the state of
    every instance; an operation takes the store and returns its result with
    the store it leaves, or throws. *)
Abbreviation ref := nat.
Abbreviation store := (list LevenshteinDetailedDistance.instance).
Definition M (A : Type) : Type := store -> outcome (A * store).

Definition ret {A} (a : A) : M A := fun h => Return (a, h).

Definition bind {A B} (m : M A) (k : A -> M B) : M B :=
  fun h => JS.bind (m h) (fun '(a, h') => k a h').

(** A computation that does not touch the store. *)
Definition lift {A} (x : outcome A) : M A :=
  fun h => JS.bind x (fun a => Return (a, h)).

(** [this] inside a method called on [r]; a call on something that is not
    an object throws. *)
Definition deref (r : ref) : M LevenshteinDetailedDistance.instance :=
  fun h => match h !! r with
           | Some this => Return (this, h)
           | None => Throw "TypeError"
           end.

Definition assign (r : ref) (this : LevenshteinDetailedDistance.instance)
    : M unit :=
  fun h => Return (tt, <[r := this]> h).


(** [new LevenshteinDetailedDistance(...)]: a new object. *)
Definition new (args : list (option Z)) : M ref :=
  fun h => JS.bind (LevenshteinDetailedDistance.new args)
             (fun this => Return (length h, h ++ [this])).


(** [r.getThreshold()] *)
Definition getThreshold (r : ref) : M (option Z) :=
  bind (deref r)
       (fun this => ret (LevenshteinDetailedDistance.getThreshold this)).

(** [r.apply(left, right)] *)
Definition apply (r : ref) (left right : option jsstring)
    : M LevenshteinResults :=
  bind (deref r)
       (fun this => lift (LevenshteinDetailedDistance.apply this left right)).

(** [r.LevenshteinDetailedDistance(threshold)]: the check, then the
    assignment to [this.threshold]. *)
Definition LevenshteinDetailedDistance (r : ref) (arg : option Z) : M unit :=
  bind (deref r)
       (fun this =>
          bind (lift (LevenshteinDetailedDistance.LevenshteinDetailedDistance
                        this arg))
               (assign r)).

End Instances.

(** ** The peer metrics *)

(** *** HammingDistance.ts *)

Module HammingDistance.

Definition apply (left right : option jsstring) : outcome Z :=
  match left, right with
  | Some left0, Some right0 =>
      if negb (length left0 =? length right0)%nat
      then Throw "CharSequences must have the same length"
      else Return
             (foldl (fun distance i =>
                       if bool_decide (charAt left0 i <> charAt right0 i)
                       then distance + 1 else distance)
                    0 (seq 0 (length left0)))
  | _, _ => Throw "CharSequences must not be null"
  end.

End HammingDistance.

(** *** JaccardSimilarity.ts and JaccardDistance.ts *)

Module JaccardSimilarity.

Local Open Scope Q_scope.

(** [Math.round(x)]: the integer nearest to [x], halves rounded up. *)
Definition round (x : Q) : Q := inject_Z (Qfloor (x + (1 # 2))).

Definition set_of (s : jsstring) : gset N := list_to_set s.

Definition calculateJaccardSimilarity (left right : jsstring) : Q :=
  if ((length left =? 0) || (length right =? 0))%nat then 0
  else
    let leftSet := set_of left in
    let rightSet := set_of right in
    let unionSet := leftSet ∪ rightSet in
    let intersectionSize :=
      (Z.of_nat (size leftSet) + Z.of_nat (size rightSet)
       - Z.of_nat (size unionSet))%Z in
    1 * inject_Z intersectionSize / inject_Z (Z.of_nat (size unionSet)).

Definition apply (left right : option jsstring) : outcome Q :=
  match left, right with
  | Some left0, Some right0 =>
      Return (round (calculateJaccardSimilarity left0 right0 * 100) / 100)
  | _, _ => Throw "Input cannot be null"
  end.

End JaccardSimilarity.

Module JaccardDistance.

Local Open Scope Q_scope.

Definition apply (left right : option jsstring) : outcome Q :=
  match left, right with
  | Some _, Some _ =>
      JS.bind (JaccardSimilarity.apply left right)
        (fun similarity =>
           Return (JaccardSimilarity.round ((1 - similarity) * 100) / 100))
  | _, _ => Throw "Input cannot be null"
  end.

End JaccardDistance.

(** The two operations with the arithmetic of binary64 written out: each
    division, multiplication and subtraction returns its exact result
    rounded by [rnd]; [Math.round] and the sizes of the sets are exact.  The
    modules above are the instance at exact arithmetic, which is all that
    the argument checks need. *)
Module Binary64.

Module JaccardSimilarity.

Local Open Scope Q_scope.

Definition calculateJaccardSimilarity (rnd : Q -> Q) (left right : jsstring)
    : Q :=
  if ((length left =? 0) || (length right =? 0))%nat then 0
  else
    let leftSet := JaccardSimilarity.set_of left in
    let rightSet := JaccardSimilarity.set_of right in
    let unionSet := leftSet ∪ rightSet in
    let intersectionSize :=
      (Z.of_nat (size leftSet) + Z.of_nat (size rightSet)
       - Z.of_nat (size unionSet))%Z in
    rnd (rnd (1 * inject_Z intersectionSize)
         / inject_Z (Z.of_nat (size unionSet))).

Definition apply (rnd : Q -> Q) (left right : option jsstring) : outcome Q :=
  match left, right with
  | Some left0, Some right0 =>
      Return
        (rnd (JaccardSimilarity.round
                (rnd (calculateJaccardSimilarity rnd left0 right0 * 100))
              / 100))
  | _, _ => Throw "Input cannot be null"
  end.

End JaccardSimilarity.

Module JaccardDistance.

Local Open Scope Q_scope.

Definition apply (rnd : Q -> Q) (left right : option jsstring) : outcome Q :=
  match left, right with
  | Some _, Some _ =>
      JS.bind (JaccardSimilarity.apply rnd left right)
        (fun similarity =>
           Return (rnd (JaccardSimilarity.round
                          (rnd (rnd (1 - similarity) * 100))
                        / 100)))
  | _, _ => Throw "Input cannot be null"
  end.

End JaccardDistance.

End Binary64.

(** *** FuzzyScore.ts *)

Module FuzzyScore.

(** The state of the scan: [score], [termIndex] and
    [previousMatchingCharacterIndex]; the latter starts as
    [Number.MIN_VALUE] ([None]), and [Number.MIN_VALUE + 1] is 1. *)
Record scan_state : Type := mkScan {
  score : Z;
  termIndex : nat;
  previousMatchingCharacterIndex : option nat
}.

Definition previous_plus_1 (previous : option nat) : nat :=
  match previous with
  | Some i => S i
  | None => 1%nat
  end.

(** The inner [for] loop for one character of the query; [fuel] bounds the
    characters of the term that are left. *)
Fixpoint scan_term (fuel : nat) (termLowerCase : jsstring) (queryChar : option N)
    (st : scan_state) : scan_state :=
  match fuel with
  | O => st
  | S fuel' =>
      if (termIndex st <? length termLowerCase)%nat then
        if bool_decide (queryChar = charAt termLowerCase (termIndex st)) then
          let score1 := score st + 1 in
          let score2 :=
            if (previous_plus_1 (previousMatchingCharacterIndex st)
                =? termIndex st)%nat
            then score1 + 2 else score1 in
          mkScan score2 (S (termIndex st)) (Some (termIndex st))
        else
          scan_term fuel' termLowerCase queryChar
            (mkScan (score st) (S (termIndex st))
                    (previousMatchingCharacterIndex st))
      else st
  end.

(** [fuzzyScore(term, query)]; [toLowerCase] is the engine's
    [String.prototype.toLowerCase]. *)
Definition fuzzyScore (toLowerCase : jsstring -> jsstring)
    (term query : option jsstring) : outcome Z :=
  match term, query with
  | Some term0, Some query0 =>
      let termLowerCase := toLowerCase term0 in
      let queryLowerCase := toLowerCase query0 in
      Return
        (score
           (foldl (fun st queryIndex =>
                     scan_term (length termLowerCase) termLowerCase
                               (charAt queryLowerCase queryIndex) st)
                  (mkScan 0 0 None) (seq 0 (length queryLowerCase))))
  | _, _ => Throw "provided parameters must not be null"
  end.

End FuzzyScore.

(** ** Notions used to state and prove the properties *)

Module Spec.
Import LevenshteinDetailedDistance.

(** A table of [m + 1] rows and [n + 1] columns of non-negative costs. *)
Definition wf_matrix (n m : nat) (matrix : matrix_t) : Prop :=
  length matrix = (m + 1)%nat
  /\ Forall (fun row => length row = (n + 1)%nat
                        /\ Forall (fun x => 0 <= x) row) matrix.

Abbreviation nonneg := (Forall (fun x : Z => 0 <= x)).

(** A table whose cells do not exceed 2^53: on the integers from 0 to
    2^53 binary64 subtracts 1 without rounding, so [JS.sub1] is the
    [data - 1] of the source on every cell. *)
Definition exact_cells (matrix : matrix_t) : Prop :=
  Forall (Forall (fun x => x <= 2 ^ 53)) matrix.

(** The cell [matrix[r][c]] of such a table. *)
Definition cell (matrix : matrix_t) (r c : Z) : Z :=
  (matrix !!! Z.to_nat r) !!! Z.to_nat c.

(** The test [left.charAt(columnIndex - 1) == right.charAt(rowIndex - 1)]. *)
Definition same_char (left right : jsstring) (row col : Z) : bool :=
  bool_decide (charAt left (Z.to_nat (col - 1))
               = charAt right (Z.to_nat (row - 1))).

(** The move [bt_body] makes when the four cells it reads exist: [f] gives
    the cells and [ceq] the comparison of the two characters. *)
Definition pure_step (f : Z -> Z -> Z) (ceq : Z -> Z -> bool)
    (swapped : bool) (st : bt_state) : bt_next :=
  let row := rowIndex st in
  let col := columnIndex st in
  let dataAtLeft := if col =? 0 then -1 else f row (col - 1) in
  let dataAtTop := if row =? 0 then -1 else f (row - 1) col in
  let dataAtDiagonal :=
    if (row >? 0) && (col >? 0) then f (row - 1) (col - 1) else -1 in
  if (dataAtLeft =? -1) && (dataAtTop =? -1) && (dataAtDiagonal =? -1)
  then Break
  else
    let data := f row col in
    if (col >? 0) && (row >? 0) && ceq row col
    then Continue (mkBt (row - 1) (col - 1)
                        (addCount st) (delCount st) (subCount st))
    else if ((JS.sub1 data =? dataAtLeft)
             && ((data <=? dataAtDiagonal) && (data <=? dataAtTop)))
            || ((dataAtDiagonal =? -1) && (dataAtTop =? -1))
    then Continue
           (if swapped
            then mkBt row (col - 1) (addCount st + 1) (delCount st) (subCount st)
            else mkBt row (col - 1) (addCount st) (delCount st + 1) (subCount st))
    else if ((JS.sub1 data =? dataAtTop)
             && ((data <=? dataAtDiagonal) && (data <=? dataAtLeft)))
            || ((dataAtDiagonal =? -1) && (dataAtLeft =? -1))
    then Continue
           (if swapped
            then mkBt (row - 1) col (addCount st) (delCount st + 1) (subCount st)
            else mkBt (row - 1) col (addCount st + 1) (delCount st) (subCount st))
    else Continue (mkBt (row - 1) (col - 1)
                        (addCount st) (delCount st) (subCount st + 1)).

(** Edit scripts: [script s t i d b] says that [s] becomes [t] by keeping
    some characters, inserting [i], deleting [d] and substituting [b]. *)
Inductive script : jsstring -> jsstring -> Z -> Z -> Z -> Prop :=
| script_nil : script [] [] 0 0 0
| script_keep c s t i d b :
    script s t i d b -> script (c :: s) (c :: t) i d b
| script_insert c s t i d b :
    script s t i d b -> script s (c :: t) (i + 1) d b
| script_delete c s t i d b :
    script s t i d b -> script (c :: s) t i (d + 1) b
| script_substitute c c' s t i d b :
    c <> c' -> script s t i d b -> script (c :: s) (c' :: t) i d (b + 1).

(** The edit distance of the glossary, by the usual recursion on the two
    sequences; it is the cost of a cheapest script ([levenshtein_le_script],
    [levenshtein_script]). *)
Fixpoint levenshtein (s : jsstring) : jsstring -> Z :=
  match s with
  | [] => fun t => Z.of_nat (length t)
  | a :: s' =>
      fix lev_s (t : jsstring) : Z :=
        match t with
        | [] => Z.of_nat (length s)
        | b :: t' =>
            Z.min (Z.min (levenshtein s' t + 1) (lev_s t' + 1))
                  (levenshtein s' t' + (if bool_decide (a = b) then 0 else 1))
        end
  end.

(** The recurrence of the forward pass of [unlimitedCompare]: the cost in
    row [j] and column [i]. *)
Fixpoint tab (left right : jsstring) (j : nat) : nat -> Z :=
  match j with
  | O => fun i => Z.of_nat i
  | S j' =>
      fix row (i : nat) : Z :=
        match i with
        | O => Z.of_nat j
        | S i' =>
            Z.min (Z.min (row i' + 1) (tab left right j' i + 1))
                  (tab left right j' i'
                   + (if bool_decide (charAt left i' = charAt right j')
                      then 0 else 1))
        end
  end.

(** What the rows [1 .. k - 1] have established when row [k] starts. *)
Definition rows_done (left right : jsstring) (n m k : nat)
    (acc : list Z * list Z * matrix_t) : Prop :=
  wf_matrix n m acc.2
  /\ length acc.1.1 = (n + 1)%nat
  /\ length acc.1.2 = (n + 1)%nat
  /\ (forall i, (i <= n)%nat -> get acc.1.1 i = tab left right (k - 1) i)
  /\ (forall j i, (j < k)%nat -> (i <= n)%nat ->
        cell acc.2 (Z.of_nat j) (Z.of_nat i) = tab left right j i)
  /\ (forall j, (j <= m)%nat -> cell acc.2 (Z.of_nat j) 0 = Z.of_nat j).

(** A value held for the cell in row [r] and column [i] of the stripe: it
    is never below the cost, and it is the cost when that is within the
    threshold. *)
Definition good (left right : jsstring) (threshold : Z) (r i : nat) (v : Z)
    : Prop :=
  tab left right r i <= v
  /\ (tab left right r i <= threshold -> v = tab left right r i).

Definition in_stripe (threshold : Z) (r i : nat) : Prop :=
  Z.abs (Z.of_nat i - Z.of_nat r) <= threshold.

(** The two rolling rows of [limitedCompare] when row [r] has been
    computed into [p]: inside the stripe [p] is good, and right of it both
    rows still hold [Number.MAX_VALUE]. *)
Definition stripe_row (left right : jsstring) (threshold : Z) (n r : nat)
    (p d : list Z) : Prop :=
  length p = (n + 1)%nat /\ length d = (n + 1)%nat
  /\ (forall i, (i <= n)%nat -> in_stripe threshold r i ->
         good left right threshold r i (get p i))
  /\ (forall i, (i <= n)%nat -> Z.of_nat r + threshold < Z.of_nat i ->
         get p i = JS.MAX_VALUE)
  /\ (forall i, (i <= n)%nat -> Z.of_nat r + threshold < Z.of_nat i ->
         get d i = JS.MAX_VALUE).

(** The five ways an iteration of the backtrace ends. *)
Inductive move (ceq : Z -> Z -> bool) (swapped : bool) (st : bt_state)
    : bt_next -> Prop :=
| move_break :
    rowIndex st = 0 -> columnIndex st = 0 -> move ceq swapped st Break
| move_keep :
    0 < rowIndex st -> 0 < columnIndex st ->
    ceq (rowIndex st) (columnIndex st) = true ->
    move ceq swapped st
      (Continue (mkBt (rowIndex st - 1) (columnIndex st - 1)
                      (addCount st) (delCount st) (subCount st)))
| move_left :
    0 < columnIndex st ->
    move ceq swapped st
      (Continue
         (if swapped
          then mkBt (rowIndex st) (columnIndex st - 1)
                    (addCount st + 1) (delCount st) (subCount st)
          else mkBt (rowIndex st) (columnIndex st - 1)
                    (addCount st) (delCount st + 1) (subCount st)))
| move_up :
    0 < rowIndex st ->
    move ceq swapped st
      (Continue
         (if swapped
          then mkBt (rowIndex st - 1) (columnIndex st)
                    (addCount st) (delCount st + 1) (subCount st)
          else mkBt (rowIndex st - 1) (columnIndex st)
                    (addCount st + 1) (delCount st) (subCount st)))
| move_substitute :
    0 < rowIndex st -> 0 < columnIndex st ->
    ceq (rowIndex st) (columnIndex st) = false ->
    move ceq swapped st
      (Continue (mkBt (rowIndex st - 1) (columnIndex st - 1)
                      (addCount st) (delCount st) (subCount st + 1))).

(** The prefixes of the caller's [left] and [right] that remain to be
    aligned at a state of the backtrace; after a swap the table's columns
    run over the caller's [right]. *)
Definition source (swapped : bool) (left right : jsstring) (st : bt_state)
    : jsstring :=
  if swapped then take (Z.to_nat (rowIndex st)) right
  else take (Z.to_nat (columnIndex st)) left.

Definition target (swapped : bool) (left right : jsstring) (st : bt_state)
    : jsstring :=
  if swapped then take (Z.to_nat (columnIndex st)) left
  else take (Z.to_nat (rowIndex st)) right.

(** The state of the backtrace with the two directions exchanged. *)
Definition mirror (st : bt_state) : bt_state :=
  mkBt (columnIndex st) (rowIndex st) (delCount st) (addCount st) (subCount st).

Definition total (st : bt_state) : Z := addCount st + delCount st + subCount st.

Definition mirror_next (next : bt_next) : bt_next :=
  match next with
  | Break => Break
  | Continue st => Continue (mirror st)
  end.

(** The state of the backtrace with the two counters of the directional
    moves exchanged. *)
Definition exchange (st : bt_state) : bt_state :=
  mkBt (rowIndex st) (columnIndex st) (delCount st) (addCount st) (subCount st).

Definition exchange_next (next : bt_next) : bt_next :=
  match next with
  | Break => Break
  | Continue st => Continue (exchange st)
  end.

(** The matching step of Jaro-Winkler in the words of the design document:
    the radius is [max(floor(max.length / 2) - 1, 0)], and for each index of
    [min] the first unused equal character of [max] inside
    [index - range, index + range] is marked used and counted once. *)
Definition window_range (max : jsstring) : Z :=
  Z.max (Z.of_nat (length max) / 2 - 1) 0.

Definition window (range : Z) (max : jsstring) (index : nat) : list nat :=
  filter (fun x => Z.of_nat index - range <= Z.of_nat x <= Z.of_nat index + range)
         (seq 0 (length max)).

Definition window_step (min max : jsstring) (range : Z)
    (st : list bool * nat) (index : nat) : list bool * nat :=
  let '(used, count) := st in
  match List.find (fun x => negb (used !!! x)
                            && bool_decide (charAt min index = charAt max x))
                  (window range max index) with
  | Some x => (<[x := true]> used, S count)
  | None => st
  end.

Definition window_matches (first second : jsstring) : nat :=
  let '(max, min) :=
    if (length second <? length first)%nat then (first, second)
    else (second, first) in
  (foldl (window_step min max (window_range max))
         (replicate (length max) false, O) (seq 0 (length min))).2.

(** What the properties of the score use of the rounding of binary64
    (round to nearest): it is monotone, it leaves a double as it is, the
    integers up to 2^53 are doubles, and [1 - x] is exact for a double [x]
    between one half and 1. *)
Record binary64_rounding (rnd : Q -> Q) : Prop := mkRounding {
  rnd_monotone : forall x y, (x <= y)%Q -> (rnd x <= rnd y)%Q;
  rnd_idempotent : forall x, (rnd (rnd x) == rnd x)%Q;
  rnd_integer : forall n : Z, 0 <= n <= 2 ^ 53 -> (rnd (inject_Z n) == inject_Z n)%Q;
  rnd_sterbenz : forall x, (rnd x == x)%Q -> (1 # 2 <= x <= 1)%Q ->
                           (rnd (1 - x) == 1 - x)%Q
}.

(** Exact arithmetic, the rounding that changes nothing. *)
Definition exact (x : Q) : Q := x.

(** The counter of [HammingDistance.apply] after the positions below [k]. *)
Definition hamming_count (left right : jsstring) (k : nat) : Z :=
  foldl (fun distance i =>
           if bool_decide (charAt left i <> charAt right i)
           then distance + 1 else distance)
        0 (seq 0 k).

(** The state of [fuzzyScore] after the characters of the query below
    [k]. *)
Definition fuzzy_scan (termLowerCase queryLowerCase : jsstring) (k : nat)
    : FuzzyScore.scan_state :=
  foldl (fun st queryIndex =>
           FuzzyScore.scan_term (length termLowerCase) termLowerCase
             (charAt queryLowerCase queryIndex) st)
        (FuzzyScore.mkScan 0 0 None) (seq 0 k).

End Spec.

(** * Properties *)

Import LevenshteinDetailedDistance Spec.

(** ** Tables keep their shape *)

Lemma foldl_invariant {A B} (P : A -> Prop) (f : A -> B -> A) (l : list B) (a : A) :
  P a -> (forall a b, P a -> b ∈ l -> P (f a b)) -> P (foldl f a l).
Proof.
  revert a. induction l as [|b l IH]; intros a Ha Hf; simpl; [done|].
  apply IH.
  - apply Hf; [done | left].
  - intros a' b' Ha' Hb'. apply Hf; [done | by right].
Qed.

Lemma get_nonneg (a : list Z) (i : nat) :
  Forall (fun x => 0 <= x) a -> 0 <= get a i.
Proof.
  intros Ha. unfold get. rewrite list_lookup_total_alt.
  destruct (a !! i) as [x|] eqn:E; simpl.
  - by apply (Forall_lookup_1 _ _ _ _ Ha E).
  - done.
Qed.

Lemma matrix_set_wf n m matrix r c v :
  wf_matrix n m matrix -> 0 <= v -> wf_matrix n m (matrix_set matrix r c v).
Proof.
  intros [Hlen Hrows] Hv. split.
  - unfold matrix_set. by rewrite length_alter.
  - apply Forall_alter; [done|].
    intros row _ [Hl Hnn]. split.
    + by rewrite length_insert.
    + by apply Forall_insert.
Qed.

Lemma createArray_wf n m :
  wf_matrix n m (createArray (m + 1) (createArray (n + 1) 0)).
Proof.
  unfold createArray. split.
  - by rewrite length_replicate.
  - apply Forall_replicate. split.
    + by rewrite length_replicate.
    + by apply Forall_replicate.
Qed.

Lemma init_matrix_wf n m : wf_matrix n m (init_matrix n m).
Proof.
  unfold init_matrix.
  apply foldl_invariant; [apply foldl_invariant; [apply createArray_wf|]|];
    intros mx index Hmx _; apply matrix_set_wf; auto; lia.
Qed.

Lemma MAX_VALUE_pos : 0 < JS.MAX_VALUE.
Proof. reflexivity. Qed.

Lemma add1_nonneg x : 0 <= x -> 0 <= JS.add1 x.
Proof.
  intros Hx. unfold JS.add1. destruct (x =? JS.MAX_VALUE); [|lia].
  pose proof MAX_VALUE_pos. lia.
Qed.

Lemma wf_read n m matrix r c :
  wf_matrix n m matrix -> 0 <= r <= Z.of_nat m -> 0 <= c <= Z.of_nat n ->
  read matrix r c = Return (Some (cell matrix r c)) /\ 0 <= cell matrix r c.
Proof.
  intros [Hlen Hrows] Hr Hc. unfold read, row_at, elem_at, cell.
  destruct (r <? 0) eqn:E1; [lia|].
  destruct (lookup_lt_is_Some_2 matrix (Z.to_nat r)) as [row Hrow]; [lia|].
  rewrite Hrow. simpl.
  destruct (c <? 0) eqn:E2; [lia|].
  destruct (Forall_lookup_1 _ _ _ _ Hrows Hrow) as [Hl Hnn].
  destruct (lookup_lt_is_Some_2 row (Z.to_nat c)) as [x Hx]; [lia|].
  rewrite (list_lookup_total_correct _ _ _ Hrow).
  rewrite (list_lookup_total_correct _ _ _ Hx).
  rewrite Hx. split; [done|].
  by apply (Forall_lookup_1 _ _ _ _ Hnn Hx).
Qed.

Lemma unl_cell_wf n m left rightJ p j acc i :
  nonneg p -> nonneg acc.1 /\ wf_matrix n m acc.2 ->
  nonneg (unl_cell left rightJ p j acc i).1
  /\ wf_matrix n m (unl_cell left rightJ p j acc i).2.
Proof.
  destruct acc as [d matrix]. simpl. intros Hp [Hd Hm].
  assert (0 <= Z.min (Z.min (get d (i - 1) + 1) (get p i + 1))
                     (get p (i - 1)
                      + (if bool_decide (charAt left (i - 1) = rightJ)
                         then 0 else 1))) as Hv.
  { pose proof (get_nonneg d (i - 1) Hd). pose proof (get_nonneg p i Hp).
    pose proof (get_nonneg p (i - 1) Hp). case_bool_decide; lia. }
  assert (nonneg (<[i := Z.min (Z.min (get d (i - 1) + 1) (get p i + 1))
                     (get p (i - 1)
                      + (if bool_decide (charAt left (i - 1) = rightJ)
                         then 0 else 1))]> d)) as Hd'
    by (by apply Forall_insert).
  split; [done|]. apply matrix_set_wf; [done|]. by apply get_nonneg.
Qed.

Lemma unl_row_wf n m left right k acc j :
  nonneg acc.1.1 /\ nonneg acc.1.2 /\ wf_matrix n m acc.2 ->
  nonneg (unl_row left right k acc j).1.1
  /\ nonneg (unl_row left right k acc j).1.2
  /\ wf_matrix n m (unl_row left right k acc j).2.
Proof.
  destruct acc as [[p d] matrix]. simpl. intros (Hp & Hd & Hm).
  unfold unl_row.
  set (step := unl_cell left (charAt right (j - 1)) p j).
  assert (nonneg (foldl step (<[0%nat := Z.of_nat j]> d, matrix) (seq 1 k)).1
          /\ wf_matrix n m
               (foldl step (<[0%nat := Z.of_nat j]> d, matrix) (seq 1 k)).2)
    as Hinner.
  { apply (foldl_invariant (fun acc => nonneg acc.1 /\ wf_matrix n m acc.2)).
    - simpl. split; [apply Forall_insert; [done|lia] | done].
    - intros acc i Hacc _. by apply unl_cell_wf. }
  destruct (foldl step _ _) as [d' matrix']. simpl in *.
  destruct Hinner; split; [|split]; assumption.
Qed.

Lemma nonneg_iota (a : list Z) (l : list nat) :
  nonneg a -> nonneg (foldl (fun p i => <[i := Z.of_nat i]> p) a l).
Proof.
  intros Ha. apply foldl_invariant; [done|].
  intros p i Hp _. apply Forall_insert; [done|lia].
Qed.

Lemma unlimited_matrix_wf left right :
  wf_matrix (length left) (length right) (unlimited_matrix left right).
Proof.
  unfold unlimited_matrix.
  set (n := length left). set (m := length right).
  apply (foldl_invariant
           (fun acc => nonneg acc.1.1 /\ nonneg acc.1.2 /\ wf_matrix n m acc.2)).
  - simpl. split; [|split].
    + apply nonneg_iota. by apply Forall_replicate.
    + by apply Forall_replicate.
    + apply init_matrix_wf.
  - intros acc j Hacc _. by apply unl_row_wf.
Qed.

Lemma lim_cell_wf n m left rightJ p j acc i :
  nonneg p -> nonneg acc.1 /\ wf_matrix n m acc.2 ->
  nonneg (lim_cell left rightJ p j acc i).1
  /\ wf_matrix n m (lim_cell left rightJ p j acc i).2.
Proof.
  destruct acc as [d matrix]. simpl. intros Hp [Hd Hm].
  pose proof (get_nonneg d (i - 1) Hd). pose proof (get_nonneg p i Hp).
  pose proof (get_nonneg p (i - 1) Hp).
  case_bool_decide; (split; [|apply matrix_set_wf; [done|apply get_nonneg]]);
    apply Forall_insert; try done; apply add1_nonneg; lia.
Qed.

Lemma fill_nonneg start stop a :
  nonneg a -> nonneg (JS.fill JS.MAX_VALUE start stop a).
Proof.
  intros Ha. unfold JS.fill. apply foldl_invariant; [done|].
  intros p i Hp _. apply Forall_insert; [done|]. pose proof MAX_VALUE_pos. lia.
Qed.

Lemma lim_rows_wf n m left right threshold k js p d matrix p' d' matrix' :
  nonneg p -> nonneg d -> wf_matrix n m matrix ->
  lim_rows left right threshold k js p d matrix = Some (p', d', matrix') ->
  nonneg p' /\ nonneg d' /\ wf_matrix n m matrix'.
Proof.
  revert p d matrix. induction js as [|j js IH]; intros p d matrix Hp Hd Hm; simpl.
  - intros [= <- <- <-]. done.
  - destruct (stripe_min threshold j >? stripe_max threshold k j); [done|].
    set (d1 := if stripe_min threshold j >? 1
               then <[Z.to_nat (stripe_min threshold j - 1) := JS.MAX_VALUE]>
                      (<[0%nat := Z.of_nat j]> d)
               else <[0%nat := Z.of_nat j]> d).
    set (step := lim_cell left (charAt right (j - 1)) p j).
    set (cells := seq _ _).
    assert (nonneg d1) as Hd1.
    { unfold d1. pose proof MAX_VALUE_pos.
      destruct (_ >? 1); repeat apply Forall_insert; auto; lia. }
    assert (nonneg (foldl step (d1, matrix) cells).1
            /\ wf_matrix n m (foldl step (d1, matrix) cells).2) as Hinner.
    { apply (foldl_invariant (fun acc => nonneg acc.1 /\ wf_matrix n m acc.2)).
      - done.
      - intros acc i Hacc _. by apply lim_cell_wf. }
    destruct (foldl step _ _) as [d2 matrix2]. simpl in Hinner.
    intros Hrun. by apply (IH _ _ _ (proj1 Hinner) Hp (proj2 Hinner)) in Hrun.
Qed.

Lemma limited_run_wf left right threshold p d matrix :
  limited_run left right threshold = Some (p, d, matrix) ->
  wf_matrix (length left) (length right) matrix.
Proof.
  unfold limited_run. intros Hrun.
  eapply lim_rows_wf in Hrun; [apply Hrun| | |apply init_matrix_wf].
  - apply fill_nonneg, nonneg_iota. by apply Forall_replicate.
  - apply fill_nonneg. by apply Forall_replicate.
Qed.

(** ** The backtrace on a well-formed table *)

Lemma bt_body_pure n m left right matrix swapped st :
  wf_matrix n m matrix ->
  0 <= rowIndex st <= Z.of_nat m -> 0 <= columnIndex st <= Z.of_nat n ->
  bt_body left right matrix swapped st
  = Return (pure_step (cell matrix) (same_char left right) swapped st).
Proof.
  intros Hwf Hr Hc. destruct st as [row col a d b]. simpl in Hr, Hc.
  unfold bt_body, pure_step, same_char; simpl rowIndex; simpl columnIndex.
  destruct (Z.eqb_spec col 0) as [Hc0|Hc0];
    destruct (Z.eqb_spec row 0) as [Hr0|Hr0];
    destruct (Z.gtb_spec row 0) as [Hr1|Hr1]; try lia;
    destruct (Z.gtb_spec col 0) as [Hc1|Hc1]; try lia;
    repeat match goal with
           | |- context [read matrix ?r ?c] =>
               rewrite (proj1 (wf_read n m matrix r c Hwf
                                 ltac:(lia) ltac:(lia)))
           end;
    cbn [JS.bind num_eq num_le minus1 is_m1 fmap option_fmap option_map
         andb orb];
    repeat match goal with
           | |- context [if ?c then _ else _] => destruct c
           end;
    reflexivity.
Qed.

Lemma pure_step_move f ceq swapped st R C :
  (forall r c, 0 <= r <= R -> 0 <= c <= C -> 0 <= f r c) ->
  0 <= rowIndex st <= R -> 0 <= columnIndex st <= C ->
  move ceq swapped st (pure_step f ceq swapped st).
Proof.
  intros Hf Hr Hc. destruct st as [row col a d b]. simpl in Hr, Hc.
  unfold pure_step; simpl rowIndex; simpl columnIndex.
  simpl addCount; simpl delCount; simpl subCount.
  pose proof (Hf row col ltac:(lia) ltac:(lia)) as Hdata.
  destruct (Z.eqb_spec col 0) as [Hc0|Hc0];
    destruct (Z.eqb_spec row 0) as [Hr0|Hr0];
    destruct (Z.gtb_spec row 0) as [Hr1|Hr1]; try lia;
    destruct (Z.gtb_spec col 0) as [Hc1|Hc1]; try lia;
    cbn [andb orb].
  - (* the origin *)
    subst. by apply move_break.
  - (* first column *)
    replace (-1 =? -1) with true by reflexivity. cbn [andb orb].
    pose proof (Hf (row - 1) col ltac:(lia) ltac:(lia)) as Htop.
    destruct (Z.eqb_spec (f (row - 1) col) (-1)); [lia|].
    cbn [andb orb].
    destruct (Z.leb_spec (f row col) (-1)); [lia|].
    rewrite !andb_false_r. cbn [andb orb].
    apply (move_up ceq swapped (mkBt row col a d b)). simpl. lia.
  - (* first row *)
    replace (-1 =? -1) with true by reflexivity.
    pose proof (Hf row (col - 1) ltac:(lia) ltac:(lia)) as Hleft.
    destruct (Z.eqb_spec (f row (col - 1)) (-1)); [lia|].
    rewrite !orb_true_r. cbn [andb orb].
    apply (move_left ceq swapped (mkBt row col a d b)). simpl. lia.
  - (* inside *)
    pose proof (Hf row (col - 1) ltac:(lia) ltac:(lia)) as Hleft.
    pose proof (Hf (row - 1) col ltac:(lia) ltac:(lia)) as Htop.
    pose proof (Hf (row - 1) (col - 1) ltac:(lia) ltac:(lia)) as Hdiag.
    destruct (Z.eqb_spec (f row (col - 1)) (-1)); [lia|].
    destruct (Z.eqb_spec (f (row - 1) col) (-1)); [lia|].
    destruct (Z.eqb_spec (f (row - 1) (col - 1)) (-1)); [lia|].
    rewrite !orb_false_r. cbn [andb orb].
    destruct (ceq row col) eqn:Hceq.
    { apply (move_keep ceq swapped (mkBt row col a d b)); simpl; auto; lia. }
    destruct (_ && _).
    { apply (move_left ceq swapped (mkBt row col a d b)). simpl. lia. }
    destruct (_ && _).
    { apply (move_up ceq swapped (mkBt row col a d b)). simpl. lia. }
    apply (move_substitute ceq swapped (mkBt row col a d b)); simpl; auto; lia.
Qed.

(** Scripts can be extended at the end as well as at the front. *)
Lemma script_keep_r c s t i d b :
  script s t i d b -> script (s ++ [c]) (t ++ [c]) i d b.
Proof.
  induction 1; simpl; try (by constructor).
  apply script_keep, script_nil.
Qed.

Lemma script_insert_r c s t i d b :
  script s t i d b -> script s (t ++ [c]) (i + 1) d b.
Proof.
  induction 1; simpl; try (by constructor).
  apply script_insert, script_nil.
Qed.

Lemma script_delete_r c s t i d b :
  script s t i d b -> script (s ++ [c]) t i (d + 1) b.
Proof.
  induction 1; simpl; try (by constructor).
  apply script_delete, script_nil.
Qed.

Lemma script_substitute_r c c' s t i d b :
  c <> c' -> script s t i d b -> script (s ++ [c]) (t ++ [c']) i d (b + 1).
Proof.
  intros Hne. induction 1; simpl; try (by constructor).
  by apply script_substitute, script_nil.
Qed.

Lemma script_insert_all t : script [] t (Z.of_nat (length t)) 0 0.
Proof.
  induction t as [|c t IH]; [apply script_nil|].
  replace (Z.of_nat (length (c :: t))) with (Z.of_nat (length t) + 1)
    by (simpl; lia).
  by apply script_insert.
Qed.

Lemma script_delete_all s : script s [] 0 (Z.of_nat (length s)) 0.
Proof.
  induction s as [|c s IH]; [apply script_nil|].
  replace (Z.of_nat (length (c :: s))) with (Z.of_nat (length s) + 1)
    by (simpl; lia).
  by apply script_delete.
Qed.

Lemma script_lengths s t i d b :
  script s t i d b ->
  0 <= i /\ 0 <= d /\ 0 <= b
  /\ i - d = Z.of_nat (length t) - Z.of_nat (length s).
Proof. induction 1; simpl; lia. Qed.

Lemma take_snoc (s : jsstring) (k : Z) :
  0 < k <= Z.of_nat (length s) ->
  exists c, charAt s (Z.to_nat (k - 1)) = Some c
            /\ take (Z.to_nat k) s = take (Z.to_nat (k - 1)) s ++ [c].
Proof.
  intros Hk. unfold charAt.
  destruct (lookup_lt_is_Some_2 s (Z.to_nat (k - 1))) as [c Hc]; [lia|].
  exists c. split; [done|].
  replace (Z.to_nat k) with (S (Z.to_nat (k - 1))) by lia.
  by apply take_S_r.
Qed.

(** The loop returns, and what it has counted from a state on is a script
    between the prefixes that were left at that state. *)
Lemma bt_loop_script left right matrix swapped fuel st :
  wf_matrix (length left) (length right) matrix ->
  0 <= rowIndex st <= Z.of_nat (length right) ->
  0 <= columnIndex st <= Z.of_nat (length left) ->
  rowIndex st + columnIndex st < Z.of_nat fuel ->
  exists st',
    bt_loop fuel left right matrix swapped st = Return st'
    /\ script (source swapped left right st) (target swapped left right st)
              (addCount st' - addCount st) (delCount st' - delCount st)
              (subCount st' - subCount st).
Proof.
  intros Hwf. revert st.
  induction fuel as [|fuel IH]; intros st Hr Hc Hfuel; [lia|].
  cbn [bt_loop].
  destruct (Z.geb_spec (rowIndex st) 0); [|lia].
  destruct (Z.geb_spec (columnIndex st) 0); [|lia].
  cbn [andb].
  rewrite (bt_body_pure _ _ _ _ _ _ _ Hwf Hr Hc). cbn [JS.bind].
  pose proof (pure_step_move (cell matrix) (same_char left right) swapped st
                (Z.of_nat (length right)) (Z.of_nat (length left))
                (fun r c Hr' Hc' => proj2 (wf_read _ _ _ r c Hwf Hr' Hc'))
                Hr Hc) as Hmove.
  destruct st as [row col a d b].
  simpl in Hr, Hc, Hfuel.
  inversion Hmove as [Hr0 Hc0 Heq | Hr0 Hc0 Hceq Heq | Hc0 Heq | Hr0 Heq
                     | Hr0 Hc0 Hceq Heq];
    simpl in *; clear Hmove.
  - (* break *)
    eexists; split; [done|]. subst row col. unfold source, target. simpl.
    rewrite !Z.sub_diag. destruct swapped; apply script_nil.
  - (* equal characters *)
    destruct (IH (mkBt (row - 1) (col - 1) a d b)) as (st' & Hrun & Hs);
      [simpl; lia..|].
    exists st'. split; [done|]. simpl in Hs.
    destruct (take_snoc left col ltac:(lia)) as (c & Hcl & Htl).
    destruct (take_snoc right row ltac:(lia)) as (c' & Hcr & Htr).
    unfold same_char in Hceq. apply bool_decide_eq_true in Hceq.
    rewrite Hcl, Hcr in Hceq. injection Hceq as <-.
    unfold source, target in *. simpl in *.
    destruct swapped; rewrite Htl, Htr; by apply script_keep_r.
  - (* a step to the left *)
    destruct (take_snoc left col ltac:(lia)) as (c & Hcl & Htl).
    unfold source, target. simpl.
    destruct swapped.
    + destruct (IH (mkBt row (col - 1) (a + 1) d b)) as (st' & Hrun & Hs);
        [simpl; lia..|].
      exists st'. split; [done|]. unfold source, target in Hs. simpl in Hs.
      rewrite Htl.
      replace (addCount st' - a) with (addCount st' - (a + 1) + 1) by lia.
      by apply script_insert_r.
    + destruct (IH (mkBt row (col - 1) a (d + 1) b)) as (st' & Hrun & Hs);
        [simpl; lia..|].
      exists st'. split; [done|]. unfold source, target in Hs. simpl in Hs.
      rewrite Htl.
      replace (delCount st' - d) with (delCount st' - (d + 1) + 1) by lia.
      by apply script_delete_r.
  - (* a step up *)
    destruct (take_snoc right row ltac:(lia)) as (c & Hcr & Htr).
    unfold source, target. simpl.
    destruct swapped.
    + destruct (IH (mkBt (row - 1) col a (d + 1) b)) as (st' & Hrun & Hs);
        [simpl; lia..|].
      exists st'. split; [done|]. unfold source, target in Hs. simpl in Hs.
      rewrite Htr.
      replace (delCount st' - d) with (delCount st' - (d + 1) + 1) by lia.
      by apply script_delete_r.
    + destruct (IH (mkBt (row - 1) col (a + 1) d b)) as (st' & Hrun & Hs);
        [simpl; lia..|].
      exists st'. split; [done|]. unfold source, target in Hs. simpl in Hs.
      rewrite Htr.
      replace (addCount st' - a) with (addCount st' - (a + 1) + 1) by lia.
      by apply script_insert_r.
  - (* substitution *)
    destruct (IH (mkBt (row - 1) (col - 1) a d (b + 1))) as (st' & Hrun & Hs);
      [simpl; lia..|].
    exists st'. split; [done|]. simpl in Hs.
    destruct (take_snoc left col ltac:(lia)) as (c & Hcl & Htl).
    destruct (take_snoc right row ltac:(lia)) as (c' & Hcr & Htr).
    unfold same_char in Hceq. apply bool_decide_eq_false in Hceq.
    rewrite Hcl, Hcr in Hceq.
    assert (c <> c') as Hne by congruence.
    unfold source, target in *. simpl in *.
    replace (subCount st' - b) with (subCount st' - (b + 1) + 1) by lia.
    destruct swapped; rewrite Htl, Htr; apply script_substitute_r; auto.
Qed.

Lemma findDetailedResults_total left right matrix swapped r :
  findDetailedResults left right matrix swapped = Return r ->
  distance r = insertCount r + deleteCount r + substituteCount r.
Proof.
  unfold findDetailedResults.
  destruct (bt_loop _ _ _ _ _ _) as [st| |]; simpl; [|done..].
  by intros [= <-].
Qed.

Lemma findDetailedResults_script left right matrix swapped :
  wf_matrix (length left) (length right) matrix ->
  exists r,
    findDetailedResults left right matrix swapped = Return r
    /\ 0 <= distance r
    /\ script (if swapped then right else left)
              (if swapped then left else right)
              (insertCount r) (deleteCount r) (substituteCount r).
Proof.
  intros Hwf. unfold findDetailedResults.
  destruct (bt_loop_script left right matrix swapped
              (length right + length left + 1)
              (mkBt (Z.of_nat (length right)) (Z.of_nat (length left)) 0 0 0)
              Hwf) as (st' & -> & Hs); [simpl; lia..|].
  simpl. eexists; split; [done|]. simpl.
  unfold source, target in Hs. simpl in Hs.
  rewrite !Nat2Z.id, !firstn_all, !Z.sub_0_r in Hs.
  split; [|done].
  apply script_lengths in Hs. lia.
Qed.

Lemma swap_operands_cases left right :
  (swap_operands left right = (right, left, true)
   /\ (length right < length left)%nat)
  \/ (swap_operands left right = (left, right, false)
      /\ (length left <= length right)%nat).
Proof.
  unfold swap_operands.
  destruct (Nat.ltb_spec (length right) (length left)); [left|right]; done.
Qed.

(** Both modes return on strings, and a result that is not the sentinel is
    a script from the caller's [left] to the caller's [right]. *)
Lemma unlimitedCompare_script (left right : jsstring) :
  exists r,
    unlimitedCompare (Some left) (Some right) = Return r
    /\ 0 <= distance r
    /\ distance r = insertCount r + deleteCount r + substituteCount r
    /\ script left right (insertCount r) (deleteCount r) (substituteCount r).
Proof.
  unfold unlimitedCompare.
  destruct (Nat.eqb_spec (length left) 0) as [Hn|Hn].
  { eexists; split; [done|]. simpl.
    apply nil_length_inv in Hn as ->. split; [lia|]. split; [lia|].
    apply script_insert_all. }
  destruct (Nat.eqb_spec (length right) 0) as [Hm|Hm].
  { eexists; split; [done|]. simpl.
    apply nil_length_inv in Hm as ->. split; [lia|]. split; [lia|].
    apply script_delete_all. }
  destruct (swap_operands_cases left right) as [[-> _]|[-> _]].
  - destruct (findDetailedResults_script right left
                (unlimited_matrix right left) true
                (unlimited_matrix_wf right left)) as (r & Hr & Hd & Hs).
    exists r. split; [done|]. split; [done|].
    split; [by eapply findDetailedResults_total|done].
  - destruct (findDetailedResults_script left right
                (unlimited_matrix left right) false
                (unlimited_matrix_wf left right)) as (r & Hr & Hd & Hs).
    exists r. split; [done|]. split; [done|].
    split; [by eapply findDetailedResults_total|done].
Qed.

Lemma limitedCompare_script (left right : jsstring) (threshold : Z) :
  0 <= threshold ->
  exists r,
    limitedCompare (Some left) (Some right) threshold = Return r
    /\ (r = sentinel
        \/ (0 <= distance r
            /\ distance r = insertCount r + deleteCount r + substituteCount r
            /\ script left right
                 (insertCount r) (deleteCount r) (substituteCount r))).
Proof.
  intros Hk. unfold limitedCompare.
  destruct (Z.ltb_spec threshold 0); [lia|].
  destruct (Nat.eqb_spec (length left) 0) as [Hn|Hn].
  { eexists; split; [done|].
    destruct (Z.leb_spec (Z.of_nat (length right)) threshold); [right|by left].
    simpl. apply nil_length_inv in Hn as ->. split; [lia|]. split; [lia|].
    apply script_insert_all. }
  destruct (Nat.eqb_spec (length right) 0) as [Hm|Hm].
  { eexists; split; [done|].
    destruct (Z.leb_spec (Z.of_nat (length left)) threshold); [right|by left].
    simpl. apply nil_length_inv in Hm as ->. split; [lia|]. split; [lia|].
    apply script_delete_all. }
  destruct (swap_operands_cases left right) as [[-> _]|[-> _]].
  - destruct (limited_run right left threshold) as [[[p d] matrix]|] eqn:Hrun;
      [|eexists; split; [done|by left]].
    destruct (get p (length right) <=? threshold);
      [|eexists; split; [done|by left]].
    destruct (findDetailedResults_script right left matrix true
                (limited_run_wf _ _ _ _ _ _ Hrun)) as (r & Hr & Hd & Hs).
    exists r. split; [done|]. right. split; [done|].
    split; [by eapply findDetailedResults_total|done].
  - destruct (limited_run left right threshold) as [[[p d] matrix]|] eqn:Hrun;
      [|eexists; split; [done|by left]].
    destruct (get p (length left) <=? threshold);
      [|eexists; split; [done|by left]].
    destruct (findDetailedResults_script left right matrix false
                (limited_run_wf _ _ _ _ _ _ Hrun)) as (r & Hr & Hd & Hs).
    exists r. split; [done|]. right. split; [done|].
    split; [by eapply findDetailedResults_total|done].
Qed.

(** ** The table of the unbounded mode *)

Lemma foldl_seq_ind {A} (P : nat -> A -> Prop) (f : A -> nat -> A)
    (a : A) (s len : nat) :
  P s a ->
  (forall k a, (s <= k < s + len)%nat -> P k a -> P (S k) (f a k)) ->
  P (s + len)%nat (foldl f a (seq s len)).
Proof.
  revert s a. induction len as [|len IH]; intros s a Ha Hstep; simpl.
  - by rewrite Nat.add_0_r.
  - replace (s + S len)%nat with (S s + len)%nat by lia.
    apply IH.
    + apply Hstep; [lia|done].
    + intros k a' Hk. apply Hstep. lia.
Qed.

Lemma cell_matrix_set_eq n m matrix (r c : nat) v :
  wf_matrix n m matrix -> (r <= m)%nat -> (c <= n)%nat ->
  cell (matrix_set matrix r c v) (Z.of_nat r) (Z.of_nat c) = v.
Proof.
  intros [Hlen Hrows] Hr Hc. unfold cell, matrix_set. rewrite !Nat2Z.id.
  rewrite list_lookup_total_alter_eq by lia.
  apply list_lookup_total_insert_eq.
  destruct (lookup_lt_is_Some_2 matrix r) as [row Hrow]; [lia|].
  rewrite (list_lookup_total_correct _ _ _ Hrow).
  destruct (Forall_lookup_1 _ _ _ _ Hrows Hrow) as [-> _]. lia.
Qed.

Lemma cell_matrix_set_ne matrix (r c r' c' : nat) v :
  (r, c) <> (r', c') ->
  cell (matrix_set matrix r c v) (Z.of_nat r') (Z.of_nat c')
  = cell matrix (Z.of_nat r') (Z.of_nat c').
Proof.
  intros Hne. unfold cell, matrix_set. rewrite !Nat2Z.id.
  rewrite list_lookup_total_alter.
  case_decide as Hcase; [|done]. destruct Hcase as [<- _].
  apply list_lookup_total_insert_ne. congruence.
Qed.

Lemma init_matrix_cells n m :
  (forall i, (i <= n)%nat ->
             cell (init_matrix n m) 0 (Z.of_nat i) = Z.of_nat i)
  /\ (forall j, (j <= m)%nat ->
                cell (init_matrix n m) (Z.of_nat j) 0 = Z.of_nat j).
Proof.
  unfold init_matrix.
  set (M0 := createArray (m + 1) (createArray (n + 1) 0)).
  set (f1 := fun mx index => matrix_set mx 0 index (Z.of_nat index)).
  set (f2 := fun mx index => matrix_set mx index 0 (Z.of_nat index)).
  pose proof (foldl_seq_ind
    (fun k M => wf_matrix n m M
                /\ forall i, (i < k)%nat -> cell M 0 (Z.of_nat i) = Z.of_nat i)
    f1 M0 0 (n + 1)) as H1.
  simpl in H1. destruct H1 as [Hwf1 Hrow0].
  { split; [apply createArray_wf | intros; lia]. }
  { intros k M Hk [Hwf Hc]. split.
    - apply matrix_set_wf; [done|lia].
    - intros i Hi. unfold f1. destruct (decide (i = k)) as [->|Hne].
      + apply (cell_matrix_set_eq n m M 0 k); [done|lia..].
      + rewrite (cell_matrix_set_ne M 0 k 0 i) by congruence.
        apply Hc. lia. }
  pose proof (foldl_seq_ind
    (fun k M => wf_matrix n m M
                /\ (forall i, (i <= n)%nat ->
                              cell M 0 (Z.of_nat i) = Z.of_nat i)
                /\ forall j, (j < k)%nat ->
                             cell M (Z.of_nat j) 0 = Z.of_nat j)
    f2 (foldl f1 M0 (seq 0 (n + 1))) 0 (m + 1)) as H2.
  simpl in H2. destruct H2 as (Hwf2 & Hrow & Hcol).
  { split; [done|]. split; [|intros; lia]. intros i Hi. apply Hrow0. lia. }
  { intros k M Hk (Hwf & Hr & Hc). split; [|split].
    - apply matrix_set_wf; [done|lia].
    - intros i Hi. unfold f2.
      destruct (decide ((k, 0%nat) = (0%nat, i))) as [[= -> <-]|Hne].
      + apply (cell_matrix_set_eq n m M 0 0); [done|lia..].
      + rewrite (cell_matrix_set_ne M k 0 0 i) by done. by apply Hr.
    - intros j Hj. unfold f2. destruct (decide (j = k)) as [->|Hne].
      + apply (cell_matrix_set_eq n m M k 0); [done|lia..].
      + rewrite (cell_matrix_set_ne M k 0 j 0) by congruence.
        apply Hc. lia. }
  split; [done|]. intros j Hj. apply Hcol. lia.
Qed.

Lemma tab_S_S left right j i :
  tab left right (S j) (S i)
  = Z.min (Z.min (tab left right (S j) i + 1) (tab left right j (S i) + 1))
          (tab left right j i
           + (if bool_decide (charAt left i = charAt right j) then 0 else 1)).
Proof. reflexivity. Qed.

Lemma tab_0_r left right j : tab left right j 0 = Z.of_nat j.
Proof. by destruct j. Qed.

Lemma tab_bounds left right j i :
  0 <= tab left right j i <= Z.of_nat j + Z.of_nat i.
Proof.
  revert i. induction j as [|j IHj]; intros i; [simpl; lia|].
  induction i as [|i IHi]; [rewrite tab_0_r; lia|].
  rewrite tab_S_S. pose proof (IHj i). pose proof (IHj (S i)).
  case_bool_decide; lia.
Qed.

Lemma unl_row_cells left right n m k acc :
  (1 <= k <= m)%nat ->
  rows_done left right n m k acc ->
  rows_done left right n m (S k) (unl_row left right n acc k).
Proof.
  intros Hk. destruct acc as [[p d] M]. unfold rows_done. simpl.
  intros (Hwf & Hlp & Hld & Hp & Hrows & Hcol0).
  unfold unl_row.
  set (step := unl_cell left (charAt right (k - 1)) p k).
  pose proof (foldl_seq_ind
    (fun i acc =>
       wf_matrix n m acc.2
       /\ length acc.1 = (n + 1)%nat
       /\ (forall i', (i' < i)%nat -> get acc.1 i' = tab left right k i')
       /\ (forall j i', (j < k)%nat -> (i' <= n)%nat ->
             cell acc.2 (Z.of_nat j) (Z.of_nat i') = tab left right j i')
       /\ (forall i', (i' < i)%nat -> (i' <= n)%nat ->
             cell acc.2 (Z.of_nat k) (Z.of_nat i') = tab left right k i')
       /\ (forall j, (j <= m)%nat -> cell acc.2 (Z.of_nat j) 0 = Z.of_nat j))
    step (<[0%nat := Z.of_nat k]> d, M) 1 n) as Hinner.
  destruct Hinner as (Hwf' & Hld' & Hd' & Hrows' & Hrowk & Hcol0').
  { simpl. split; [done|]. split; [by rewrite length_insert|].
    split; [|split; [done|split; [|done]]].
    - intros i' Hi'. assert (i' = 0)%nat as -> by lia.
      unfold get. rewrite list_lookup_total_insert_eq by lia.
      by rewrite tab_0_r.
    - intros i' Hi' _. assert (i' = 0)%nat as -> by lia.
      rewrite tab_0_r. apply Hcol0. lia. }
  { intros i [d1 M1] Hi. simpl. intros (Hwf1 & Hld1 & Hd1 & Hrows1 & Hrowk1 & Hc1).
    set (v := Z.min (Z.min (get d1 (i - 1) + 1) (get p i + 1))
                    (get p (i - 1)
                     + (if bool_decide (charAt left (i - 1)
                                        = charAt right (k - 1))
                        then 0 else 1))).
    assert (v = tab left right k i) as Hv.
    { unfold v. destruct i as [|i']; [lia|]. destruct k as [|k']; [lia|].
      rewrite tab_S_S. simpl. rewrite !Nat.sub_0_r.
      rewrite Hd1 by lia. rewrite !Hp by lia.
      simpl. by rewrite !Nat.sub_0_r. }
    assert (get (<[i := v]> d1) i = v) as Hget.
    { unfold get. apply list_lookup_total_insert_eq. lia. }
    rewrite Hget.
    assert (0 <= v) as Hv0 by (rewrite Hv; apply tab_bounds).
    split; [by apply matrix_set_wf|].
    split; [by rewrite length_insert|].
    split; [|split; [|split]].
    - intros i' Hi'. destruct (decide (i' = i)) as [->|Hne].
      + by rewrite Hget.
      + unfold get. rewrite list_lookup_total_insert_ne by done.
        apply Hd1. lia.
    - intros j i' Hj Hi'. rewrite (cell_matrix_set_ne M1 k i j i'); [auto|].
      intros [= -> _]. lia.
    - intros i' Hi' Hi'n. destruct (decide (i' = i)) as [->|Hne].
      + rewrite (cell_matrix_set_eq n m M1 k i); [done|done|lia..].
      + rewrite (cell_matrix_set_ne M1 k i k i') by congruence.
        apply Hrowk1; lia.
    - intros j Hj. rewrite (cell_matrix_set_ne M1 k i j 0); [auto|].
      intros [= _ ->]. lia. }
  destruct (foldl step _ _) as [d' M']. simpl in *.
  split; [done|]. split; [done|]. split; [done|].
  split; [|split; [|done]].
  - intros i Hi. rewrite Nat.sub_0_r. apply Hd'. lia.
  - intros j i Hj Hi. destruct (decide (j = k)) as [->|Hne].
    + apply Hrowk; lia.
    + apply Hrows'; lia.
Qed.

Lemma iota_spec (a : list Z) (k : nat) :
  (k <= length a)%nat ->
  let p := foldl (fun p i => <[i := Z.of_nat i]> p) a (seq 0 k) in
  length p = length a
  /\ (forall i, (i < k)%nat -> get p i = Z.of_nat i)
  /\ (forall i, (k <= i)%nat -> get p i = get a i).
Proof.
  intros Hk.
  apply (foldl_seq_ind
    (fun k p => length p = length a
                /\ (forall i, (i < k)%nat -> get p i = Z.of_nat i)
                /\ (forall i, (k <= i)%nat -> get p i = get a i))
    (fun p i => <[i := Z.of_nat i]> p) a 0 k).
  - split; [done|]. split; [intros; lia|done].
  - intros i p Hi (Hl & Hlow & Hhigh). split; [by rewrite length_insert|].
    unfold get in *. split.
    + intros i' Hi'. destruct (decide (i' = i)) as [->|Hne].
      * apply list_lookup_total_insert_eq. lia.
      * rewrite list_lookup_total_insert_ne by done. apply Hlow. lia.
    + intros i' Hi'. rewrite list_lookup_total_insert_ne by lia.
      apply Hhigh. lia.
Qed.

Lemma unlimited_matrix_cells left right (j i : nat) :
  (j <= length right)%nat -> (i <= length left)%nat ->
  cell (unlimited_matrix left right) (Z.of_nat j) (Z.of_nat i)
  = tab left right j i.
Proof.
  intros Hj Hi. unfold unlimited_matrix.
  set (n := length left) in *. set (m := length right) in *.
  set (p0 := foldl _ (createArray (n + 1) 0) _).
  pose proof (foldl_seq_ind (rows_done left right n m)
                (unl_row left right n)
                (p0, createArray (n + 1) 0, init_matrix n m) 1 m) as Hrows.
  destruct Hrows as (_ & _ & _ & _ & Hcells & _).
  - destruct (iota_spec (createArray (n + 1) 0) (n + 1)) as (Hl & Hlow & _).
    { unfold createArray. rewrite length_replicate. lia. }
    unfold createArray in Hl. rewrite length_replicate in Hl.
    destruct (init_matrix_cells n m) as [Hrow0 Hcol0].
    unfold rows_done. simpl.
    split; [apply init_matrix_wf|]. split; [done|].
    split; [unfold createArray; by rewrite length_replicate|].
    split; [intros i' Hi'; apply Hlow; lia|].
    split; [|done].
    intros j' i' Hj' Hi'. assert (j' = 0)%nat as -> by lia. by apply Hrow0.
  - intros k acc Hk. apply unl_row_cells. lia.
  - apply Hcells; lia.
Qed.

Lemma tab_transpose a b j i : tab a b j i = tab b a i j.
Proof.
  revert i. induction j as [|j IHj]; intros i.
  - by rewrite tab_0_r.
  - induction i as [|i IHi]; [by rewrite tab_0_r|].
    rewrite !tab_S_S, IHi, !IHj.
    rewrite (Z.min_comm (tab b a (S i) j + 1)).
    do 2 f_equal. do 2 case_bool_decide; congruence.
Qed.

(** ** Two symmetries of the backtrace *)

(** The flag [swapped] only decides which of the two counters a
    directional move increments. *)
Lemma pure_step_exchange f ceq st :
  pure_step f ceq true (exchange st)
  = exchange_next (pure_step f ceq false st).
Proof.
  destruct st as [row col a d b]. unfold pure_step, exchange. simpl.
  repeat match goal with
         | |- context [if ?c then _ else _] => destruct c
         end; reflexivity.
Qed.

(** Exchanging rows and columns of the table exchanges the two
    directional moves.  The two tests can not hold together where the cost
    obeys the recurrence, so their order does not matter. *)
Lemma pure_step_mirror f1 f2 (ceq1 ceq2 : Z -> Z -> bool) st R C :
  (forall r c, 0 <= r <= R -> 0 <= c <= C -> f2 c r = f1 r c) ->
  (forall r c, ceq2 c r = ceq1 r c) ->
  (forall r c, 0 <= r <= R -> 0 <= c <= C -> 0 <= f1 r c) ->
  (forall r c, 0 < r <= R -> 0 < c <= C -> ceq1 r c = false ->
     f1 r c = Z.min (Z.min (f1 r (c - 1) + 1) (f1 (r - 1) c + 1))
                    (f1 (r - 1) (c - 1) + 1)) ->
  0 <= rowIndex st <= R -> 0 <= columnIndex st <= C ->
  pure_step f2 ceq2 false (mirror st)
  = mirror_next (pure_step f1 ceq1 false st).
Proof.
  intros Hf Hceq Hnn Hrec Hr Hc. destruct st as [row col a d b].
  simpl in Hr, Hc. unfold pure_step, mirror. simpl.
  rewrite Hceq. rewrite (Hf row col) by lia.
  pose proof (Hnn row col ltac:(lia) ltac:(lia)) as Hdata.
  pose proof MAX_VALUE_pos as HM.
  destruct (Z.eqb_spec col 0) as [Hc0|Hc0];
    destruct (Z.eqb_spec row 0) as [Hr0|Hr0];
    destruct (Z.gtb_spec row 0) as [Hr1|Hr1]; try lia;
    destruct (Z.gtb_spec col 0) as [Hc1|Hc1]; try lia;
    cbn [andb orb].
  - reflexivity.
  - (* first column of the table, first row of its mirror image *)
    rewrite (Hf (row - 1) col) by lia.
    pose proof (Hnn (row - 1) col ltac:(lia) ltac:(lia)) as Htop.
    replace (-1 =? -1) with true by reflexivity.
    destruct (Z.eqb_spec (f1 (row - 1) col) (-1)); [lia|].
    destruct (Z.leb_spec (f1 row col) (-1)); [lia|].
    cbn [andb orb]. rewrite !andb_false_r. reflexivity.
  - rewrite (Hf row (col - 1)) by lia.
    pose proof (Hnn row (col - 1) ltac:(lia) ltac:(lia)) as Hleft.
    replace (-1 =? -1) with true by reflexivity.
    destruct (Z.eqb_spec (f1 row (col - 1)) (-1)); [lia|].
    destruct (Z.leb_spec (f1 row col) (-1)); [lia|].
    cbn [andb orb]. rewrite !andb_false_r. reflexivity.
  - rewrite (Hf row (col - 1)), (Hf (row - 1) col), (Hf (row - 1) (col - 1))
      by lia.
    pose proof (Hnn row (col - 1) ltac:(lia) ltac:(lia)) as Hleft.
    pose proof (Hnn (row - 1) col ltac:(lia) ltac:(lia)) as Htop.
    pose proof (Hnn (row - 1) (col - 1) ltac:(lia) ltac:(lia)) as Hdiag.
    destruct (Z.eqb_spec (f1 row (col - 1)) (-1)); [lia|].
    destruct (Z.eqb_spec (f1 (row - 1) col) (-1)); [lia|].
    destruct (Z.eqb_spec (f1 (row - 1) (col - 1)) (-1)); [lia|].
    rewrite !orb_false_r. cbn [andb orb].
    destruct (ceq1 row col) eqn:Hceq1; [reflexivity|].
    pose proof (Hrec row col ltac:(lia) ltac:(lia) Hceq1) as Hcell.
    unfold JS.sub1.
    destruct (Z.eqb_spec (f1 row col) JS.MAX_VALUE) as [HMax|HMax];
      destruct (Z.eqb_spec JS.MAX_VALUE (f1 row (col - 1)));
      destruct (Z.eqb_spec JS.MAX_VALUE (f1 (row - 1) col));
      destruct (Z.eqb_spec (f1 row col - 1) (f1 row (col - 1)));
      destruct (Z.eqb_spec (f1 row col - 1) (f1 (row - 1) col));
      destruct (Z.leb_spec (f1 row col) (f1 (row - 1) (col - 1)));
      destruct (Z.leb_spec (f1 row col) (f1 (row - 1) col));
      destruct (Z.leb_spec (f1 row col) (f1 row (col - 1)));
      cbn [andb orb]; try reflexivity; lia.
Qed.

Lemma move_bounds ceq swapped st next R C :
  move ceq swapped st next ->
  0 <= rowIndex st <= R -> 0 <= columnIndex st <= C ->
  match next with
  | Break => True
  | Continue st' =>
      0 <= rowIndex st' <= R /\ 0 <= columnIndex st' <= C
      /\ rowIndex st' + columnIndex st' < rowIndex st + columnIndex st
  end.
Proof.
  intros Hmove Hr Hc. destruct Hmove; try destruct swapped; simpl; lia.
Qed.

Lemma bt_loop_exchange left right matrix fuel st :
  wf_matrix (length left) (length right) matrix ->
  0 <= rowIndex st <= Z.of_nat (length right) ->
  0 <= columnIndex st <= Z.of_nat (length left) ->
  rowIndex st + columnIndex st < Z.of_nat fuel ->
  exists st',
    bt_loop fuel left right matrix false st = Return st'
    /\ bt_loop fuel left right matrix true (exchange st)
       = Return (exchange st').
Proof.
  intros Hwf. revert st.
  induction fuel as [|fuel IH]; intros st Hr Hc Hfuel; [lia|].
  cbn [bt_loop].
  replace (rowIndex (exchange st)) with (rowIndex st) by by destruct st.
  replace (columnIndex (exchange st)) with (columnIndex st) by by destruct st.
  destruct (Z.geb_spec (rowIndex st) 0); [|lia].
  destruct (Z.geb_spec (columnIndex st) 0); [|lia].
  cbn [andb].
  rewrite (bt_body_pure _ _ _ _ _ _ st Hwf Hr Hc).
  rewrite (bt_body_pure _ _ _ _ _ _ (exchange st) Hwf)
    by (by destruct st).
  rewrite pure_step_exchange. cbn [JS.bind].
  pose proof (pure_step_move (cell matrix) (same_char left right) false st
                (Z.of_nat (length right)) (Z.of_nat (length left))
                (fun r c Hr' Hc' => proj2 (wf_read _ _ _ r c Hwf Hr' Hc'))
                Hr Hc) as Hmove.
  apply move_bounds with (R := Z.of_nat (length right))
                         (C := Z.of_nat (length left)) in Hmove; [|done..].
  destruct (pure_step _ _ false st) as [|st1]; simpl.
  - by exists st.
  - apply IH; lia.
Qed.

Lemma same_char_mirror a b r c : same_char b a c r = same_char a b r c.
Proof. unfold same_char. do 2 case_bool_decide; congruence. Qed.

Lemma cell_tab left right r c :
  0 <= r <= Z.of_nat (length right) -> 0 <= c <= Z.of_nat (length left) ->
  cell (unlimited_matrix left right) r c
  = tab left right (Z.to_nat r) (Z.to_nat c).
Proof.
  intros Hr Hc.
  rewrite <- (Z2Nat.id r) at 1 by lia. rewrite <- (Z2Nat.id c) at 1 by lia.
  apply unlimited_matrix_cells; lia.
Qed.

Lemma bt_loop_mirror a b fuel st :
  0 <= rowIndex st <= Z.of_nat (length b) ->
  0 <= columnIndex st <= Z.of_nat (length a) ->
  rowIndex st + columnIndex st < Z.of_nat fuel ->
  exists st',
    bt_loop fuel a b (unlimited_matrix a b) false st = Return st'
    /\ bt_loop fuel b a (unlimited_matrix b a) false (mirror st)
       = Return (mirror st').
Proof.
  revert st.
  induction fuel as [|fuel IH]; intros st Hr Hc Hfuel; [lia|].
  cbn [bt_loop].
  replace (rowIndex (mirror st)) with (columnIndex st) by by destruct st.
  replace (columnIndex (mirror st)) with (rowIndex st) by by destruct st.
  destruct (Z.geb_spec (rowIndex st) 0); [|lia].
  destruct (Z.geb_spec (columnIndex st) 0); [|lia].
  cbn [andb].
  pose proof (unlimited_matrix_wf a b) as Hwf1.
  pose proof (unlimited_matrix_wf b a) as Hwf2.
  rewrite (bt_body_pure _ _ _ _ _ _ st Hwf1 Hr Hc).
  rewrite (bt_body_pure _ _ _ _ _ _ (mirror st) Hwf2) by (by destruct st).
  rewrite (pure_step_mirror (cell (unlimited_matrix a b)) _
             (same_char a b) _ st
             (Z.of_nat (length b)) (Z.of_nat (length a))); try done.
  - cbn [JS.bind].
    pose proof (pure_step_move (cell (unlimited_matrix a b)) (same_char a b)
                  false st (Z.of_nat (length b)) (Z.of_nat (length a))
                  (fun r c Hr' Hc' => proj2 (wf_read _ _ _ r c Hwf1 Hr' Hc'))
                  Hr Hc) as Hmove.
    apply move_bounds with (R := Z.of_nat (length b))
                           (C := Z.of_nat (length a)) in Hmove; [|done..].
    destruct (pure_step _ _ false st) as [|st1]; simpl.
    + by exists st.
    + apply IH; lia.
  - intros r c Hr' Hc'. rewrite !cell_tab by lia. apply tab_transpose.
  - intros r c. apply same_char_mirror.
  - intros r c Hr' Hc'. by apply (wf_read _ _ _ r c Hwf1).
  - intros r c Hr' Hc' Hne. rewrite !cell_tab by lia.
    unfold same_char in Hne.
    replace (Z.to_nat r) with (S (Z.to_nat (r - 1))) by lia.
    replace (Z.to_nat c) with (S (Z.to_nat (c - 1))) by lia.
    rewrite tab_S_S, Hne. reflexivity.
Qed.

Lemma findDetailedResults_exchange left right matrix :
  wf_matrix (length left) (length right) matrix ->
  exists r1 r2,
    findDetailedResults left right matrix false = Return r1
    /\ findDetailedResults left right matrix true = Return r2
    /\ distance r1 = distance r2.
Proof.
  intros Hwf. unfold findDetailedResults.
  destruct (bt_loop_exchange left right matrix
              (length right + length left + 1)
              (mkBt (Z.of_nat (length right)) (Z.of_nat (length left)) 0 0 0)
              Hwf) as (st' & -> & Hx); [simpl; lia..|].
  unfold exchange in Hx at 1. simpl in Hx. rewrite Hx. simpl.
  eexists _, _. split; [done|]. split; [done|]. simpl. lia.
Qed.

Lemma findDetailedResults_mirror a b :
  exists r1 r2,
    findDetailedResults a b (unlimited_matrix a b) false = Return r1
    /\ findDetailedResults b a (unlimited_matrix b a) false = Return r2
    /\ distance r1 = distance r2.
Proof.
  unfold findDetailedResults.
  destruct (bt_loop_mirror a b (length b + length a + 1)
              (mkBt (Z.of_nat (length b)) (Z.of_nat (length a)) 0 0 0))
    as (st' & -> & Hx); [simpl; lia..|].
  unfold mirror in Hx at 1. simpl in Hx.
  rewrite (Nat.add_comm (length a) (length b)), Hx. simpl.
  eexists _, _. split; [done|]. split; [done|]. simpl. lia.
Qed.

(** C7: the distance reported by the unbounded mode does not depend on the
    order of the two strings: [unlimitedCompare(a, b)] and
    [unlimitedCompare(b, a)] both return, with the same [distance]. *)
Theorem unlimited_distance_symmetric (a b : jsstring) :
  exists r1 r2,
    unlimitedCompare (Some a) (Some b) = Return r1
    /\ unlimitedCompare (Some b) (Some a) = Return r2
    /\ distance r1 = distance r2.
Proof.
  unfold unlimitedCompare.
  destruct (Nat.eqb_spec (length a) 0) as [Ha|Ha];
    destruct (Nat.eqb_spec (length b) 0) as [Hb|Hb];
    try (eexists _, _; split; [done|]; split; [done|]; simpl; lia).
  unfold swap_operands.
  destruct (Nat.ltb_spec (length b) (length a)) as [Hlt|Hge];
    destruct (Nat.ltb_spec (length a) (length b)) as [Hlt'|Hge']; try lia.
  - (* a is the longer one: swapped in the first call only *)
    destruct (findDetailedResults_exchange b a (unlimited_matrix b a)
                (unlimited_matrix_wf b a)) as (r1 & r2 & H1 & H2 & Hd).
    exists r2, r1. by rewrite H1, H2.
  - (* b is the longer one: swapped in the second call only *)
    destruct (findDetailedResults_exchange a b (unlimited_matrix a b)
                (unlimited_matrix_wf a b)) as (r1 & r2 & H1 & H2 & Hd).
    exists r1, r2. by rewrite H1, H2.
  - (* equal lengths: no swap, the second table is the first one mirrored *)
    destruct (findDetailedResults_mirror a b) as (r1 & r2 & H1 & H2 & Hd).
    exists r1, r2. by rewrite H1, H2.
Qed.

(** ** What callers of the Levenshtein operations can rely on *)

(** C3: every result returned by [apply], [limitedCompare],
    [unlimitedCompare] or [findDetailedResults], whether it comes from a base
    case, from the backtrace or is the sentinel, has
    [distance = insertCount + deleteCount + substituteCount] whenever its
    [distance] is not negative. *)
Theorem results_counts_consistent (this : instance)
    (left right : option jsstring) (threshold : Z)
    (s t : jsstring) (matrix : matrix_t) (swapped : bool)
    (r : LevenshteinResults) :
  apply this left right = Return r
  \/ limitedCompare left right threshold = Return r
  \/ unlimitedCompare left right = Return r
  \/ findDetailedResults s t matrix swapped = Return r ->
  0 <= distance r ->
  distance r = insertCount r + deleteCount r + substituteCount r.
Proof.
  assert (forall l r', unlimitedCompare l r' = Return r ->
            distance r = insertCount r + deleteCount r + substituteCount r)
    as Hunl.
  { intros [l|] [r'|]; unfold unlimitedCompare; try done.
    destruct (length l =? 0)%nat; [intros [= <-]; simpl; lia|].
    destruct (length r' =? 0)%nat; [intros [= <-]; simpl; lia|].
    destruct (swap_operands l r') as [[s' t'] sw].
    apply findDetailedResults_total. }
  assert (forall l r' k, limitedCompare l r' k = Return r -> 0 <= distance r ->
            distance r = insertCount r + deleteCount r + substituteCount r)
    as Hlim.
  { intros [l|] [r'|] k; unfold limitedCompare; try done.
    destruct (k <? 0); [done|].
    destruct (length l =? 0)%nat.
    { destruct (_ <=? k); intros [= <-]; simpl; lia. }
    destruct (length r' =? 0)%nat.
    { destruct (_ <=? k); intros [= <-]; simpl; lia. }
    destruct (swap_operands l r') as [[s' t'] sw].
    destruct (limited_run s' t' k) as [[[p d] M]|];
      [|intros [= <-]; simpl; lia].
    destruct (_ <=? k); [|intros [= <-]; simpl; lia].
    intros Hr _. by apply findDetailedResults_total in Hr. }
  intros [H|[H|[H|H]]] Hd.
  - unfold apply in H.
    destruct (LevenshteinDetailedDistance.threshold this); eauto.
  - eauto.
  - eauto.
  - by apply findDetailedResults_total in H.
Qed.

Lemma results_counts_consistent_witness :
  distance (mkLevenshteinResults 7 0 3 4)
  = insertCount (mkLevenshteinResults 7 0 3 4)
    + deleteCount (mkLevenshteinResults 7 0 3 4)
    + substituteCount (mkLevenshteinResults 7 0 3 4).
Proof.
  apply (results_counts_consistent (mkInstance None)
           (Some (str "elephant")) (Some (str "hippo")) 7
           [] [] [] false (mkLevenshteinResults 7 0 3 4)).
  - right. left. vm_compute. reflexivity.
  - simpl. lia.
Defined.

(** C5: on strings both modes return, and a result that is not the sentinel
    counts the operations of a script that turns the caller's [left] into
    the caller's [right], whether or not the operands were swapped inside;
    in particular [insertCount - deleteCount = length right - length left]. *)
Theorem counts_describe_original_operands (left right : jsstring)
    (threshold : Z) :
  0 <= threshold ->
  (exists r,
     unlimitedCompare (Some left) (Some right) = Return r
     /\ 0 <= distance r
     /\ script left right (insertCount r) (deleteCount r) (substituteCount r)
     /\ insertCount r - deleteCount r
        = Z.of_nat (length right) - Z.of_nat (length left))
  /\ (exists r,
        limitedCompare (Some left) (Some right) threshold = Return r
        /\ (0 <= distance r ->
            script left right
              (insertCount r) (deleteCount r) (substituteCount r)
            /\ insertCount r - deleteCount r
               = Z.of_nat (length right) - Z.of_nat (length left))).
Proof.
  intros Hk. split.
  - destruct (unlimitedCompare_script left right) as (r & Hr & Hd & _ & Hs).
    exists r. split; [done|]. split; [done|]. split; [done|].
    apply script_lengths in Hs. lia.
  - destruct (limitedCompare_script left right threshold Hk)
      as (r & Hr & [->|(Hd & _ & Hs)]).
    + exists sentinel. split; [done|]. simpl. lia.
    + exists r. split; [done|]. intros _. split; [done|].
      apply script_lengths in Hs. lia.
Qed.

Lemma counts_describe_original_operands_witness :
  0 <= 7
  /\ exists r,
       limitedCompare (Some (str "elephant")) (Some (str "hippo")) 7 = Return r
       /\ (0 <= distance r ->
           script (str "elephant") (str "hippo")
             (insertCount r) (deleteCount r) (substituteCount r)
           /\ insertCount r - deleteCount r
              = Z.of_nat (length (str "hippo"))
                - Z.of_nat (length (str "elephant"))).
Proof.
  split; [lia|].
  apply (counts_describe_original_operands (str "elephant") (str "hippo") 7).
  lia.
Defined.


(** ** The reference distance *)

Lemma levenshtein_nil_r s : levenshtein s [] = Z.of_nat (length s).
Proof. by destruct s. Qed.

Lemma levenshtein_cons a s b t :
  levenshtein (a :: s) (b :: t)
  = Z.min (Z.min (levenshtein s (b :: t) + 1) (levenshtein (a :: s) t + 1))
          (levenshtein s t + (if bool_decide (a = b) then 0 else 1)).
Proof. reflexivity. Qed.

(** No script is cheaper than [levenshtein], and one script costs exactly
    that much: [levenshtein] is the edit distance of the glossary. *)
Lemma levenshtein_le_script s t i d b :
  script s t i d b -> levenshtein s t <= i + d + b.
Proof.
  induction 1 as [|c s t i d b _ IH|c s t i d b _ IH|c s t i d b _ IH
                 |c c' s t i d b Hne _ IH].
  - simpl. lia.
  - rewrite levenshtein_cons. rewrite bool_decide_eq_true_2 by done. lia.
  - destruct s as [|a s].
    + simpl in *. lia.
    + rewrite levenshtein_cons. lia.
  - destruct t as [|a t].
    + rewrite levenshtein_nil_r in *. simpl length. lia.
    + rewrite levenshtein_cons. lia.
  - rewrite levenshtein_cons. case_bool_decide; lia.
Qed.

Lemma levenshtein_script s t :
  exists i d b, script s t i d b /\ i + d + b = levenshtein s t.
Proof.
  revert t. induction s as [|a s IHs]; intros t.
  - induction t as [|c t (i & d & b & Hs & Hc)].
    + exists 0, 0, 0. split; [apply script_nil|done].
    + exists (i + 1), d, b. split; [by apply script_insert|].
      simpl in *. lia.
  - induction t as [|c t (i & d & b & Hs & Hc)].
    + destruct (IHs []) as (i & d & b & Hs & Hc).
      exists i, (d + 1), b. split; [by apply script_delete|].
      rewrite levenshtein_nil_r in *. simpl length. lia.
    + rewrite levenshtein_cons.
      destruct (IHs (c :: t)) as (i1 & d1 & b1 & Hs1 & Hc1).
      destruct (IHs t) as (i2 & d2 & b2 & Hs2 & Hc2).
      destruct (Z.min_spec (levenshtein s (c :: t) + 1)
                           (levenshtein (a :: s) t + 1)) as [[_ E1]|[_ E1]];
        rewrite E1;
        match goal with
        | |- context [Z.min ?x ?y] =>
            destruct (Z.min_spec x y) as [[_ E2]|[_ E2]]; rewrite E2
        end.
      * exists i1, (d1 + 1), b1. split; [by apply script_delete|lia].
      * case_bool_decide as Hac.
        -- subst c. exists i2, d2, b2. split; [by apply script_keep|lia].
        -- exists i2, d2, (b2 + 1). split; [by apply script_substitute|lia].
      * exists (i + 1), d, b. split; [by apply script_insert|lia].
      * case_bool_decide as Hac.
        -- subst c. exists i2, d2, b2. split; [by apply script_keep|lia].
        -- exists i2, d2, (b2 + 1). split; [by apply script_substitute|lia].
Qed.


(** ** The forward pass of the bounded mode *)

(** *** The recurrence computes the edit distance of the prefixes *)

Lemma script_reverse s t i d b :
  script s t i d b -> script (reverse s) (reverse t) i d b.
Proof.
  induction 1; rewrite ?reverse_cons.
  - apply script_nil.
  - by apply script_keep_r.
  - by apply script_insert_r.
  - by apply script_delete_r.
  - by apply script_substitute_r.
Qed.

Lemma levenshtein_reverse s t :
  levenshtein (reverse s) (reverse t) = levenshtein s t.
Proof.
  assert (forall s t, levenshtein (reverse s) (reverse t) <= levenshtein s t)
    as Hle.
  { clear. intros s t.
    destruct (levenshtein_script s t) as (i & d & b & Hs & <-).
    by apply levenshtein_le_script, script_reverse. }
  apply Z.le_antisymm; [apply Hle|].
  rewrite <- (reverse_involutive s), <- (reverse_involutive t) at 1.
  apply Hle.
Qed.

Lemma levenshtein_snoc s a t b :
  levenshtein (s ++ [a]) (t ++ [b])
  = Z.min (Z.min (levenshtein s (t ++ [b]) + 1) (levenshtein (s ++ [a]) t + 1))
          (levenshtein s t + (if bool_decide (a = b) then 0 else 1)).
Proof.
  rewrite <- (levenshtein_reverse (s ++ [a]) (t ++ [b])).
  rewrite <- (levenshtein_reverse s (t ++ [b])).
  rewrite <- (levenshtein_reverse (s ++ [a]) t).
  rewrite <- (levenshtein_reverse s t).
  rewrite !reverse_snoc. apply levenshtein_cons.
Qed.

Lemma tab_levenshtein left right (j i : nat) :
  (j <= length right)%nat -> (i <= length left)%nat ->
  tab left right j i = levenshtein (take i left) (take j right).
Proof.
  revert i. induction j as [|j IHj]; intros i Hj Hi.
  - rewrite take_0, levenshtein_nil_r, length_take_le by done. reflexivity.
  - induction i as [|i IHi].
    + rewrite tab_0_r, take_0. simpl levenshtein.
      by rewrite length_take_le.
    + destruct (lookup_lt_is_Some_2 left i) as [a Ha]; [lia|].
      destruct (lookup_lt_is_Some_2 right j) as [b Hb]; [lia|].
      rewrite tab_S_S, IHi, !IHj by lia.
      rewrite (take_S_r left i a Ha), (take_S_r right j b Hb).
      rewrite levenshtein_snoc. unfold charAt.
      do 2 f_equal. do 2 case_bool_decide; congruence.
Qed.

Lemma tab_full left right :
  tab left right (length right) (length left) = levenshtein left right.
Proof. by rewrite tab_levenshtein, !firstn_all. Qed.

Lemma levenshtein_sym s t : levenshtein s t = levenshtein t s.
Proof. by rewrite <- !tab_full, tab_transpose. Qed.

(** *** How the cost changes between neighbours *)

Lemma tab_far left right j i :
  Z.abs (Z.of_nat i - Z.of_nat j) <= tab left right j i.
Proof.
  revert i. induction j as [|j IHj]; intros i; [simpl; lia|].
  induction i as [|i IHi]; [rewrite tab_0_r; lia|].
  rewrite tab_S_S. pose proof (IHj i). pose proof (IHj (S i)).
  case_bool_decide; lia.
Qed.

Lemma tab_up left right j i :
  tab left right (S j) i <= tab left right j i + 1.
Proof.
  destruct i as [|i]; [rewrite !tab_0_r; lia|]. rewrite tab_S_S. lia.
Qed.

Lemma tab_right_lower left right j i :
  tab left right j i <= tab left right j (S i) + 1.
Proof.
  revert i. induction j as [|j IHj]; intros i; [simpl; lia|].
  rewrite tab_S_S. pose proof (tab_up left right j i). pose proof (IHj i).
  case_bool_decide; lia.
Qed.

Lemma tab_up_lower left right j i :
  tab left right j i <= tab left right (S j) i + 1.
Proof.
  rewrite (tab_transpose left right j), (tab_transpose left right (S j)).
  apply tab_right_lower.
Qed.

Lemma tab_diag_eq left right j i :
  charAt left i = charAt right j ->
  tab left right (S j) (S i) = tab left right j i.
Proof.
  intros Heq. rewrite tab_S_S, bool_decide_eq_true_2 by done.
  pose proof (tab_up_lower left right j i).
  pose proof (tab_right_lower left right j i). lia.
Qed.

Lemma tab_diag_ne left right j i :
  charAt left i <> charAt right j ->
  tab left right (S j) (S i)
  = 1 + Z.min (Z.min (tab left right (S j) i) (tab left right j (S i)))
              (tab left right j i).
Proof.
  intros Hne. rewrite tab_S_S, bool_decide_eq_false_2 by done. lia.
Qed.

(** *** The stripe *)

Lemma lim_value_good left right t j i (vl vt vd : Z) :
  Z.of_nat (S j) + Z.of_nat (S i) < JS.MAX_VALUE ->
  0 <= t ->
  in_stripe t (S j) (S i) ->
  good left right t j i vd ->
  good left right t j (S i) vt
  \/ (vt = JS.MAX_VALUE /\ Z.of_nat j + t < Z.of_nat (S i)) ->
  good left right t (S j) i vl
  \/ (vl = JS.MAX_VALUE /\ Z.of_nat i + t < Z.of_nat (S j)) ->
  good left right t (S j) (S i)
    (if bool_decide (charAt left i = charAt right j) then vd
     else JS.add1 (Z.min (Z.min vl vt) vd)).
Proof.
  unfold good, in_stripe. intros Hbound Ht Hin Hd Htop Hleft.
  pose proof (tab_bounds left right j i).
  pose proof (tab_bounds left right j (S i)).
  pose proof (tab_bounds left right (S j) i).
  pose proof (tab_bounds left right (S j) (S i)).
  pose proof (tab_far left right j (S i)).
  pose proof (tab_far left right (S j) i).
  case_bool_decide as Hc.
  - rewrite (tab_diag_eq _ _ _ _ Hc). lia.
  - rewrite (tab_diag_ne _ _ _ _ Hc). unfold JS.add1.
    destruct (Z.eqb_spec (Z.min (Z.min vl vt) vd) JS.MAX_VALUE);
      destruct Htop as [?|[? ?]]; destruct Hleft as [?|[? ?]]; lia.
Qed.

Lemma stripe_max_eq t n m j :
  0 <= t -> Z.of_nat n + Z.of_nat m < JS.MAX_VALUE -> (j <= m)%nat ->
  stripe_max t n j = Z.min (Z.of_nat n) (Z.of_nat j + t).
Proof.
  intros Ht Hbound Hj. unfold stripe_max.
  destruct (Z.gtb_spec (Z.of_nat j) (JS.MAX_VALUE - t)); lia.
Qed.

Lemma lim_row_stripe left right t j p d matrix :
  let n := length left in
  let lo := stripe_min t j in
  let hi := stripe_max t n j in
  0 <= t -> (1 <= n)%nat -> (1 <= j <= length right)%nat ->
  Z.of_nat n + Z.of_nat (length right) < JS.MAX_VALUE ->
  stripe_row left right t n (j - 1) p d ->
  lo <= hi ->
  stripe_row left right t n j
    (foldl (lim_cell left (charAt right (j - 1)) p j)
           (if lo >? 1
            then <[Z.to_nat (lo - 1) := JS.MAX_VALUE]>
                   (<[0%nat := Z.of_nat j]> d)
            else <[0%nat := Z.of_nat j]> d, matrix)
           (seq (Z.to_nat lo) (Z.to_nat (hi - lo + 1)))).1
    p.
Proof.
  intros n lo hi Ht Hn Hj Hbound (Hlp & Hld & Hp & Hpmax & Hdmax) Hlohi.
  assert (hi = Z.min (Z.of_nat n) (Z.of_nat j + t)) as Hhi
    by (apply (stripe_max_eq t n (length right)); [done|done|lia]).
  assert (lo = Z.max 1 (Z.of_nat j - t)) as Hlo by reflexivity.
  clearbody lo hi.
  set (d2 := if lo >? 1 then _ else _).
  assert (length d2 = (n + 1)%nat) as Hld2.
  { unfold d2. destruct (lo >? 1); by rewrite ?length_insert. }
  assert (lo = 1 -> get d2 0 = Z.of_nat j) as Hd20.
  { intros ->. unfold d2. simpl. unfold get.
    apply list_lookup_total_insert_eq. lia. }
  assert (1 < lo -> get d2 (Z.to_nat (lo - 1)) = JS.MAX_VALUE) as Hd2lo.
  { intros Hgt. unfold d2. destruct (Z.gtb_spec lo 1); [|lia].
    unfold get. apply list_lookup_total_insert_eq.
    rewrite length_insert. lia. }
  assert (forall i, (i <= n)%nat -> Z.of_nat j + t < Z.of_nat i ->
                    get d2 i = JS.MAX_VALUE) as Hd2max.
  { intros i Hi Hfar. unfold d2, get.
    destruct (Z.gtb_spec lo 1);
      rewrite ?(list_lookup_total_insert_ne _ (Z.to_nat (lo - 1))) by lia;
      rewrite list_lookup_total_insert_ne by lia; apply Hdmax; lia. }
  clearbody d2.
  pose proof (foldl_seq_ind
    (fun k (acc : list Z * matrix_t) =>
       length acc.1 = (n + 1)%nat
       /\ (forall i, (Z.to_nat lo <= i < k)%nat ->
                     good left right t j i (get acc.1 i))
       /\ (lo = 1 -> get acc.1 0 = Z.of_nat j)
       /\ (1 < lo -> get acc.1 (Z.to_nat (lo - 1)) = JS.MAX_VALUE)
       /\ (forall i, (i <= n)%nat -> Z.of_nat j + t < Z.of_nat i ->
                     get acc.1 i = JS.MAX_VALUE))
    (lim_cell left (charAt right (j - 1)) p j) (d2, matrix)
    (Z.to_nat lo) (Z.to_nat (hi - lo + 1))) as Hloop.
  destruct Hloop as (Hl' & Hgood & H0 & _ & Hmax).
  { simpl. split; [done|]. split; [intros; lia|]. done. }
  { intros k [dk Mk] Hk. simpl. intros (Hlk & Hgk & H0k & Hlok & Hmaxk).
    unfold lim_cell.
    set (v := if bool_decide (charAt left (k - 1) = charAt right (j - 1))
              then get p (k - 1)
              else JS.add1 (Z.min (Z.min (get dk (k - 1)) (get p k))
                                  (get p (k - 1)))).
    assert (good left right t j k v) as Hv.
    { unfold v. destruct k as [|i]; [lia|]. destruct j as [|j']; [lia|].
      replace (S i - 1)%nat with i by lia.
      replace (S j' - 1)%nat with j' in * by lia.
      apply lim_value_good.
      - lia.
      - done.
      - unfold in_stripe. lia.
      - apply Hp; [lia|]. unfold in_stripe. lia.
      - destruct (Z_le_gt_dec (Z.of_nat (S i)) (Z.of_nat j' + t)).
        + left. apply Hp; [lia|]. unfold in_stripe. lia.
        + right. split; [|lia]. apply Hpmax; lia.
      - destruct (decide (S i = Z.to_nat lo)) as [Hfirst|Hlater].
        + destruct (Z_le_gt_dec lo 1).
          * left. assert (lo = 1) as Hlo1 by lia.
            assert (i = 0)%nat as -> by lia.
            rewrite (H0k Hlo1). unfold good. rewrite tab_0_r. lia.
          * right. replace i with (Z.to_nat (lo - 1)) by lia.
            split; [apply Hlok; lia|lia].
        + left. apply Hgk. lia. }
    assert (get (if bool_decide (charAt left (k - 1) = charAt right (j - 1))
                 then <[k := get p (k - 1)]> dk
                 else <[k := JS.add1 (Z.min (Z.min (get dk (k - 1)) (get p k))
                                            (get p (k - 1)))]> dk) k = v)
      as Hgetk.
    { unfold v, get.
      case_bool_decide; apply list_lookup_total_insert_eq; lia. }
    assert (forall i, i <> k ->
              get (if bool_decide (charAt left (k - 1) = charAt right (j - 1))
                   then <[k := get p (k - 1)]> dk
                   else <[k := JS.add1 (Z.min (Z.min (get dk (k - 1)) (get p k))
                                              (get p (k - 1)))]> dk) i
              = get dk i) as Hgeti.
    { intros i Hne. unfold get.
      case_bool_decide; by apply list_lookup_total_insert_ne. }
    simpl. split; [case_bool_decide; by rewrite length_insert|].
    split; [|split; [|split]].
    - intros i Hi. destruct (decide (i = k)) as [->|Hne].
      + by rewrite Hgetk.
      + rewrite Hgeti by done. apply Hgk. lia.
    - intros Hlo1. rewrite Hgeti by lia. by apply H0k.
    - intros Hlo1. rewrite Hgeti by lia. by apply Hlok.
    - intros i Hi Hfar. rewrite Hgeti by lia. by apply Hmaxk. }
  unfold stripe_row. split; [done|]. split; [done|].
  split; [|split].
  - intros i Hi Hin. unfold in_stripe in Hin.
    destruct i as [|i].
    + rewrite H0 by lia. unfold good. rewrite tab_0_r. lia.
    + apply Hgood. lia.
  - intros i Hi Hfar. by apply Hmax.
  - intros i Hi Hfar. apply Hpmax; lia.
Qed.

Lemma lim_rows_stripe left right t len :
  let n := length left in
  forall j0 p d matrix,
    0 <= t -> (1 <= n)%nat -> (1 <= j0)%nat ->
    (j0 + len <= length right + 1)%nat ->
    Z.of_nat n + Z.of_nat (length right) < JS.MAX_VALUE ->
    stripe_row left right t n (j0 - 1) p d ->
    match lim_rows left right t n (seq j0 len) p d matrix with
    | Some (p', d', _) =>
        stripe_row left right t n (j0 + len - 1) p' d'
        /\ ((1 <= len)%nat ->
            stripe_min t (j0 + len - 1) <= stripe_max t n (j0 + len - 1))
    | None =>
        exists j, (j0 <= j < j0 + len)%nat
                  /\ stripe_max t n j < stripe_min t j
    end.
Proof.
  intros n. induction len as [|len IH];
    intros j0 p d matrix Ht Hn Hj0 Hlen Hbound Hrow.
  - simpl. rewrite Nat.add_0_r. split; [done|lia].
  - cbn [seq lim_rows].
    destruct (Z.gtb_spec (stripe_min t j0) (stripe_max t n j0)) as [Hexit|Hok].
    { exists j0. split; lia. }
    pose proof (lim_row_stripe left right t j0 p d matrix Ht Hn
                  ltac:(lia) Hbound Hrow Hok) as Hnext.
    fold n in Hnext.
    destruct (foldl _ _ _) as [d' matrix'] eqn:E. simpl in Hnext.
    specialize (IH (S j0) d' p matrix' Ht Hn ltac:(lia) ltac:(lia) Hbound).
    replace (S j0 - 1)%nat with j0 in IH by lia.
    specialize (IH Hnext).
    destruct (lim_rows _ _ _ _ _ _ _ _) as [[[p'' d''] matrix'']|].
    + replace (j0 + S len - 1)%nat with (S j0 + len - 1)%nat by lia.
      destruct IH as [IH1 IH2]. split; [done|]. intros _.
      destruct len as [|len'].
      * replace (S j0 + 0 - 1)%nat with j0 by lia. done.
      * apply IH2. lia.
    + destruct IH as (j & Hj & Hexit). exists j. split; [lia|done].
Qed.

Lemma fill_spec (a : list Z) (start : nat) :
  let b := JS.fill JS.MAX_VALUE start (length a) a in
  length b = length a
  /\ (forall i, (start <= i < length a)%nat -> get b i = JS.MAX_VALUE)
  /\ (forall i, (i < start)%nat -> get b i = get a i).
Proof.
  unfold JS.fill.
  pose proof (foldl_seq_ind
    (fun k b => length b = length a
                /\ (forall i, (start <= i < k)%nat -> (i < length a)%nat ->
                              get b i = JS.MAX_VALUE)
                /\ (forall i, (i < start)%nat -> get b i = get a i))
    (fun a0 k => <[k := JS.MAX_VALUE]> a0) a start
    (length a - start)) as H.
  destruct H as (H1 & H2 & H3).
  - split; [done|]. split; [intros; lia|done].
  - intros k b Hk (Hb1 & Hb2 & Hb3). split; [by rewrite length_insert|].
    unfold get in *. split.
    + intros i Hi Hia. destruct (decide (i = k)) as [->|Hne].
      * apply list_lookup_total_insert_eq. lia.
      * rewrite list_lookup_total_insert_ne by done. apply Hb2; lia.
    + intros i Hi. rewrite list_lookup_total_insert_ne by lia.
      by apply Hb3.
  - split; [done|]. split; [|done]. intros i Hi. apply H2; lia.
Qed.

Lemma limited_run_decides left right t :
  0 <= t -> (1 <= length left <= length right)%nat ->
  Z.of_nat (length left) + Z.of_nat (length right) < JS.MAX_VALUE ->
  match limited_run left right t with
  | Some (p, _, _) =>
      get p (length left) <= t <-> levenshtein left right <= t
  | None => t < levenshtein left right
  end.
Proof.
  intros Ht Hlen Hbound. unfold limited_run.
  set (n := length left) in *. set (m := length right) in *.
  set (boundary := Z.to_nat (Z.min (Z.of_nat n) t + 1)).
  destruct (iota_spec (createArray (n + 1) 0) boundary)
    as (Hl & Hlow & Hhigh).
  { unfold createArray. rewrite length_replicate. unfold boundary. lia. }
  set (p1 := foldl _ (createArray (n + 1) 0) (seq 0 boundary)) in *.
  destruct (fill_spec p1 boundary) as (Hp1 & Hp2 & Hp3).
  destruct (fill_spec (createArray (n + 1) 0) 0%nat) as (Hd1 & Hd2 & _).
  set (p0 := JS.fill _ boundary _ p1) in *.
  set (d0 := JS.fill _ 0%nat _ _) in *.
  unfold createArray in Hl, Hd1, Hd2. rewrite length_replicate in Hl, Hd1, Hd2.
  assert (stripe_row left right t n 0 p0 d0) as Hrow0.
  { unfold stripe_row. split; [lia|]. split; [done|]. split; [|split].
    - intros i Hi Hin. unfold in_stripe in Hin.
      rewrite Hp3, Hlow by (unfold boundary; lia).
      unfold good. simpl. lia.
    - intros i Hi Hfar. apply Hp2. unfold boundary. lia.
    - intros i Hi Hfar. apply Hd2. lia. }
  clearbody p0 d0.
  pose proof (lim_rows_stripe left right t m 1 p0 d0 (init_matrix n m)
                Ht ltac:(lia) ltac:(lia) ltac:(lia) Hbound Hrow0) as Hrun.
  fold n in Hrun.
  destruct (lim_rows _ _ _ _ _ _ _ _) as [[[p d] matrix]|].
  - destruct Hrun as [(_ & _ & Hgood & _) Hlast].
    replace (1 + m - 1)%nat with m in * by lia.
    specialize (Hlast ltac:(lia)).
    rewrite (stripe_max_eq t n m m Ht Hbound) in Hlast by lia.
    unfold stripe_min in Hlast.
    destruct (Hgood n ltac:(lia)) as [Hge Heq].
    { unfold in_stripe. lia. }
    subst n m. rewrite tab_full in Hge, Heq. split; [lia|].
    intros Hle. rewrite (Heq Hle). done.
  - destruct Hrun as (j & Hj & Hexit).
    rewrite (stripe_max_eq t n m j Ht Hbound) in Hexit by lia.
    unfold stripe_min in Hexit.
    rewrite <- tab_full. pose proof (tab_far left right m n). subst n m. lia.
Qed.

Lemma limitedCompare_decides (left right : jsstring) (threshold : Z) :
  0 <= threshold ->
  Z.of_nat (length left) + Z.of_nat (length right) < JS.MAX_VALUE ->
  exists r,
    limitedCompare (Some left) (Some right) threshold = Return r
    /\ (r = sentinel <-> threshold < levenshtein left right)
    /\ (r <> sentinel -> levenshtein left right <= distance r).
Proof.
  intros Hk Hbound.
  assert (forall r, 0 <= distance r -> r <> sentinel) as Hns.
  { intros r Hd ->. simpl in Hd. lia. }
  assert (forall s t matrix swapped,
            wf_matrix (length s) (length t) matrix ->
            levenshtein s t <= threshold ->
            exists r,
              findDetailedResults s t matrix swapped = Return r
              /\ (r = sentinel <-> threshold < levenshtein s t)
              /\ (r <> sentinel -> levenshtein s t <= distance r)) as Hfd.
  { intros s t matrix swapped Hwf Hle.
    destruct (findDetailedResults_script s t matrix swapped Hwf)
      as (r & Hr & Hd & Hs).
    exists r. split; [done|]. split.
    - split; [intros ->; simpl in Hd; lia|lia].
    - intros _. rewrite (findDetailedResults_total _ _ _ _ _ Hr).
      apply levenshtein_le_script in Hs.
      destruct swapped; [by rewrite levenshtein_sym|done]. }
  unfold limitedCompare.
  destruct (Z.ltb_spec threshold 0); [lia|].
  destruct (Nat.eqb_spec (length left) 0) as [Hn|Hn].
  { apply nil_length_inv in Hn as ->. simpl levenshtein.
    eexists. split; [done|].
    destruct (Z.leb_spec (Z.of_nat (length right)) threshold).
    - split; [split; [intros [=]; lia|lia]|]. simpl. lia.
    - split; [done|]. by intros []. }
  destruct (Nat.eqb_spec (length right) 0) as [Hm|Hm].
  { apply nil_length_inv in Hm as ->. rewrite levenshtein_nil_r.
    eexists. split; [done|].
    destruct (Z.leb_spec (Z.of_nat (length left)) threshold).
    - split; [split; [intros [=]; lia|lia]|]. simpl. lia.
    - split; [done|]. by intros []. }
  destruct (swap_operands_cases left right) as [[-> Hlen]|[-> Hlen]].
  - pose proof (limited_run_decides right left threshold Hk
                  ltac:(lia) ltac:(lia)) as Hrun.
    rewrite (levenshtein_sym left right).
    destruct (limited_run right left threshold) as [[[p d] matrix]|] eqn:E.
    + destruct (Z.leb_spec (get p (length right)) threshold).
      * apply Hfd; [by eapply limited_run_wf|]. by apply Hrun.
      * exists sentinel. split; [done|]. split; [|done]. split; [lia|done].
    + exists sentinel. split; [done|]. split; [|done]. done.
  - pose proof (limited_run_decides left right threshold Hk
                  ltac:(lia) ltac:(lia)) as Hrun.
    destruct (limited_run left right threshold) as [[[p d] matrix]|] eqn:E.
    + destruct (Z.leb_spec (get p (length left)) threshold).
      * apply Hfd; [by eapply limited_run_wf|]. by apply Hrun.
      * exists sentinel. split; [done|]. split; [|done]. split; [lia|done].
    + exists sentinel. split; [done|]. split; [|done]. done.
Qed.

(** X1: the sentinel of the bounded mode is exact for a threshold that is
    an integer and not negative: [limitedCompare] returns it when, and only
    when, the edit distance exceeds the threshold; any other result carries
    a distance that is at least the edit distance.  (A threshold with a
    fraction, which the source does not refuse, is outside the model of
    [limitedCompare] and outside this property.) *)
Theorem limited_sentinel_exact (left right : jsstring) (threshold : Z) :
  0 <= threshold ->
  Z.of_nat (length left) + Z.of_nat (length right) < JS.MAX_VALUE ->
  exists r,
    limitedCompare (Some left) (Some right) threshold = Return r
    /\ (r = sentinel <-> threshold < levenshtein left right)
    /\ (r <> sentinel -> levenshtein left right <= distance r).
Proof. apply limitedCompare_decides. Qed.

Lemma limited_sentinel_exact_witness :
  exists r,
    limitedCompare (Some (str "elephant")) (Some (str "hippo")) 6 = Return r
    /\ (r = sentinel <-> 6 < levenshtein (str "elephant") (str "hippo"))
    /\ (r <> sentinel
        -> levenshtein (str "elephant") (str "hippo") <= distance r).
Proof.
  apply (limited_sentinel_exact (str "elephant") (str "hippo") 6).
  - lia.
  - vm_compute. reflexivity.
Defined.

(** X2: what remains of the monotonicity in the threshold, for thresholds
    that are integers and not negative: an integer threshold that is not
    below a distance the bounded mode has returned never gives the
    sentinel, and an integer threshold below the edit distance always
    does. *)
Theorem limited_sentinel_monotone (left right : jsstring) (k k' : Z)
    (r : LevenshteinResults) :
  0 <= k -> 0 <= k' ->
  Z.of_nat (length left) + Z.of_nat (length right) < JS.MAX_VALUE ->
  limitedCompare (Some left) (Some right) k = Return r ->
  r <> sentinel ->
  exists r',
    limitedCompare (Some left) (Some right) k' = Return r'
    /\ (distance r <= k' -> r' <> sentinel)
    /\ (k' < levenshtein left right -> r' = sentinel).
Proof.
  intros Hk Hk' Hbound Hr Hns.
  destruct (limitedCompare_decides left right k Hk Hbound)
    as (r0 & Hr0 & _ & Hupper).
  rewrite Hr in Hr0. injection Hr0 as <-.
  destruct (limitedCompare_decides left right k' Hk' Hbound)
    as (r' & Hr' & Hiff & _).
  exists r'. split; [done|]. split.
  - intros Hle Hs. apply Hiff in Hs. specialize (Hupper Hns). lia.
  - apply Hiff.
Qed.

Lemma limited_sentinel_monotone_witness :
  exists r',
    limitedCompare (Some (str "aa")) (Some (str "aab")) 2 = Return r'
    /\ (distance (mkLevenshteinResults 2 1 0 1) <= 2 -> r' <> sentinel)
    /\ (2 < levenshtein (str "aa") (str "aab") -> r' = sentinel).
Proof.
  apply (limited_sentinel_monotone (str "aa") (str "aab") 1 2
           (mkLevenshteinResults 2 1 0 1)).
  - lia.
  - lia.
  - vm_compute. reflexivity.
  - vm_compute. reflexivity.
  - discriminate.
Defined.

(** X3: the forward pass of the unbounded mode is right: the last cell of its
    table is the edit distance, and the distance that is returned is not
    below it. *)
Theorem unlimited_last_cell (left right : jsstring) :
  (length left <= length right)%nat ->
  cell (unlimited_matrix left right)
       (Z.of_nat (length right)) (Z.of_nat (length left))
  = levenshtein left right
  /\ exists r,
       unlimitedCompare (Some left) (Some right) = Return r
       /\ levenshtein left right <= distance r.
Proof.
  intros Hlen. split.
  - rewrite unlimited_matrix_cells by lia. apply tab_full.
  - destruct (unlimitedCompare_script left right) as (r & Hr & _ & Hd & Hs).
    exists r. split; [done|]. rewrite Hd. by apply levenshtein_le_script.
Qed.

Lemma unlimited_last_cell_witness :
  cell (unlimited_matrix (str "hippo") (str "elephant"))
       (Z.of_nat (length (str "elephant"))) (Z.of_nat (length (str "hippo")))
  = levenshtein (str "hippo") (str "elephant")
  /\ exists r,
       unlimitedCompare (Some (str "hippo")) (Some (str "elephant")) = Return r
       /\ levenshtein (str "hippo") (str "elephant") <= distance r.
Proof.
  apply (unlimited_last_cell (str "hippo") (str "elephant")).
  simpl. lia.
Defined.

(** ** Further properties of the two modes and of the backtrace *)

Lemma script_counts s t i d b :
  script s t i d b ->
  i + b <= Z.of_nat (length t) /\ d + b <= Z.of_nat (length s).
Proof.
  induction 1; simpl length; lia.
Qed.

Lemma script_zero s t i d b :
  script s t i d b -> i + d + b = 0 -> s = t.
Proof.
  induction 1 as [|c s t i d b Hs IH|c s t i d b Hs IH|c s t i d b Hs IH
                  |c c' s t i d b Hne Hs IH]; intros Hz.
  - done.
  - f_equal. by apply IH.
  - apply script_lengths in Hs. lia.
  - apply script_lengths in Hs. lia.
  - apply script_lengths in Hs. lia.
Qed.

(** The iteration at a cell off the borders whose two characters are
    equal: the diagonal move, with no counter changed. *)
Lemma pure_step_keep f ceq swapped st :
  0 < rowIndex st -> 0 < columnIndex st ->
  f (rowIndex st) (columnIndex st - 1) <> -1 ->
  ceq (rowIndex st) (columnIndex st) = true ->
  pure_step f ceq swapped st
  = Continue (mkBt (rowIndex st - 1) (columnIndex st - 1)
                   (addCount st) (delCount st) (subCount st)).
Proof.
  intros Hr Hc Hleft Hceq. unfold pure_step.
  destruct (Z.eqb_spec (columnIndex st) 0); [lia|].
  destruct (Z.eqb_spec (f (rowIndex st) (columnIndex st - 1)) (-1)); [done|].
  cbn [andb].
  destruct (Z.gtb_spec (columnIndex st) 0); [|lia].
  destruct (Z.gtb_spec (rowIndex st) 0); [|lia].
  by rewrite Hceq.
Qed.

Lemma bt_loop_diagonal s matrix swapped fuel st :
  wf_matrix (length s) (length s) matrix ->
  0 <= rowIndex st <= Z.of_nat (length s) ->
  columnIndex st = rowIndex st ->
  2 * rowIndex st < Z.of_nat fuel ->
  bt_loop fuel s s matrix swapped st
  = Return (mkBt 0 0 (addCount st) (delCount st) (subCount st)).
Proof.
  intros Hwf. revert st.
  induction fuel as [|fuel IH]; intros st Hr Hc Hfuel; [lia|].
  cbn [bt_loop].
  destruct (Z.geb_spec (rowIndex st) 0); [|lia].
  destruct (Z.geb_spec (columnIndex st) 0); [|lia].
  cbn [andb].
  rewrite (bt_body_pure _ _ _ _ _ _ st Hwf) by lia. cbn [JS.bind].
  destruct (Z.eq_dec (rowIndex st) 0) as [Hz|Hz].
  - destruct st as [row col a d b]. simpl in *. subst. reflexivity.
  - rewrite pure_step_keep; try lia.
    + rewrite IH; [done|simpl; lia..].
    + pose proof (proj2 (wf_read _ _ _ (rowIndex st) (columnIndex st - 1)
                           Hwf ltac:(lia) ltac:(lia))). lia.
    + unfold same_char. rewrite Hc. by apply bool_decide_eq_true.
Qed.

Lemma findDetailedResults_same s matrix swapped :
  wf_matrix (length s) (length s) matrix ->
  findDetailedResults s s matrix swapped
  = Return (mkLevenshteinResults 0 0 0 0).
Proof.
  intros Hwf. unfold findDetailedResults.
  rewrite (bt_loop_diagonal s matrix swapped) by (done || simpl; lia).
  reflexivity.
Qed.

Lemma script_refl s : script s s 0 0 0.
Proof. induction s; [apply script_nil|by apply script_keep]. Qed.

Lemma levenshtein_nonneg s t : 0 <= levenshtein s t.
Proof.
  destruct (levenshtein_script s t) as (i & d & b & Hs & <-).
  apply script_lengths in Hs. lia.
Qed.

Lemma levenshtein_refl s : levenshtein s s = 0.
Proof.
  pose proof (levenshtein_le_script _ _ _ _ _ (script_refl s)).
  pose proof (levenshtein_nonneg s s). lia.
Qed.

(** X4: a string compared with itself gives the result with all four numbers
    0, in the unbounded mode and in the bounded mode with any threshold
    that is an integer and not negative: the backtrace takes the diagonal
    at every cell, whatever the table holds. *)
Theorem identical_strings_give_zero (s : jsstring) (threshold : Z) :
  0 <= threshold ->
  Z.of_nat (length s) + Z.of_nat (length s) < JS.MAX_VALUE ->
  unlimitedCompare (Some s) (Some s)
  = Return (mkLevenshteinResults 0 0 0 0)
  /\ limitedCompare (Some s) (Some s) threshold
     = Return (mkLevenshteinResults 0 0 0 0).
Proof.
  intros Hk Hbound. split.
  - unfold unlimitedCompare.
    destruct (Nat.eqb_spec (length s) 0) as [->|Hn]; [done|].
    destruct (swap_operands_cases s s) as [[_ ?]|[-> _]]; [lia|].
    apply findDetailedResults_same, unlimited_matrix_wf.
  - unfold limitedCompare.
    destruct (Z.ltb_spec threshold 0); [lia|].
    destruct (Nat.eqb_spec (length s) 0) as [->|Hn].
    { by destruct (Z.leb_spec (Z.of_nat 0) threshold); [|lia]. }
    destruct (swap_operands_cases s s) as [[_ ?]|[-> _]]; [lia|].
    pose proof (limited_run_decides s s threshold Hk
                  ltac:(lia) Hbound) as Hrun.
    rewrite levenshtein_refl in Hrun.
    destruct (limited_run s s threshold) as [[[p d] matrix]|] eqn:E.
    + destruct (Z.leb_spec (get p (length s)) threshold) as [Hle|Hgt].
      * apply findDetailedResults_same. by eapply limited_run_wf.
      * exfalso. destruct Hrun as [_ Hrun]. specialize (Hrun Hk). lia.
    + exfalso. lia.
Qed.

Lemma identical_strings_give_zero_witness :
  unlimitedCompare (Some (str "hippo")) (Some (str "hippo"))
  = Return (mkLevenshteinResults 0 0 0 0)
  /\ limitedCompare (Some (str "hippo")) (Some (str "hippo")) 0
     = Return (mkLevenshteinResults 0 0 0 0).
Proof.
  apply (identical_strings_give_zero (str "hippo") 0).
  - lia.
  - vm_compute. reflexivity.
Defined.

(** X5: the unbounded mode reports distance 0 for equal strings only, and a
    result of the bounded mode with distance 0 says the same: a result with
    no insertion, deletion or substitution is a script that keeps every
    character. *)
Theorem zero_distance_iff_equal (left right : jsstring) (threshold : Z)
    (r : LevenshteinResults) :
  (unlimitedCompare (Some left) (Some right) = Return r ->
   (distance r = 0 <-> left = right))
  /\ (0 <= threshold ->
      limitedCompare (Some left) (Some right) threshold = Return r ->
      distance r = 0 -> left = right).
Proof.
  split.
  - intros Hr.
    destruct (unlimitedCompare_script left right) as (r' & Hr' & _ & Hd & Hs).
    rewrite Hr in Hr'. injection Hr' as <-. split.
    + intros Hz. eapply script_zero; [done|lia].
    + intros <-. revert Hr. unfold unlimitedCompare.
      destruct (Nat.eqb_spec (length left) 0) as [->|Hn];
        [by intros [= <-]|].
      destruct (swap_operands_cases left left) as [[_ ?]|[-> _]]; [lia|].
      rewrite findDetailedResults_same by apply unlimited_matrix_wf.
      by intros [= <-].
  - intros Hk Hr Hz.
    destruct (limitedCompare_script left right threshold Hk)
      as (r' & Hr' & Hcases).
    rewrite Hr in Hr'. injection Hr' as <-.
    destruct Hcases as [->|(_ & Hd & Hs)]; [done|].
    eapply script_zero; [done|lia].
Qed.

Lemma zero_distance_iff_equal_witness :
  (distance (mkLevenshteinResults 1 0 1 0) = 0 <-> str "frog" = str "fog")
  /\ (distance (mkLevenshteinResults 0 0 0 0) = 0 -> str "fog" = str "fog").
Proof.
  split.
  - apply (zero_distance_iff_equal (str "frog") (str "fog") 3
             (mkLevenshteinResults 1 0 1 0)).
    vm_compute. reflexivity.
  - apply (zero_distance_iff_equal (str "fog") (str "fog") 3
             (mkLevenshteinResults 0 0 0 0)).
    + lia.
    + vm_compute. reflexivity.
Defined.

(** X6: the counts of a result fit the two strings: insertions and
    substitutions produce distinct characters of [right], deletions and
    substitutions consume distinct characters of [left], so the distance
    lies between the difference and the sum of the two lengths. *)
Theorem counts_fit_lengths (left right : jsstring) (threshold : Z)
    (r : LevenshteinResults) :
  0 <= threshold ->
  unlimitedCompare (Some left) (Some right) = Return r
  \/ (limitedCompare (Some left) (Some right) threshold = Return r
      /\ r <> sentinel) ->
  0 <= insertCount r /\ 0 <= deleteCount r /\ 0 <= substituteCount r
  /\ insertCount r + substituteCount r <= Z.of_nat (length right)
  /\ deleteCount r + substituteCount r <= Z.of_nat (length left)
  /\ Z.abs (Z.of_nat (length right) - Z.of_nat (length left)) <= distance r
  /\ distance r <= Z.of_nat (length left) + Z.of_nat (length right).
Proof.
  intros Hk Hr.
  assert (distance r = insertCount r + deleteCount r + substituteCount r
          /\ script left right
               (insertCount r) (deleteCount r) (substituteCount r))
    as [Hd Hs].
  { destruct Hr as [Hr|[Hr Hns]].
    - destruct (unlimitedCompare_script left right)
        as (r' & Hr' & _ & Hd & Hs).
      rewrite Hr in Hr'. by injection Hr' as <-.
    - destruct (limitedCompare_script left right threshold Hk)
        as (r' & Hr' & Hcases).
      rewrite Hr in Hr'. injection Hr' as <-.
      by destruct Hcases as [->|(_ & Hd & Hs)]. }
  pose proof (script_lengths _ _ _ _ _ Hs).
  pose proof (script_counts _ _ _ _ _ Hs). lia.
Qed.

Lemma counts_fit_lengths_witness :
  0 <= insertCount (mkLevenshteinResults 7 0 3 4)
  /\ 0 <= deleteCount (mkLevenshteinResults 7 0 3 4)
  /\ 0 <= substituteCount (mkLevenshteinResults 7 0 3 4)
  /\ insertCount (mkLevenshteinResults 7 0 3 4)
     + substituteCount (mkLevenshteinResults 7 0 3 4)
     <= Z.of_nat (length (str "hippo"))
  /\ deleteCount (mkLevenshteinResults 7 0 3 4)
     + substituteCount (mkLevenshteinResults 7 0 3 4)
     <= Z.of_nat (length (str "elephant"))
  /\ Z.abs (Z.of_nat (length (str "hippo"))
            - Z.of_nat (length (str "elephant")))
     <= distance (mkLevenshteinResults 7 0 3 4)
  /\ distance (mkLevenshteinResults 7 0 3 4)
     <= Z.of_nat (length (str "elephant")) + Z.of_nat (length (str "hippo")).
Proof.
  apply (counts_fit_lengths (str "elephant") (str "hippo") 7
           (mkLevenshteinResults 7 0 3 4)).
  - lia.
  - left. vm_compute. reflexivity.
Defined.

(** X7: exchanging the two strings exchanges the roles of insertion and
    deletion in the result of the unbounded mode: the reversed call returns
    the same distance and the same number of substitutions, with
    [insertCount] and [deleteCount] exchanged. *)
Theorem unlimited_reversed_exchanges_counts (a b : jsstring)
    (r : LevenshteinResults) :
  unlimitedCompare (Some a) (Some b) = Return r ->
  unlimitedCompare (Some b) (Some a)
  = Return (mkLevenshteinResults (distance r) (deleteCount r)
                                 (insertCount r) (substituteCount r)).
Proof.
  assert (forall s t M,
            wf_matrix (length s) (length t) M ->
            forall r1,
              findDetailedResults s t M false = Return r1 ->
              findDetailedResults s t M true
              = Return (mkLevenshteinResults (distance r1) (deleteCount r1)
                          (insertCount r1) (substituteCount r1))) as Hx1.
  { intros s t M Hwf r1. unfold findDetailedResults.
    destruct (bt_loop_exchange s t M (length t + length s + 1)
                (mkBt (Z.of_nat (length t)) (Z.of_nat (length s)) 0 0 0)
                Hwf) as (st' & -> & Hx); [simpl; lia..|].
    unfold exchange in Hx at 1. simpl in Hx. rewrite Hx. simpl.
    intros [= <-]. simpl. do 2 f_equal. lia. }
  assert (forall s t M,
            wf_matrix (length s) (length t) M ->
            forall r1,
              findDetailedResults s t M true = Return r1 ->
              findDetailedResults s t M false
              = Return (mkLevenshteinResults (distance r1) (deleteCount r1)
                          (insertCount r1) (substituteCount r1))) as Hx2.
  { intros s t M Hwf r1. unfold findDetailedResults.
    destruct (bt_loop_exchange s t M (length t + length s + 1)
                (mkBt (Z.of_nat (length t)) (Z.of_nat (length s)) 0 0 0)
                Hwf) as (st' & -> & Hx); [simpl; lia..|].
    unfold exchange in Hx at 1. simpl in Hx. rewrite Hx. simpl.
    intros [= <-]. simpl. do 2 f_equal. lia. }
  unfold unlimitedCompare.
  destruct (Nat.eqb_spec (length a) 0) as [Ha|Ha];
    destruct (Nat.eqb_spec (length b) 0) as [Hb|Hb].
  - intros [= <-]. simpl. by rewrite Ha, Hb.
  - by intros [= <-].
  - by intros [= <-].
  - unfold swap_operands.
    destruct (Nat.ltb_spec (length b) (length a)) as [Hlt|Hge];
      destruct (Nat.ltb_spec (length a) (length b)) as [Hlt'|Hge']; try lia.
    + apply Hx2, unlimited_matrix_wf.
    + apply Hx1, unlimited_matrix_wf.
    + unfold findDetailedResults.
      destruct (bt_loop_mirror a b (length b + length a + 1)
                  (mkBt (Z.of_nat (length b)) (Z.of_nat (length a)) 0 0 0))
        as (st' & -> & Hx); [simpl; lia..|].
      unfold mirror in Hx at 1. simpl in Hx.
      rewrite (Nat.add_comm (length a) (length b)), Hx. simpl.
      intros [= <-]. simpl. do 2 f_equal. lia.
Qed.

Lemma unlimited_reversed_exchanges_counts_witness :
  unlimitedCompare (Some (str "hippo")) (Some (str "elephant"))
  = Return (mkLevenshteinResults
              (distance (mkLevenshteinResults 7 0 3 4))
              (deleteCount (mkLevenshteinResults 7 0 3 4))
              (insertCount (mkLevenshteinResults 7 0 3 4))
              (substituteCount (mkLevenshteinResults 7 0 3 4))).
Proof.
  apply (unlimited_reversed_exchanges_counts (str "elephant") (str "hippo")
           (mkLevenshteinResults 7 0 3 4)).
  vm_compute. reflexivity.
Defined.

Lemma sub1_exact (x : Z) : 0 <= x <= 2 ^ 53 -> JS.sub1 x = x - 1.
Proof.
  intros Hx. unfold JS.sub1.
  destruct (Z.eqb_spec x JS.MAX_VALUE) as [->|]; [|done].
  assert (2 ^ 53 < JS.MAX_VALUE) by (vm_compute; reflexivity). lia.
Qed.

(** X8: [findDetailedResults] is a public operation of its own: on any table
    of [right.length + 1] rows of [left.length + 1] integers from 0 to 2^53,
    whatever these are, it returns within
    [right.length + left.length + 1] iterations, and the counts are those
    of an edit script between the two strings in the direction that
    [swapped] selects.  The bound keeps the table where [data - 1] is exact
    in binary64, as [JS.sub1] computes it ([sub1_exact]). *)
Theorem backtrace_any_table (left right : jsstring) (matrix : matrix_t)
    (swapped : bool) :
  wf_matrix (length left) (length right) matrix ->
  exact_cells matrix ->
  exists r,
    findDetailedResults left right matrix swapped = Return r
    /\ distance r = insertCount r + deleteCount r + substituteCount r
    /\ script (if swapped then right else left)
              (if swapped then left else right)
              (insertCount r) (deleteCount r) (substituteCount r).
Proof.
  intros Hwf _.
  destruct (findDetailedResults_script left right matrix swapped Hwf)
    as (r & Hr & _ & Hs).
  exists r. split; [done|]. split; [|done].
  by eapply findDetailedResults_total.
Qed.

Lemma backtrace_any_table_witness :
  exists r,
    findDetailedResults (str "ab") (str "b") [[7; 7; 7]; [7; 7; 7]] true
    = Return r
    /\ distance r = insertCount r + deleteCount r + substituteCount r
    /\ script (str "b") (str "ab")
              (insertCount r) (deleteCount r) (substituteCount r).
Proof.
  apply (backtrace_any_table (str "ab") (str "b") [[7; 7; 7]; [7; 7; 7]] true).
  - split; [reflexivity|].
    repeat (apply Forall_cons_2;
            [split; [reflexivity|];
             repeat (apply Forall_cons_2; [lia|]); apply Forall_nil_2|]).
    apply Forall_nil_2.
  - repeat (apply Forall_cons_2;
            [repeat (apply Forall_cons_2; [lia|]); apply Forall_nil_2|]).
    apply Forall_nil_2.
Defined.

(** X9: a table with fewer rows than [right.length + 1] makes the first
    iteration read a cell of a row that does not exist, which throws,
    when [left] is not empty. *)
Theorem backtrace_short_table_throws (left right : jsstring)
    (matrix : matrix_t) (swapped : bool) :
  (length matrix <= length right)%nat ->
  (0 < length left)%nat ->
  findDetailedResults left right matrix swapped = Throw "TypeError".
Proof.
  intros Hshort Hne. unfold findDetailedResults.
  assert (row_at matrix (Z.of_nat (length right)) = Throw "TypeError") as Hrow.
  { unfold row_at. destruct (Z.ltb_spec (Z.of_nat (length right)) 0); [done|].
    rewrite Nat2Z.id, lookup_ge_None_2 by lia. done. }
  replace (length right + length left + 1)%nat
    with (S (length right + length left)) by lia.
  cbn [bt_loop rowIndex columnIndex].
  destruct (Z.geb_spec (Z.of_nat (length right)) 0); [|lia].
  destruct (Z.geb_spec (Z.of_nat (length left)) 0); [|lia].
  cbn [andb]. unfold bt_body, read. cbn [rowIndex columnIndex].
  rewrite Hrow.
  destruct (Z.eqb_spec (Z.of_nat (length left)) 0) as [Hc|Hc]; [lia|].
  reflexivity.
Qed.

Lemma backtrace_short_table_throws_witness :
  findDetailedResults (str "ab") (str "b") [[0; 1; 2]] false
  = Throw "TypeError".
Proof.
  apply (backtrace_short_table_throws (str "ab") (str "b") [[0; 1; 2]] false).
  - simpl. lia.
  - simpl. lia.
Defined.

(** *** A threshold that no distance can exceed *)

Lemma tab_le_max left right j i :
  tab left right j i <= Z.max (Z.of_nat j) (Z.of_nat i).
Proof.
  revert i. induction j as [|j IHj]; intros i; [simpl; lia|].
  destruct i as [|i]; [rewrite tab_0_r; lia|].
  rewrite tab_S_S. pose proof (IHj i). case_bool_decide; lia.
Qed.

Lemma wf_matrix_ext n m M1 M2 :
  wf_matrix n m M1 -> wf_matrix n m M2 ->
  (forall j i, (j <= m)%nat -> (i <= n)%nat ->
     cell M1 (Z.of_nat j) (Z.of_nat i) = cell M2 (Z.of_nat j) (Z.of_nat i)) ->
  M1 = M2.
Proof.
  intros [Hl1 Hr1] [Hl2 Hr2] Hcells.
  apply list_eq_same_length with (m + 1)%nat; [done..|].
  intros j row1 row2 Hj Hrow1 Hrow2.
  destruct (Forall_lookup_1 _ _ _ _ Hr1 Hrow1) as [Hlen1 _].
  destruct (Forall_lookup_1 _ _ _ _ Hr2 Hrow2) as [Hlen2 _].
  apply list_eq_same_length with (n + 1)%nat; [done..|].
  intros i x y Hi Hx Hy.
  specialize (Hcells j i ltac:(lia) ltac:(lia)).
  unfold cell in Hcells. rewrite !Nat2Z.id in Hcells.
  rewrite (list_lookup_total_correct _ _ _ Hrow1) in Hcells.
  rewrite (list_lookup_total_correct _ _ _ Hrow2) in Hcells.
  rewrite (list_lookup_total_correct _ _ _ Hx) in Hcells.
  by rewrite (list_lookup_total_correct _ _ _ Hy) in Hcells.
Qed.

Lemma lim_cell_value left rightJ p j d matrix i :
  lim_cell left rightJ p j (d, matrix) i
  = let v := if bool_decide (charAt left (i - 1) = rightJ)
             then get p (i - 1)
             else JS.add1 (Z.min (Z.min (get d (i - 1)) (get p i))
                                 (get p (i - 1))) in
    (<[i := v]> d, matrix_set matrix j i (get (<[i := v]> d) i)).
Proof. unfold lim_cell. by case_bool_decide. Qed.

(** With the whole row inside the stripe, a row of [limitedCompare]
    computes what the row of [unlimitedCompare] computes. *)
Lemma lim_cells_full left right n m k p d M :
  (1 <= k <= m)%nat ->
  Z.of_nat n + Z.of_nat m < JS.MAX_VALUE ->
  rows_done left right n m k (p, d, M) ->
  rows_done left right n m (S k)
    (let '(d', M') :=
       foldl (lim_cell left (charAt right (k - 1)) p k)
             (<[0%nat := Z.of_nat k]> d, M) (seq 1 n) in
     (d', p, M')).
Proof.
  intros Hk Hbound. unfold rows_done. simpl.
  intros (Hwf & Hlp & Hld & Hp & Hrows & Hcol0).
  set (step := lim_cell left (charAt right (k - 1)) p k).
  pose proof (foldl_seq_ind
    (fun i acc =>
       wf_matrix n m acc.2
       /\ length acc.1 = (n + 1)%nat
       /\ (forall i', (i' < i)%nat -> get acc.1 i' = tab left right k i')
       /\ (forall j i', (j < k)%nat -> (i' <= n)%nat ->
             cell acc.2 (Z.of_nat j) (Z.of_nat i') = tab left right j i')
       /\ (forall i', (i' < i)%nat -> (i' <= n)%nat ->
             cell acc.2 (Z.of_nat k) (Z.of_nat i') = tab left right k i')
       /\ (forall j, (j <= m)%nat -> cell acc.2 (Z.of_nat j) 0 = Z.of_nat j))
    step (<[0%nat := Z.of_nat k]> d, M) 1 n) as Hinner.
  destruct Hinner as (Hwf' & Hld' & Hd' & Hrows' & Hrowk & Hcol0').
  { simpl. split; [done|]. split; [by rewrite length_insert|].
    split; [|split; [done|split; [|done]]].
    - intros i' Hi'. assert (i' = 0)%nat as -> by lia.
      unfold get. rewrite list_lookup_total_insert_eq by lia.
      by rewrite tab_0_r.
    - intros i' Hi' _. assert (i' = 0)%nat as -> by lia.
      rewrite tab_0_r. apply Hcol0. lia. }
  { intros i [d1 M1] Hi. unfold step. rewrite lim_cell_value. simpl.
    intros (Hwf1 & Hld1 & Hd1 & Hrows1 & Hrowk1 & Hc1).
    set (v := if bool_decide (charAt left (i - 1) = charAt right (k - 1))
              then get p (i - 1)
              else JS.add1 (Z.min (Z.min (get d1 (i - 1)) (get p i))
                                  (get p (i - 1)))).
    assert (v = tab left right k i) as Hv.
    { unfold v. destruct i as [|i']; [lia|]. destruct k as [|k']; [lia|].
      replace (S i' - 1)%nat with i' by lia.
      replace (S k' - 1)%nat with k' in * by lia.
      rewrite Hd1 by lia. rewrite !Hp by lia.
      pose proof (tab_bounds left right k' i').
      case_bool_decide as Hc.
      - by rewrite (tab_diag_eq _ _ _ _ Hc).
      - rewrite (tab_diag_ne _ _ _ _ Hc). unfold JS.add1.
        destruct (Z.eqb_spec
                    (Z.min (Z.min (tab left right (S k') i')
                                  (tab left right k' (S i')))
                           (tab left right k' i')) JS.MAX_VALUE); lia. }
    assert (get (<[i := v]> d1) i = v) as Hget.
    { unfold get. apply list_lookup_total_insert_eq. lia. }
    rewrite Hget.
    assert (0 <= v) as Hv0 by (rewrite Hv; apply tab_bounds).
    split; [by apply matrix_set_wf|].
    split; [by rewrite length_insert|].
    split; [|split; [|split]].
    - intros i' Hi'. destruct (decide (i' = i)) as [->|Hne].
      + by rewrite Hget.
      + unfold get. rewrite list_lookup_total_insert_ne by done.
        apply Hd1. lia.
    - intros j i' Hj Hi'. rewrite (cell_matrix_set_ne M1 k i j i'); [auto|].
      intros [= -> _]. lia.
    - intros i' Hi' Hi'n. destruct (decide (i' = i)) as [->|Hne].
      + rewrite (cell_matrix_set_eq n m M1 k i); [done|done|lia..].
      + rewrite (cell_matrix_set_ne M1 k i k i') by congruence.
        apply Hrowk1; lia.
    - intros j Hj. rewrite (cell_matrix_set_ne M1 k i j 0); [auto|].
      intros [= _ ->]. lia. }
  destruct (foldl step _ _) as [d' M']. simpl in *.
  split; [done|]. split; [done|]. split; [done|].
  split; [|split; [|done]].
  - intros i Hi. rewrite Nat.sub_0_r. apply Hd'. lia.
  - intros j i Hj Hi. destruct (decide (j = k)) as [->|Hne].
    + apply Hrowk; lia.
    + apply Hrows'; lia.
Qed.

Lemma lim_rows_full left right t len :
  let n := length left in
  let m := length right in
  forall j0 p d M,
    (1 <= n <= m)%nat -> Z.of_nat m <= t ->
    Z.of_nat n + Z.of_nat m < JS.MAX_VALUE ->
    (1 <= j0)%nat -> (j0 + len <= m + 1)%nat ->
    rows_done left right n m j0 (p, d, M) ->
    exists p' d' M',
      lim_rows left right t n (seq j0 len) p d M = Some (p', d', M')
      /\ rows_done left right n m (j0 + len) (p', d', M').
Proof.
  intros n m. induction len as [|len IH];
    intros j0 p d M Hn Ht Hbound Hj0 Hlen Hdone.
  - simpl. rewrite Nat.add_0_r. by eexists _, _, _.
  - cbn [seq lim_rows].
    assert (stripe_min t j0 = 1) as -> by (unfold stripe_min; lia).
    assert (stripe_max t n j0 = Z.of_nat n) as ->.
    { unfold stripe_max. destruct (_ >? _); lia. }
    destruct (Z.gtb_spec 1 (Z.of_nat n)); [lia|].
    destruct (Z.gtb_spec 1 1); [lia|].
    replace (Z.to_nat 1) with 1%nat by lia.
    replace (Z.to_nat (Z.of_nat n - 1 + 1)) with n by lia.
    pose proof (lim_cells_full left right n m j0 p d M
                  ltac:(lia) Hbound Hdone) as Hrow.
    destruct (foldl _ _ _) as [d1 M1].
    destruct (IH (S j0) d1 p M1) as (p' & d' & M' & Hrun & Hdone');
      [done|done|done|lia|lia|done|].
    exists p', d', M'. split; [done|].
    by replace (j0 + S len)%nat with (S j0 + len)%nat by lia.
Qed.

Lemma limited_run_full left right t :
  (1 <= length left <= length right)%nat ->
  Z.of_nat (length right) <= t ->
  Z.of_nat (length left) + Z.of_nat (length right) < JS.MAX_VALUE ->
  exists p d,
    limited_run left right t = Some (p, d, unlimited_matrix left right)
    /\ get p (length left) <= t.
Proof.
  intros Hlen Ht Hbound. unfold limited_run.
  set (n := length left) in *. set (m := length right) in *.
  set (boundary := Z.to_nat (Z.min (Z.of_nat n) t + 1)).
  assert (boundary = (n + 1)%nat) as Hb by (unfold boundary; lia).
  destruct (iota_spec (createArray (n + 1) 0) boundary)
    as (Hl & Hlow & Hhigh).
  { unfold createArray. rewrite length_replicate. lia. }
  set (p1 := foldl _ (createArray (n + 1) 0) (seq 0 boundary)) in *.
  destruct (fill_spec p1 boundary) as (Hp1 & _ & Hp3).
  destruct (fill_spec (createArray (n + 1) 0) 0%nat) as (Hd1 & _ & _).
  set (p0 := JS.fill _ boundary _ p1) in *.
  set (d0 := JS.fill _ 0%nat _ _) in *.
  unfold createArray in Hl, Hd1. rewrite length_replicate in Hl, Hd1.
  destruct (init_matrix_cells n m) as [Hrow0 Hcol0].
  destruct (lim_rows_full left right t m 1 p0 d0 (init_matrix n m))
    as (p & d & M & Hrun & HM); try done; try lia.
  { unfold rows_done. simpl.
    split; [apply init_matrix_wf|]. split; [lia|]. split; [done|].
    split; [intros i Hi; rewrite Hp3, Hlow by lia; done|].
    split; [|done].
    intros j i Hj Hi. assert (j = 0)%nat as -> by lia. by apply Hrow0. }
  change (length left) with n in Hrun. rewrite Hrun.
  destruct HM as (Hwf & _ & _ & Hp & Hcells & _). cbn [fst snd] in *.
  exists p, d. split.
  - do 2 f_equal.
    apply (wf_matrix_ext n m); [done|apply unlimited_matrix_wf|].
    intros j i Hj Hi. rewrite Hcells by lia.
    by rewrite unlimited_matrix_cells.
  - fold n. rewrite Hp by lia.
    pose proof (tab_le_max left right (1 + m - 1) n). lia.
Qed.

(** X10: a threshold that is at least the length of the longer string bounds
    nothing: [limitedCompare] then fills the whole table as
    [unlimitedCompare] does and returns the same result. *)
Theorem large_threshold_is_unbounded (left right : jsstring) (threshold : Z) :
  Z.of_nat (length left) <= threshold ->
  Z.of_nat (length right) <= threshold ->
  Z.of_nat (length left) + Z.of_nat (length right) < JS.MAX_VALUE ->
  limitedCompare (Some left) (Some right) threshold
  = unlimitedCompare (Some left) (Some right).
Proof.
  intros Hl Hr Hbound. unfold limitedCompare, unlimitedCompare.
  destruct (Z.ltb_spec threshold 0); [lia|].
  destruct (Nat.eqb_spec (length left) 0) as [Hn|Hn].
  { by destruct (Z.leb_spec (Z.of_nat (length right)) threshold); [|lia]. }
  destruct (Nat.eqb_spec (length right) 0) as [Hm|Hm].
  { by destruct (Z.leb_spec (Z.of_nat (length left)) threshold); [|lia]. }
  destruct (swap_operands_cases left right) as [[-> Hlen]|[-> Hlen]].
  - destruct (limited_run_full right left threshold)
      as (p & d & -> & Hp); [lia..|].
    by destruct (Z.leb_spec (get p (length right)) threshold); [|lia].
  - destruct (limited_run_full left right threshold)
      as (p & d & -> & Hp); [lia..|].
    by destruct (Z.leb_spec (get p (length left)) threshold); [|lia].
Qed.

Lemma large_threshold_is_unbounded_witness :
  limitedCompare (Some (str "elephant")) (Some (str "hippo")) 8
  = unlimitedCompare (Some (str "elephant")) (Some (str "hippo")).
Proof.
  apply (large_threshold_is_unbounded (str "elephant") (str "hippo") 8).
  - simpl. lia.
  - simpl. lia.
  - vm_compute. reflexivity.
Defined.

(** ** Where the returned distance leaves the edit distance *)

(** C1: the bounded mode returns the sentinel exactly when the edit
    distance exceeds the threshold ([limited_sentinel_exact]), but the
    distance it returns otherwise is not always the edit distance.  With
    threshold 1, "aa" and "aab" (edit distance 1) come back with distance 2,
    because the backtrace reads a cell outside the stripe, which still holds
    the 0 it was created with; with threshold 2, "aba" and "bab" (edit
    distance 2) come back with distance 3, because the backtrace counts a
    substitution when the left and the upper neighbour both hold
    [data - 1]. *)
Theorem limited_distance_exceeds_edit_distance :
  limitedCompare (Some (str "aa")) (Some (str "aab")) 1
  = Return (mkLevenshteinResults 2 1 0 1)
  /\ levenshtein (str "aa") (str "aab") = 1
  /\ limitedCompare (Some (str "aba")) (Some (str "bab")) 2
     = Return (mkLevenshteinResults 3 0 0 3)
  /\ levenshtein (str "aba") (str "bab") = 2.
Proof. vm_compute. repeat split; reflexivity. Qed.

(** C2: the counts of the backtrace do not always add up to the last cell
    of the table, which is the edit distance ([unlimited_last_cell]).  For
    "aba" and "bab" the unbounded mode fills the table with 2 in its last
    cell and returns three substitutions; for "aa" and "aab" with threshold 1
    the bounded mode leaves 1 in the last cell and returns one insertion and
    one substitution. *)
Theorem backtrace_exceeds_last_cell :
  cell (unlimited_matrix (str "aba") (str "bab")) 3 3 = 2
  /\ unlimitedCompare (Some (str "aba")) (Some (str "bab"))
     = Return (mkLevenshteinResults 3 0 0 3)
  /\ (exists p d matrix,
        limited_run (str "aa") (str "aab") 1 = Some (p, d, matrix)
        /\ get p 2 = 1 /\ cell matrix 3 2 = 1)
  /\ limitedCompare (Some (str "aa")) (Some (str "aab")) 1
     = Return (mkLevenshteinResults 2 1 0 1).
Proof.
  split; [vm_compute; reflexivity|]. split; [vm_compute; reflexivity|].
  split; [|vm_compute; reflexivity].
  eexists _, _, _. split; [vm_compute; reflexivity|].
  split; vm_compute; reflexivity.
Qed.

(** C6: the distance the bounded mode returns depends on the threshold.
    For "aa" and "aab" threshold 1 gives distance 2, and threshold 2, which
    is not below that, gives distance 1.  Only the choice between sentinel
    and result is monotone ([limited_sentinel_monotone]). *)
Theorem limited_distance_depends_on_threshold :
  limitedCompare (Some (str "aa")) (Some (str "aab")) 1
  = Return (mkLevenshteinResults 2 1 0 1)
  /\ limitedCompare (Some (str "aa")) (Some (str "aab")) 2
     = Return (mkLevenshteinResults 1 1 0 0).
Proof. vm_compute. split; reflexivity. Qed.


(** ** Arguments that are refused *)

(** C9: every metric throws when [left] or [right] is [null] or
    [undefined], whatever the other arguments are, and [limitedCompare]
    throws on strings when the threshold is negative.  A call that throws
    has no result. *)
Theorem invalid_arguments_throw (this : instance)
    (left right : option jsstring) (threshold : Z)
    (toLowerCase : jsstring -> jsstring) (rnd : Q -> Q) :
  (left = None \/ right = None ->
   limitedCompare left right threshold = Throw "CharSequences must not be null"
   /\ unlimitedCompare left right = Throw "CharSequences must not be null"
   /\ apply this left right = Throw "CharSequences must not be null"
   /\ JaroWinklerDistance.apply rnd left right
      = Throw "CharSequences must not be null"
   /\ HammingDistance.apply left right = Throw "CharSequences must not be null"
   /\ JaccardSimilarity.apply left right = Throw "Input cannot be null"
   /\ JaccardDistance.apply left right = Throw "Input cannot be null"
   /\ FuzzyScore.fuzzyScore toLowerCase left right
      = Throw "provided parameters must not be null")
  /\ (threshold < 0 ->
      forall s t : jsstring,
        limitedCompare (Some s) (Some t) threshold
        = Throw "Threshold must not be negative").
Proof.
  split.
  - intros Hnull. unfold apply.
    destruct (LevenshteinDetailedDistance.threshold this);
      destruct left, right; destruct Hnull; try discriminate;
      repeat split; reflexivity.
  - intros Hneg s t. unfold limitedCompare.
    destruct (Z.ltb_spec threshold 0); [done|lia].
Qed.

Lemma invalid_arguments_throw_witness :
  limitedCompare None (Some (str "a")) (-1)
  = Throw "CharSequences must not be null"
  /\ limitedCompare (Some (str "a")) (Some (str "b")) (-1)
     = Throw "Threshold must not be negative".
Proof.
  pose proof (invalid_arguments_throw (mkInstance None) None
                (Some (str "a")) (-1) (fun s => s) exact) as [Hnull Hneg].
  split.
  - apply Hnull. left. reflexivity.
  - apply Hneg. lia.
Defined.




(** ** Jaro-Winkler *)

Import JaroWinklerDistance.

Lemma match_loop_count (min max : jsstring) :
  ((match_loop min max).2 <= length min)%nat.
Proof.
  unfold match_loop.
  pose proof (foldl_seq_ind (fun k (st : match_state) => (st.2 <= k)%nat)
                (match_step min max (range_of max))
                (createArray (length min) (-1)%Q, flags_create (length max), O)
                0 (length min)) as H.
  simpl in H. apply H; [lia|].
  intros k [[mi fl] cnt] _ Hk. unfold match_step. simpl in *.
  destruct (scan _ _ _ _); simpl; lia.
Qed.

Lemma collect_length hit s ms : length (collect hit s ms) = length ms.
Proof.
  unfold collect.
  apply (foldl_invariant
           (fun acc : list (option N) * nat => length acc.1 = length ms)).
  - done.
  - intros [ms' si] i Hl _. simpl in *.
    destruct (hit i); simpl; [by rewrite length_insert|done].
Qed.

Lemma common_prefix_length first second mis :
  (common_prefix first second mis <= length mis)%nat.
Proof.
  induction mis as [|mi mis IH]; simpl; [lia|]. case_bool_decide; lia.
Qed.

Lemma matches_bounds (first second : jsstring) :
  let '(m, ht, prefix) := matches first second in
  (m <= length first /\ m <= length second /\ ht <= m /\ prefix <= 4)%nat.
Proof.
  unfold matches.
  destruct (Nat.ltb_spec (length second) (length first)) as [Hlt|Hge].
  - pose proof (match_loop_count second first) as Hm.
    destruct (match_loop second first) as [[mi fl] m]. simpl in Hm.
    split; [lia|]. split; [lia|]. split.
    + etrans; [apply length_filter|].
      by rewrite length_seq, collect_length, length_replicate.
    + etrans; [apply common_prefix_length|]. rewrite length_seq. lia.
  - pose proof (match_loop_count first second) as Hm.
    destruct (match_loop first second) as [[mi fl] m]. simpl in Hm.
    split; [lia|]. split; [lia|]. split.
    + etrans; [apply length_filter|].
      by rewrite length_seq, collect_length, length_replicate.
    + etrans; [apply common_prefix_length|]. rewrite length_seq. lia.
Qed.

Lemma ratio_bounds (a b : Z) :
  (0 <= a <= b)%Z -> (0 < b)%Z ->
  (0 <= inject_Z a / inject_Z b <= 1)%Q.
Proof.
  intros Hab Hb.
  assert (0 < inject_Z b)%Q as Hb' by (unfold Qlt; simpl; lia).
  split.
  - apply Qle_shift_div_l; [done|]. rewrite Qmult_0_l.
    unfold Qle; simpl; lia.
  - apply Qle_shift_div_r; [done|]. rewrite Qmult_1_l.
    unfold Qle; simpl; lia.
Qed.

Lemma exact_rounding : binary64_rounding exact.
Proof. split; unfold exact; intros; try done; lra. Qed.

Section Rounding.

Variable rnd : Q -> Q.
Hypothesis Hrnd : binary64_rounding rnd.

Lemma rnd_proper x y : (x == y)%Q -> (rnd x == rnd y)%Q.
Proof.
  intros Hxy. apply Qle_antisym; apply (rnd_monotone rnd Hrnd); lra.
Qed.

Lemma rnd_between (lo hi : Z) x :
  (0 <= lo)%Z -> (hi <= 2 ^ 53)%Z -> (lo <= hi)%Z ->
  (inject_Z lo <= x <= inject_Z hi)%Q ->
  (inject_Z lo <= rnd x <= inject_Z hi)%Q.
Proof.
  intros Hlo Hhi Hle [H1 H2]. split.
  - rewrite <- (rnd_integer rnd Hrnd lo) by lia.
    by apply (rnd_monotone rnd Hrnd).
  - rewrite <- (rnd_integer rnd Hrnd hi) by lia.
    by apply (rnd_monotone rnd Hrnd).
Qed.

Lemma score_bounds (m l r ht prefix : Z) :
  (1 <= m)%Z -> (m <= l)%Z -> (m <= r)%Z -> (m <= 2 ^ 53)%Z ->
  (0 <= ht <= m)%Z -> (0 <= prefix <= 4)%Z ->
  let j := rnd (rnd (rnd (rnd (inject_Z m / inject_Z l)
                          + rnd (inject_Z m / inject_Z r))
                     + rnd (rnd (inject_Z m - rnd (inject_Z ht / 2))
                            / inject_Z m))
                / 3) in
  (0 <= j <= 1
   /\ (double_0_7 <= j ->
       0 <= rnd (j + rnd (rnd (double_0_1 * inject_Z prefix) * rnd (1 - j)))
         <= 1))%Q.
Proof.
  intros Hm Hl Hr Hm53 Hht Hp. cbv zeta.
  assert (0 < inject_Z m)%Q as Hm' by (unfold Qlt; simpl; lia).
  assert (0 <= inject_Z ht)%Q as Hht0 by (unfold Qle; simpl; lia).
  assert (inject_Z ht <= inject_Z m)%Q as Hht1 by (unfold Qle; simpl; lia).
  assert (0 <= inject_Z prefix)%Q as Hp0 by (unfold Qle; simpl; lia).
  assert (inject_Z prefix <= 4)%Q as Hp1 by (unfold Qle; simpl; lia).
  pose proof (ratio_bounds m l ltac:(lia) ltac:(lia)) as Hx0.
  pose proof (ratio_bounds m r ltac:(lia) ltac:(lia)) as Hy0.
  pose proof (rnd_between 0 1 _ ltac:(lia) ltac:(lia) ltac:(lia) Hx0) as Hx.
  pose proof (rnd_between 0 1 _ ltac:(lia) ltac:(lia) ltac:(lia) Hy0) as Hy.
  set (x := rnd (inject_Z m / inject_Z l)) in *.
  set (y := rnd (inject_Z m / inject_Z r)) in *.
  assert (inject_Z 0 <= rnd (x + y) <= inject_Z 2)%Q as Hxy.
  { apply rnd_between; try lia. change (inject_Z 0) with 0%Q in *.
    change (inject_Z 1) with 1%Q in *. change (inject_Z 2) with 2%Q. lra. }
  set (xy := rnd (x + y)) in *.
  assert (inject_Z 0 <= rnd (inject_Z ht / 2) <= inject_Z m)%Q as Hh.
  { apply rnd_between; try lia. change (inject_Z 0) with 0%Q.
    unfold Qdiv. change (/ 2)%Q with (1 # 2)%Q. lra. }
  set (h := rnd (inject_Z ht / 2)) in *.
  assert (inject_Z 0 <= rnd (inject_Z m - h) <= inject_Z m)%Q as He.
  { apply rnd_between; try lia. change (inject_Z 0) with 0%Q in *. lra. }
  set (e := rnd (inject_Z m - h)) in *.
  assert (inject_Z 0 <= rnd (e / inject_Z m) <= inject_Z 1)%Q as Hz.
  { apply rnd_between; try lia. change (inject_Z 0) with 0%Q in *.
    change (inject_Z 1) with 1%Q. split.
    - apply Qle_shift_div_l; [done|]. lra.
    - apply Qle_shift_div_r; [done|]. lra. }
  set (z := rnd (e / inject_Z m)) in *.
  assert (inject_Z 0 <= rnd (xy + z) <= inject_Z 3)%Q as Hs.
  { apply rnd_between; try lia. change (inject_Z 0) with 0%Q in *.
    change (inject_Z 1) with 1%Q in *. change (inject_Z 2) with 2%Q in *.
    change (inject_Z 3) with 3%Q. lra. }
  set (s := rnd (xy + z)) in *.
  assert (inject_Z 0 <= rnd (s / 3) <= inject_Z 1)%Q as Hj.
  { apply rnd_between; try lia. change (inject_Z 0) with 0%Q in *.
    change (inject_Z 1) with 1%Q. change (inject_Z 3) with 3%Q in *.
    unfold Qdiv. change (/ 3)%Q with (1 # 3)%Q. lra. }
  set (j := rnd (s / 3)) in *.
  change (inject_Z 0) with 0%Q in *. change (inject_Z 1) with 1%Q in *.
  split; [done|]. intros Hj7.
  assert (rnd (1 - j) == 1 - j)%Q as Hu.
  { apply (rnd_sterbenz rnd Hrnd).
    - apply (rnd_idempotent rnd Hrnd).
    - unfold double_0_7 in Hj7. lra. }
  assert (inject_Z 0 <= rnd (double_0_1 * inject_Z prefix) <= inject_Z 1)%Q
    as Hc.
  { apply rnd_between; try lia. change (inject_Z 0) with 0%Q.
    change (inject_Z 1) with 1%Q. unfold double_0_1. lra. }
  set (c := rnd (double_0_1 * inject_Z prefix)) in *.
  change (inject_Z 0) with 0%Q in *. change (inject_Z 1) with 1%Q in *.
  set (u := rnd (1 - j)) in *.
  assert (0 <= rnd (c * u) <= u)%Q as Hcu.
  { split.
    - rewrite <- (rnd_integer rnd Hrnd 0) by lia.
      apply (rnd_monotone rnd Hrnd). change (inject_Z 0) with 0%Q.
      apply Qmult_le_0_compat; lra.
    - assert (rnd u == u)%Q as Hid by apply (rnd_idempotent rnd Hrnd).
      assert (rnd (c * u) <= rnd u)%Q as Hle.
      { apply (rnd_monotone rnd Hrnd).
        assert (c * u <= 1 * u)%Q by (apply Qmult_le_compat_r; lra). lra. }
      lra. }
  set (w := rnd (c * u)) in *.
  change 0%Q with (inject_Z 0). change 1%Q with (inject_Z 1).
  apply rnd_between; try lia.
  change (inject_Z 0) with 0%Q. change (inject_Z 1) with 1%Q. lra.
Qed.

End Rounding.

(** C8: [apply] returns 0 when both strings are empty and when one of them
    is, and on every pair of strings it returns a score between 0 and 1,
    whatever the rounding of the binary64 operations does within the four
    properties of [binary64_rounding]. *)
Theorem jaro_winkler_score_range (rnd : Q -> Q) (left right : jsstring) :
  binary64_rounding rnd ->
  Z.of_nat (length left) < 2 ^ 53 -> Z.of_nat (length right) < 2 ^ 53 ->
  JaroWinklerDistance.apply rnd (Some []) (Some []) = Return 0%Q
  /\ JaroWinklerDistance.apply rnd (Some []) (Some right) = Return 0%Q
  /\ JaroWinklerDistance.apply rnd (Some left) (Some []) = Return 0%Q
  /\ JaroWinklerDistance.apply rnd (Some (str "")) (Some (str "a"))
     = Return 0%Q
  /\ exists score,
       JaroWinklerDistance.apply rnd (Some left) (Some right) = Return score
       /\ (0 <= score <= 1)%Q.
Proof.
  intros Hrnd Hl53 Hr53.
  split; [reflexivity|]. split; [reflexivity|].
  split; [by destruct left|]. split; [reflexivity|].
  unfold JaroWinklerDistance.apply.
  pose proof (matches_bounds left right) as Hb.
  destruct (matches left right) as [[m ht] prefix].
  destruct Hb as (Hml & Hmr & Hht & Hp).
  destruct (Nat.eqb_spec m 0) as [Hm0|Hm0].
  - exists 0%Q. split; [done|]. lra.
  - eexists. split; [done|].
    pose proof (score_bounds rnd Hrnd
                  (Z.of_nat m) (Z.of_nat (length left))
                  (Z.of_nat (length right)) (Z.of_nat ht) (Z.of_nat prefix)
                  ltac:(lia) ltac:(lia) ltac:(lia) ltac:(lia) ltac:(lia)
                  ltac:(lia))
      as [Hj Hjw].
    unfold Qlen. destruct (Qlt_le_dec _ _) as [Hlt|Hge]; [apply Hj|].
    by apply Hjw.
Qed.

Lemma jaro_winkler_score_range_witness :
  exists score,
    JaroWinklerDistance.apply exact (Some (str "frog")) (Some (str "fog"))
    = Return score
    /\ (0 <= score <= 1)%Q.
Proof.
  apply (jaro_winkler_score_range exact (str "frog") (str "fog")).
  - apply exact_rounding.
  - vm_compute. reflexivity.
  - vm_compute. reflexivity.
Defined.

(** C4: the radius of the matching window is not floored.  For a longer
    string of odd length, such as "abc", [range_of] is one half instead of 0,
    the scan looks at positions beyond [index - range, index + range] ("b"
    finds its match in "abc" at position 1), positions that end in one half
    are marked under a key of their own, so that one character is matched
    twice ("bb" against "abc"), and "hello" against "hallo" has three half
    transpositions and scores 0.7675 in exact arithmetic, where the comment
    above [apply] promises 0.88. *)
Theorem matching_window_not_floored :
  (range_of (str "abc") == 1 # 2)%Q
  /\ window_range (str "abc") = 0
  /\ (matches (str "b") (str "abc")).1.1 = 1%nat
  /\ window_matches (str "b") (str "abc") = 0%nat
  /\ (matches (str "bb") (str "abc")).1.1 = 2%nat
  /\ window_matches (str "bb") (str "abc") = 1%nat
  /\ matches (str "hello") (str "hallo") = (4, 3, 1)%nat
  /\ window_matches (str "hello") (str "hallo") = 4%nat
  /\ exists score,
       JaroWinklerDistance.apply exact (Some (str "hello"))
         (Some (str "hallo"))
       = Return score
       /\ (7674 # 10000 < score < 7676 # 10000)%Q.
Proof.
  repeat (split; [vm_compute; reflexivity|]).
  eexists. split; [vm_compute; reflexivity|]. split; vm_compute; reflexivity.
Qed.

(** *** The prefix, and strings without a common character *)

Lemma common_prefix_spec first second k len :
  let p := common_prefix first second (seq k len) in
  (p <= len)%nat
  /\ (forall i, (k <= i < k + p)%nat -> charAt first i = charAt second i)
  /\ ((p < len)%nat -> charAt first (k + p) <> charAt second (k + p)).
Proof.
  revert k. induction len as [|len IH]; intros k; simpl.
  - split; [lia|]. split; intros; lia.
  - case_bool_decide as Hk.
    + destruct (IH (S k)) as (Hle & Heq & Hne). split; [lia|]. split.
      * intros i Hi. destruct (decide (i = k)) as [->|Hik]; [done|].
        apply Heq. lia.
      * intros Hp. replace (k + S _)%nat
          with (S k + common_prefix first second (seq (S k) len))%nat by lia.
        apply Hne. lia.
    + split; [lia|]. split; [intros; lia|].
      intros _. by rewrite Nat.add_0_r.
Qed.

Lemma matches_prefix (first second : jsstring) :
  (matches first second).2
  = common_prefix first second
      (seq 0 (Nat.min 4 (Nat.min (length first) (length second)))).
Proof.
  unfold matches.
  destruct (Nat.ltb_spec (length second) (length first)) as [Hlt|Hge].
  - destruct (match_loop second first) as [[mi fl] m]. cbn [snd].
    by rewrite (Nat.min_r (length first)) by lia.
  - destruct (match_loop first second) as [[mi fl] m]. cbn [snd].
    by rewrite (Nat.min_l (length first)) by lia.
Qed.

(** X11: the third number that [matches] returns is the length of the longest
    common prefix of the two strings, capped at four characters. *)
Theorem matches_prefix_is_common_prefix (first second : jsstring) :
  let prefix := (matches first second).2 in
  (prefix <= 4)%nat
  /\ (prefix <= length first)%nat /\ (prefix <= length second)%nat
  /\ take prefix first = take prefix second
  /\ ((prefix < 4)%nat -> (prefix < length first)%nat ->
      (prefix < length second)%nat ->
      first !! prefix <> second !! prefix).
Proof.
  rewrite matches_prefix.
  set (len := Nat.min 4 (Nat.min (length first) (length second))).
  destruct (common_prefix_spec first second 0 len) as (Hle & Heq & Hne).
  cbv zeta. set (p := common_prefix first second (seq 0 len)) in *.
  split; [lia|]. split; [lia|]. split; [lia|]. split.
  - apply list_eq. intros i.
    destruct (decide (i < p)%nat) as [Hi|Hi].
    + rewrite !lookup_take_lt by done. apply Heq. lia.
    + by rewrite !lookup_take_ge by lia.
  - intros H4 Hf Hs. apply Hne. lia.
Qed.

Lemma scan_none max flags c1 xs :
  (forall xi, c1 <> charAtQ max xi) -> scan max flags c1 xs = None.
Proof.
  intros Hne. unfold scan. induction xs as [|xi xs IH]; [done|]. simpl.
  by rewrite (bool_decide_eq_false_2 _ (Hne xi)), andb_false_r.
Qed.

Lemma match_loop_no_common_character (min max : jsstring) :
  (forall c, c ∈ min -> c ∉ max) ->
  match_loop min max
  = (createArray (length min) (-1)%Q, flags_create (length max), O).
Proof.
  intros Hdisjoint. unfold match_loop.
  apply (foldl_seq_ind
           (fun _ st => st = (createArray (length min) (-1)%Q,
                              flags_create (length max), O))
           (match_step min max (range_of max)) _ 0 (length min)); [done|].
  intros mi st Hmi ->. unfold match_step. rewrite scan_none; [done|].
  intros xi Heq.
  destruct (lookup_lt_is_Some_2 min mi ltac:(lia)) as [c Hc].
  unfold charAt, charAtQ, charAt in *. rewrite Hc in Heq.
  apply (Hdisjoint c); eapply list_elem_of_lookup_2; done.
Qed.

(** X12: two strings without a common character have no match, no
    transposition and no common prefix, and their score is 0; so has every
    pair with an empty string in it. *)
Theorem no_common_character_scores_zero (rnd : Q -> Q)
    (left right : jsstring) :
  (forall c, c ∈ left -> c ∉ right) ->
  matches left right = (0, 0, 0)%nat
  /\ JaroWinklerDistance.apply rnd (Some left) (Some right) = Return 0%Q.
Proof.
  intros Hdisjoint.
  assert (matches left right = (0, 0, 0)%nat) as Hm.
  { pose proof (matches_prefix left right) as Hp.
    assert (common_prefix left right
              (seq 0 (Nat.min 4 (Nat.min (length left) (length right))))
            = 0%nat) as Hzero.
    { destruct left as [|a left]; [done|].
      destruct right as [|b right]; [done|].
      simpl. rewrite bool_decide_eq_false_2; [done|].
      unfold charAt. simpl. intros [= ->].
      apply (Hdisjoint b); by left. }
    rewrite Hzero in Hp. clear Hzero.
    unfold matches in *.
    destruct (Nat.ltb_spec (length right) (length left)) as [Hlt|Hge].
    - rewrite match_loop_no_common_character in *
        by (intros c Hr Hl; by apply (Hdisjoint c)).
      cbn [snd] in Hp. rewrite Hp, collect_length. reflexivity.
    - rewrite match_loop_no_common_character in * by done.
      cbn [snd] in Hp. rewrite Hp, collect_length. reflexivity. }
  split; [done|]. unfold JaroWinklerDistance.apply. by rewrite Hm.
Qed.

Lemma no_common_character_scores_zero_witness :
  matches (str "ab") (str "cde") = (0, 0, 0)%nat
  /\ JaroWinklerDistance.apply exact (Some (str "ab")) (Some (str "cde"))
     = Return 0%Q.
Proof.
  apply (no_common_character_scores_zero exact (str "ab") (str "cde")).
  intros c.
  cbv [str Ascii.N_of_ascii Ascii.N_of_digits N.add N.mul
       Pos.add Pos.succ Pos.mul].
  rewrite !elem_of_cons, !elem_of_nil. intuition (subst; discriminate).
Defined.





(** *** The matching window for a longer string of even length *)

Lemma Qmax_inject_Z (a b : Z) :
  (Qmax (inject_Z a) (inject_Z b) == inject_Z (Z.max a b))%Q.
Proof.
  destruct (Z.le_ge_cases a b) as [Hab|Hab].
  - rewrite Z.max_r by done. apply Q.max_r. by rewrite <- Zle_Qle.
  - rewrite Z.max_l by done. apply Q.max_l. by rewrite <- Zle_Qle.
Qed.

Lemma Qmin_inject_Z (a b : Z) :
  (Qmin (inject_Z a) (inject_Z b) == inject_Z (Z.min a b))%Q.
Proof.
  destruct (Z.le_ge_cases a b) as [Hab|Hab].
  - rewrite Z.min_l by done. apply Q.min_l. by rewrite <- Zle_Qle.
  - rewrite Z.min_r by done. apply Q.min_r. by rewrite <- Zle_Qle.
Qed.

Lemma range_of_even (max : jsstring) :
  Nat.Even (length max) ->
  (range_of max == inject_Z (window_range max))%Q.
Proof.
  intros [h Hh]. unfold range_of, window_range, Qlen. rewrite Hh.
  replace (Z.of_nat (2 * h) / 2) with (Z.of_nat h)
    by (rewrite Nat2Z.inj_mul, Z.mul_comm, Z.div_mul; lia).
  change 0%Q with (inject_Z 0).
  rewrite <- Qmax_inject_Z.
  assert (inject_Z (Z.of_nat (2 * h)) / 2 - 1 == inject_Z (Z.of_nat h - 1))%Q
    as ->; [|reflexivity].
  unfold Z.sub. rewrite inject_Z_plus, Nat2Z.inj_mul, inject_Z_mult.
  change (inject_Z (- (1))) with (-1 # 1)%Q.
  change (inject_Z (Z.of_nat 2)) with 2%Q.
  unfold Qdiv. change (/ 2)%Q with (1 # 2)%Q.
  set (x := inject_Z (Z.of_nat h)). lra.
Qed.

Lemma scan_bounds_integer (range : Q) (r : Z) (max : jsstring) (mi : nat) :
  (range == inject_Z r)%Q ->
  (Qmax (inject_Z (Z.of_nat mi) - range) 0
   == inject_Z (Z.max (Z.of_nat mi - r) 0))%Q
  /\ (Qmin (inject_Z (Z.of_nat mi) + range + 1) (Qlen max)
      == inject_Z (Z.min (Z.of_nat mi + r + 1) (Z.of_nat (length max))))%Q.
Proof.
  intros Hr. split.
  - rewrite Hr. change 0%Q with (inject_Z 0). rewrite <- Qmax_inject_Z.
    unfold Z.sub. rewrite inject_Z_plus, inject_Z_opp. reflexivity.
  - rewrite Hr. unfold Qlen. rewrite <- Qmin_inject_Z.
    rewrite !inject_Z_plus. reflexivity.
Qed.

Lemma filter_seq_interval (lo hi : Z) (s n : nat) :
  filter (fun x => lo <= Z.of_nat x <= hi) (seq s n)
  = seq (Z.to_nat (Z.max lo (Z.of_nat s)))
        (Z.to_nat (Z.min (hi + 1) (Z.of_nat s + Z.of_nat n)
                   - Z.max lo (Z.of_nat s))).
Proof.
  revert s. induction n as [|n IH]; intros s.
  - by replace (Z.to_nat (Z.min _ _ - _)) with 0%nat by lia.
  - cbn [seq]. rewrite filter_cons, IH. case_decide as Hs.
    + replace (Z.to_nat (Z.max lo (Z.of_nat s))) with s by lia.
      replace (Z.to_nat (Z.min (hi + 1) (Z.of_nat s + Z.of_nat (S n))
                         - Z.max lo (Z.of_nat s)))
        with (S (Z.to_nat (Z.min (hi + 1) (Z.of_nat (S s) + Z.of_nat n)
                           - Z.max lo (Z.of_nat (S s))))) by lia.
      cbn [seq]. f_equal. f_equal. lia.
    + destruct (Z.lt_ge_cases (Z.of_nat s) lo) as [Hlo|Hlo].
      * f_equal; lia.
      * replace (Z.to_nat (Z.min (hi + 1) (Z.of_nat (S s) + Z.of_nat n)
                           - Z.max lo (Z.of_nat (S s)))) with 0%nat by lia.
        by replace (Z.to_nat (Z.min (hi + 1) (Z.of_nat s + Z.of_nat (S n))
                              - Z.max lo (Z.of_nat s))) with 0%nat by lia.
Qed.

Lemma window_seq (r : Z) (max : jsstring) (mi : nat) :
  0 <= r ->
  window r max mi
  = seq (Z.to_nat (Z.max (Z.of_nat mi - r) 0))
        (Z.to_nat (Z.min (Z.of_nat mi + r + 1) (Z.of_nat (length max))
                   - Z.max (Z.of_nat mi - r) 0)).
Proof.
  intros Hr. unfold window. rewrite filter_seq_interval.
  simpl Z.of_nat. f_equal.
Qed.

Lemma scan_positions_integer (range : Q) (r : Z) (max : jsstring) (mi : nat) :
  (range == inject_Z r)%Q ->
  Forall2 (fun q x => (q == inject_Z (Z.of_nat x))%Q)
          (scan_positions range max mi)
          (seq (Z.to_nat (Z.max (Z.of_nat mi - r) 0))
               (Z.to_nat (Z.min (Z.of_nat mi + r + 1) (Z.of_nat (length max))
                          - Z.max (Z.of_nat mi - r) 0))).
Proof.
  intros Hr. destruct (scan_bounds_integer range r max mi Hr) as [Hlo Hhi].
  unfold scan_positions.
  set (a := Z.max (Z.of_nat mi - r) 0) in *.
  set (b := Z.min (Z.of_nat mi + r + 1) (Z.of_nat (length max))) in *.
  set (xi := Qmax _ 0) in *. set (xn := Qmin _ _) in *.
  assert (Qceiling (xn - xi) = b - a) as ->.
  { rewrite <- (Qceiling_Z (b - a)). apply Qceiling_comp.
    rewrite Hlo, Hhi. unfold Z.sub.
    by rewrite inject_Z_plus, inject_Z_opp. }
  apply Forall2_same_length_lookup_2.
  - by rewrite length_fmap, !length_seq.
  - intros i q x Hq Hx. rewrite list_lookup_fmap in Hq.
    apply lookup_seq in Hx as [-> Hi].
    rewrite (proj2 (lookup_seq 0 _ i i) (conj eq_refl Hi)) in Hq.
    injection Hq as <-. rewrite Hlo, <- inject_Z_plus.
    f_equiv. unfold a. lia.
Qed.

Lemma flags_get_proper (flags : flags_t) (x y : Q) :
  (x == y)%Q -> flags_get flags x = flags_get flags y.
Proof.
  intros Hxy. induction flags as [|[k v] rest IH]; [done|]. simpl.
  assert (Qeq_bool k x = Qeq_bool k y) as ->; [|by rewrite IH].
  apply Bool.eq_true_iff_eq. rewrite !Qeq_bool_iff. by rewrite Hxy.
Qed.

Lemma flags_create_off (length : nat) (q : Q) :
  flag_on (flags_create length) q = false.
Proof.
  unfold flag_on, flags_create.
  induction (seq 0 length) as [|i l IH]; [done|]. simpl.
  by destruct (Qeq_bool _ _).
Qed.

Lemma find_related {A B} (R : A -> B -> Prop) (f : A -> bool) (g : B -> bool)
    (qs : list A) (xs : list B) :
  Forall2 R qs xs ->
  (forall q x, R q x -> x ∈ xs -> f q = g x) ->
  match List.find f qs, List.find g xs with
  | Some q, Some x => R q x /\ x ∈ xs
  | None, None => True
  | _, _ => False
  end.
Proof.
  induction 1 as [|q x qs xs HR _ IH]; intros Hfg; [done|]. simpl.
  rewrite (Hfg q x HR) by (by left).
  destruct (g x); [split; [done|by left]|].
  assert (forall q' x', R q' x' -> x' ∈ xs -> f q' = g x') as Hfg'
    by (intros; apply Hfg; [done|by right]).
  specialize (IH Hfg').
  destruct (List.find f qs), (List.find g xs); try done.
  split; [apply IH|]. right. apply IH.
Qed.

Lemma foldl_related {A B C} (R : A -> B -> Prop) (f : A -> C -> A)
    (g : B -> C -> B) (l : list C) (a : A) (b : B) :
  R a b ->
  (forall a b x, x ∈ l -> R a b -> R (f a x) (g b x)) ->
  R (foldl f a l) (foldl g b l).
Proof.
  revert a b. induction l as [|x l IH]; intros a b Hab Hstep; [done|].
  simpl. apply IH.
  - apply Hstep; [by left|done].
  - intros a' b' x' Hx'. apply Hstep. by right.
Qed.

(** One iteration of the matching loop against one step of the windowed
    matching: the counts stay equal, and the flags under the integer keys
    stay those of the list of used positions. *)
Lemma match_step_window (min max : jsstring) (range : Q) (r : Z) (mi : nat)
    (st : match_state) (w : list bool * nat) :
  (range == inject_Z r)%Q -> 0 <= r ->
  st.2 = w.2
  /\ length w.1 = length max
  /\ (forall x, (x < length max)%nat ->
        flag_on st.1.2 (inject_Z (Z.of_nat x)) = w.1 !!! x) ->
  let st' := match_step min max range st mi in
  let w' := window_step min max r w mi in
  st'.2 = w'.2
  /\ length w'.1 = length max
  /\ (forall x, (x < length max)%nat ->
        flag_on st'.1.2 (inject_Z (Z.of_nat x)) = w'.1 !!! x).
Proof.
  intros Hrange Hr. destruct st as [[mis flags] cnt], w as [used count].
  simpl. intros (-> & Hlen & Hflags).
  unfold match_step, window_step, scan.
  assert (forall x, x ∈ window r max mi -> (x < length max)%nat) as Hin.
  { intros x. unfold window. rewrite list_elem_of_filter, elem_of_seq. lia. }
  pose proof (scan_positions_integer range r max mi Hrange) as Hpos.
  rewrite <- window_seq in Hpos by done.
  pose proof (find_related
    (fun q x => (q == inject_Z (Z.of_nat x))%Q)
    (fun xi => negb (flag_on flags xi)
               && bool_decide (charAt min mi = charAtQ max xi))
    (fun x => negb (used !!! x)
              && bool_decide (charAt min mi = charAt max x))
    _ _ Hpos) as Hfind.
  destruct (List.find _ (scan_positions range max mi)) as [q|],
           (List.find _ (window r max mi)) as [x|];
    try (exfalso; apply Hfind); try done;
    try (intros q' x' Hq' Hx'; unfold flag_on, charAtQ;
         rewrite (flags_get_proper flags _ _ Hq'), (Qfloor_comp _ _ Hq');
         rewrite Qfloor_Z, Nat2Z.id;
         fold (flag_on flags (inject_Z (Z.of_nat x')));
         by rewrite Hflags by auto).
  destruct Hfind as [Hqx Hx].
  { intros q' x' Hq' Hx'. unfold flag_on, charAtQ.
    rewrite (flags_get_proper flags _ _ Hq'), (Qfloor_comp _ _ Hq').
    rewrite Qfloor_Z, Nat2Z.id.
    fold (flag_on flags (inject_Z (Z.of_nat x'))).
    by rewrite Hflags by auto. }
  simpl. split; [done|]. split; [by rewrite length_insert|].
  intros y Hy. unfold flag_on, flags_set. simpl.
  destruct (decide (y = x)) as [->|Hne].
  - rewrite (proj2 (Qeq_bool_iff _ _) Hqx).
    by rewrite list_lookup_total_insert_eq by (rewrite Hlen; auto).
  - rewrite list_lookup_total_insert_ne by done.
    destruct (Qeq_bool q (inject_Z (Z.of_nat y))) eqn:E; [|by apply Hflags].
    apply Qeq_bool_iff in E. rewrite Hqx in E.
    apply (proj1 (inject_Z_injective _ _)) in E. lia.
Qed.

Lemma match_loop_window (min max : jsstring) :
  Nat.Even (length max) ->
  (match_loop min max).2
  = (foldl (window_step min max (window_range max))
           (replicate (length max) false, O) (seq 0 (length min))).2.
Proof.
  intros Heven. unfold match_loop.
  apply (foldl_related
    (fun (st : match_state) (w : list bool * nat) =>
       st.2 = w.2
       /\ length w.1 = length max
       /\ (forall x, (x < length max)%nat ->
             flag_on st.1.2 (inject_Z (Z.of_nat x)) = w.1 !!! x))).
  - simpl. split; [done|]. split; [by rewrite length_replicate|].
    intros x Hx. rewrite flags_create_off.
    by rewrite lookup_total_replicate_2.
  - intros st w mi _. apply match_step_window.
    + by apply range_of_even.
    + unfold window_range. lia.
Qed.

(** X13: when the longer string has an even length, the radius is an integer
    and the matching loop does what the design document says: for each
    character of the shorter string it takes the first unused equal
    character inside the window of radius
    [max(floor(max.length / 2) - 1, 0)], and counts it once. *)
Theorem even_length_window_is_floored (first second : jsstring) :
  Nat.Even (Nat.max (length first) (length second)) ->
  (matches first second).1.1 = window_matches first second.
Proof.
  intros Heven. unfold matches, window_matches.
  destruct (Nat.ltb_spec (length second) (length first)) as [Hlt|Hge].
  - rewrite Nat.max_l in Heven by lia.
    rewrite <- (match_loop_window second first Heven).
    by destruct (match_loop second first) as [[mi fl] m].
  - rewrite Nat.max_r in Heven by lia.
    rewrite <- (match_loop_window first second Heven).
    by destruct (match_loop first second) as [[mi fl] m].
Qed.

Lemma even_length_window_is_floored_witness :
  (matches (str "CRATE") (str "TRACES")).1.1
  = window_matches (str "CRATE") (str "TRACES").
Proof.
  apply (even_length_window_is_floored (str "CRATE") (str "TRACES")).
  exists 3%nat. reflexivity.
Defined.

(** ** The peer metrics *)

(** *** Hamming distance *)

Lemma hamming_count_S left right k :
  hamming_count left right (S k)
  = hamming_count left right k
    + (if bool_decide (charAt left k <> charAt right k) then 1 else 0).
Proof.
  unfold hamming_count. rewrite seq_S, foldl_app. simpl.
  case_bool_decide; lia.
Qed.

Lemma hamming_apply left right :
  length left = length right ->
  HammingDistance.apply (Some left) (Some right)
  = Return (hamming_count left right (length left)).
Proof.
  intros Hlen. unfold HammingDistance.apply.
  by rewrite Hlen, Nat.eqb_refl.
Qed.

Lemma hamming_count_bounds left right k :
  0 <= hamming_count left right k <= Z.of_nat k.
Proof.
  induction k as [|k IH]; [done|].
  rewrite hamming_count_S. case_bool_decide; lia.
Qed.

Lemma hamming_count_zero left right k :
  hamming_count left right k = 0
  <-> forall i, (i < k)%nat -> charAt left i = charAt right i.
Proof.
  induction k as [|k IH].
  - split; [intros; lia|done].
  - rewrite hamming_count_S. pose proof (hamming_count_bounds left right k).
    case_bool_decide as Hk; split.
    + lia.
    + intros Hall. destruct Hk. apply Hall. lia.
    + intros Hz i Hi. destruct (decide (i = k)) as [->|Hne].
      * by destruct (decide (charAt left k = charAt right k)).
      * apply IH; lia.
    + intros Hall. rewrite Z.add_0_r. apply IH. intros i Hi. apply Hall. lia.
Qed.

(** X14: [apply] throws on strings of different lengths and on no other pair
    of strings; on strings of one length it returns a number between 0 and
    that length, which is 0 for equal strings only. *)
Theorem hamming_distance_defined (left right : jsstring) :
  (length left <> length right ->
   HammingDistance.apply (Some left) (Some right)
   = Throw "CharSequences must have the same length")
  /\ (length left = length right ->
      exists d,
        HammingDistance.apply (Some left) (Some right) = Return d
        /\ 0 <= d <= Z.of_nat (length left)
        /\ (d = 0 <-> left = right)).
Proof.
  split.
  - intros Hne. unfold HammingDistance.apply.
    by destruct (Nat.eqb_spec (length left) (length right)).
  - intros Hlen. eexists. split; [by apply hamming_apply|].
    split; [apply hamming_count_bounds|].
    rewrite hamming_count_zero. split.
    + intros Hall. apply list_eq. intros i.
      destruct (decide (i < length left)%nat) as [Hi|Hi]; [by apply Hall|].
      by rewrite !lookup_ge_None_2 by lia.
    + by intros <-.
Qed.

Lemma hamming_distance_defined_witness :
  HammingDistance.apply (Some (str "karolin")) (Some (str "kerst"))
  = Throw "CharSequences must have the same length"
  /\ exists d,
       HammingDistance.apply (Some (str "karolin")) (Some (str "kerstin"))
       = Return d
       /\ 0 <= d <= Z.of_nat (length (str "karolin"))
       /\ (d = 0 <-> str "karolin" = str "kerstin").
Proof.
  split.
  - apply (hamming_distance_defined (str "karolin") (str "kerst")).
    simpl. lia.
  - apply (hamming_distance_defined (str "karolin") (str "kerstin")).
    reflexivity.
Defined.

(** X15: the Hamming distance is symmetric, and it satisfies the triangle
    inequality on three strings of one length. *)
Theorem hamming_distance_metric (a b c : jsstring) :
  HammingDistance.apply (Some a) (Some b)
  = HammingDistance.apply (Some b) (Some a)
  /\ (length a = length b -> length b = length c ->
      exists ab bc ac,
        HammingDistance.apply (Some a) (Some b) = Return ab
        /\ HammingDistance.apply (Some b) (Some c) = Return bc
        /\ HammingDistance.apply (Some a) (Some c) = Return ac
        /\ ac <= ab + bc).
Proof.
  assert (forall x y k, hamming_count x y k = hamming_count y x k) as Hsym.
  { intros x y k. induction k as [|k IH]; [done|].
    rewrite !hamming_count_S, IH. do 2 case_bool_decide; congruence. }
  split.
  - destruct (decide (length a = length b)) as [Hlen|Hne].
    + rewrite !hamming_apply by done. by rewrite Hlen, Hsym.
    + unfold HammingDistance.apply.
      destruct (Nat.eqb_spec (length a) (length b));
        destruct (Nat.eqb_spec (length b) (length a)); simpl; congruence.
  - intros Hab Hbc. eexists _, _, _.
    split; [by apply hamming_apply|].
    split; [by apply hamming_apply|].
    split; [apply hamming_apply; congruence|].
    rewrite <- Hab. generalize (length a). intros k.
    induction k as [|k IH]; [done|].
    rewrite !hamming_count_S. repeat case_bool_decide; try lia.
    congruence.
Qed.

Lemma hamming_distance_metric_witness :
  exists ab bc ac,
    HammingDistance.apply (Some (str "ATCG")) (Some (str "ACCC")) = Return ab
    /\ HammingDistance.apply (Some (str "ACCC")) (Some (str "AAAA"))
       = Return bc
    /\ HammingDistance.apply (Some (str "ATCG")) (Some (str "AAAA"))
       = Return ac
    /\ ac <= ab + bc.
Proof.
  apply (hamming_distance_metric (str "ATCG") (str "ACCC") (str "AAAA"));
    reflexivity.
Defined.

(** *** Fuzzy score *)

Lemma fuzzy_scan_S t q k :
  fuzzy_scan t q (S k)
  = FuzzyScore.scan_term (length t) t (charAt q k) (fuzzy_scan t q k).
Proof. unfold fuzzy_scan. by rewrite seq_S, foldl_app. Qed.

(** The fuel of the inner loop is enough: the loop ends within the
    characters of the term that are left, so more fuel changes nothing. *)
Lemma scan_term_fuel fuel fuel' t c st :
  (length t - FuzzyScore.termIndex st <= fuel)%nat ->
  (length t - FuzzyScore.termIndex st <= fuel')%nat ->
  FuzzyScore.scan_term fuel t c st = FuzzyScore.scan_term fuel' t c st.
Proof.
  revert fuel' st. induction fuel as [|fuel IH]; intros fuel' st Hf Hf'.
  - destruct fuel' as [|fuel']; [done|]. simpl.
    by destruct (Nat.ltb_spec (FuzzyScore.termIndex st) (length t)); [lia|].
  - destruct fuel' as [|fuel']; simpl.
    + by destruct (Nat.ltb_spec (FuzzyScore.termIndex st) (length t)); [lia|].
    + destruct (Nat.ltb_spec (FuzzyScore.termIndex st) (length t)); [|done].
      case_bool_decide; [done|]. apply IH; simpl; lia.
Qed.

(** One character of the query moves [termIndex] forward, never beyond
    the end of the term, and earns at most three points, and none unless
    [termIndex] moves. *)
Lemma scan_term_progress fuel t c st :
  (FuzzyScore.termIndex st <= length t)%nat ->
  let st' := FuzzyScore.scan_term fuel t c st in
  (FuzzyScore.termIndex st <= FuzzyScore.termIndex st' <= length t)%nat
  /\ 0 <= FuzzyScore.score st' - FuzzyScore.score st <= 3
  /\ FuzzyScore.score st' - FuzzyScore.score st
     <= 3 * (Z.of_nat (FuzzyScore.termIndex st')
             - Z.of_nat (FuzzyScore.termIndex st)).
Proof.
  revert st. induction fuel as [|fuel IH]; intros st Hle; simpl.
  - lia.
  - destruct (Nat.ltb_spec (FuzzyScore.termIndex st) (length t)) as [Hlt|Hge];
      [|lia].
    case_bool_decide as Hc.
    + simpl. destruct (_ =? _)%nat; lia.
    + specialize (IH (FuzzyScore.mkScan (FuzzyScore.score st)
                        (S (FuzzyScore.termIndex st))
                        (FuzzyScore.previousMatchingCharacterIndex st))
                     ltac:(simpl; lia)).
      simpl in IH. lia.
Qed.

(** X16: the score is not negative, and it is at most three points for each
    character of the shorter of the two lower-cased strings: a character
    of the query earns at most three points, and each point-earning
    character uses up a character of the term. *)
Theorem fuzzy_score_bounds (toLowerCase : jsstring -> jsstring)
    (term query : jsstring) :
  exists score,
    FuzzyScore.fuzzyScore toLowerCase (Some term) (Some query) = Return score
    /\ 0 <= score
    /\ score <= 3 * Z.of_nat (length (toLowerCase query))
    /\ score <= 3 * Z.of_nat (length (toLowerCase term)).
Proof.
  eexists. split; [reflexivity|].
  change (foldl _ _ _)
    with (fuzzy_scan (toLowerCase term) (toLowerCase query)
            (length (toLowerCase query))).
  generalize (length (toLowerCase query)) as k.
  set (t := toLowerCase term). set (q := toLowerCase query).
  assert (forall k,
            (FuzzyScore.termIndex (fuzzy_scan t q k) <= length t)%nat
            /\ 0 <= FuzzyScore.score (fuzzy_scan t q k) <= 3 * Z.of_nat k
            /\ FuzzyScore.score (fuzzy_scan t q k)
               <= 3 * Z.of_nat (FuzzyScore.termIndex (fuzzy_scan t q k)))
    as Hinv.
  { induction k as [|k (Hti & Hsc & Hst)]; [simpl; lia|].
    rewrite fuzzy_scan_S.
    pose proof (scan_term_progress (length t) t (charAt q k)
                  (fuzzy_scan t q k) Hti) as Hstep.
    simpl in Hstep. lia. }
  intros k. destruct (Hinv k) as (Hti & Hsc & Hst). lia.
Qed.

(** X17: a query whose lower-cased form is the beginning of the lower-cased
    term matches character by character: one point for the first
    character and three for each one after it. *)
Theorem fuzzy_prefix_score (toLowerCase : jsstring -> jsstring)
    (term query : jsstring) :
  toLowerCase query `prefix_of` toLowerCase term ->
  FuzzyScore.fuzzyScore toLowerCase (Some term) (Some query)
  = Return (Z.max 0 (3 * Z.of_nat (length (toLowerCase query)) - 2)).
Proof.
  intros [rest Hrest]. unfold FuzzyScore.fuzzyScore. f_equal.
  change (foldl _ _ _)
    with (fuzzy_scan (toLowerCase term) (toLowerCase query)
            (length (toLowerCase query))).
  set (t := toLowerCase term) in *. set (q := toLowerCase query) in *.
  assert (forall k, (k <= length q)%nat ->
            fuzzy_scan t q k
            = FuzzyScore.mkScan (Z.max 0 (3 * Z.of_nat k - 2)) k
                (match k with O => None | S k' => Some k' end)) as Hinv.
  { induction k as [|k IH]; intros Hk; [done|].
    rewrite fuzzy_scan_S, IH by lia.
    assert (length t = length q + length rest)%nat as Hlen
      by (by rewrite Hrest, length_app).
    destruct (length t) as [|fuel] eqn:Ht; [lia|].
    cbn [FuzzyScore.scan_term FuzzyScore.termIndex FuzzyScore.score
         FuzzyScore.previousMatchingCharacterIndex].
    destruct (Nat.ltb_spec k (length t)) as [_|?]; [|lia].
    rewrite bool_decide_eq_true_2.
    - f_equal. destruct k as [|k']; simpl FuzzyScore.previous_plus_1.
      + simpl. lia.
      + rewrite Nat.eqb_refl. lia.
    - unfold charAt. rewrite Hrest. symmetry. apply lookup_app_l. lia. }
  by rewrite Hinv.
Qed.

Lemma fuzzy_prefix_score_witness :
  FuzzyScore.fuzzyScore (fun s => s) (Some (str "workshop")) (Some (str "wo"))
  = Return (Z.max 0 (3 * Z.of_nat (length (str "wo")) - 2)).
Proof.
  apply (fuzzy_prefix_score (fun s => s) (str "workshop") (str "wo")).
  by exists (str "rkshop").
Defined.

Lemma scan_term_first_match fuel t c k i :
  t !! i = Some c ->
  (forall j, (k <= j < i)%nat -> t !! j <> Some c) ->
  (k <= i)%nat -> (i - k < fuel)%nat ->
  FuzzyScore.scan_term fuel t (Some c) (FuzzyScore.mkScan 0 k None)
  = FuzzyScore.mkScan (if (i =? 1)%nat then 3 else 1) (S i) (Some i).
Proof.
  intros Hi. revert k.
  induction fuel as [|fuel IH]; intros k Hfirst Hk Hfuel; [lia|].
  pose proof (lookup_lt_Some _ _ _ Hi) as Hlt.
  cbn [FuzzyScore.scan_term FuzzyScore.termIndex FuzzyScore.score
       FuzzyScore.previousMatchingCharacterIndex].
  destruct (Nat.ltb_spec k (length t)) as [_|?]; [|lia].
  destruct (decide (k = i)) as [->|Hne].
  - unfold charAt. rewrite Hi, bool_decide_eq_true_2 by done.
    simpl FuzzyScore.previous_plus_1.
    rewrite (Nat.eqb_sym 1 i). by destruct (i =? 1)%nat.
  - rewrite bool_decide_eq_false_2.
    + apply IH; [|lia..]. intros j Hj. apply Hfirst. lia.
    + unfold charAt. intros Heq. apply (Hfirst k); [lia|done].
Qed.

(** X18: the bonus of a first match.  [previousMatchingCharacterIndex] starts
    as [Number.MIN_VALUE], the smallest positive number, and
    [Number.MIN_VALUE + 1] is 1: a query of one character scores 3 when
    the character first occurs at index 1 of the term, and 1 when it first
    occurs anywhere else. *)
Theorem fuzzy_first_match_bonus (toLowerCase : jsstring -> jsstring)
    (term query : jsstring) (c : N) (i : nat) :
  toLowerCase query = [c] ->
  toLowerCase term !! i = Some c ->
  (forall j, (j < i)%nat -> toLowerCase term !! j <> Some c) ->
  FuzzyScore.fuzzyScore toLowerCase (Some term) (Some query)
  = Return (if (i =? 1)%nat then 3 else 1).
Proof.
  intros Hq Hi Hfirst. unfold FuzzyScore.fuzzyScore. rewrite Hq.
  simpl length. simpl seq. cbn [foldl]. unfold charAt at 1. simpl lookup.
  rewrite (scan_term_first_match _ _ c 0 i); try done.
  - intros j Hj. apply Hfirst. lia.
  - lia.
  - apply lookup_lt_Some in Hi. lia.
Qed.

Lemma fuzzy_first_match_bonus_witness :
  FuzzyScore.fuzzyScore (fun s => s) (Some (str "room")) (Some (str "o"))
  = Return (if (1 =? 1)%nat then 3 else 1).
Proof.
  apply (fuzzy_first_match_bonus (fun s => s) (str "room") (str "o")
           111%N 1).
  - reflexivity.
  - reflexivity.
  - intros j Hj. assert (j = 0)%nat as -> by lia. discriminate.
Defined.

(** *** Jaccard similarity and distance *)

Lemma Qfloor_unique (y : Q) (k : Z) :
  (inject_Z k <= y < inject_Z (k + 1))%Q -> Qfloor y = k.
Proof.
  intros [Hlo Hhi].
  pose proof (Qfloor_le y) as Hfl. pose proof (Qlt_floor y) as Hfu.
  assert (inject_Z k < inject_Z (Qfloor y + 1))%Q as H1 by lra.
  assert (inject_Z (Qfloor y) < inject_Z (k + 1))%Q as H2 by lra.
  rewrite <- Zlt_Qlt in H1, H2. lia.
Qed.

Lemma round_integer (k : Z) :
  JaccardSimilarity.round (inject_Z k) = inject_Z k.
Proof.
  unfold JaccardSimilarity.round. f_equal. apply Qfloor_unique.
  rewrite inject_Z_plus. change (inject_Z 1) with 1%Q.
  set (x := inject_Z k). lra.
Qed.

Lemma round_proper (x y : Q) :
  (x == y)%Q -> JaccardSimilarity.round x = JaccardSimilarity.round y.
Proof.
  intros Hxy. unfold JaccardSimilarity.round. f_equal.
  apply Qfloor_comp. by rewrite Hxy.
Qed.

Lemma round_percent (x : Q) :
  (0 <= x <= 100)%Q ->
  exists k, 0 <= k <= 100 /\ JaccardSimilarity.round x = inject_Z k.
Proof.
  intros [Hlo Hhi]. exists (Qfloor (x + (1 # 2))). split; [|done]. split.
  - change 0 with (Qfloor 0). apply Qfloor_resp_le. lra.
  - change 100 with (Qfloor (100 + (1 # 2))). apply Qfloor_resp_le. lra.
Qed.

Lemma size_difference_le (X Y : gset N) : (size (X ∖ Y) <= size X)%nat.
Proof. apply subseteq_size. by apply subseteq_difference_l. Qed.

Lemma size_set_of_le (s : jsstring) :
  (size (JaccardSimilarity.set_of s) <= length s)%nat.
Proof.
  unfold JaccardSimilarity.set_of. induction s as [|c s IH].
  - by rewrite list_to_set_nil, size_empty.
  - rewrite list_to_set_cons, size_union_alt, size_singleton.
    pose proof (size_difference_le (list_to_set s) {[c]}). simpl. lia.
Qed.

Lemma size_set_of_pos (s : jsstring) :
  s <> [] -> (0 < size (JaccardSimilarity.set_of s))%nat.
Proof.
  destruct s as [|c s]; [done|]. intros _.
  enough (size (JaccardSimilarity.set_of (c :: s)) <> 0%nat) by lia.
  apply size_non_empty_iff. unfold JaccardSimilarity.set_of. set_solver.
Qed.

(** X19: the similarity of two strings does not depend on their order, and
    neither does their distance, whatever the rounding does. *)
Theorem jaccard_symmetric (rnd : Q -> Q) (left right : jsstring) :
  Binary64.JaccardSimilarity.apply rnd (Some left) (Some right)
  = Binary64.JaccardSimilarity.apply rnd (Some right) (Some left)
  /\ Binary64.JaccardDistance.apply rnd (Some left) (Some right)
     = Binary64.JaccardDistance.apply rnd (Some right) (Some left).
Proof.
  assert (Binary64.JaccardSimilarity.calculateJaccardSimilarity rnd left right
          = Binary64.JaccardSimilarity.calculateJaccardSimilarity
              rnd right left) as Hcalc.
  { unfold Binary64.JaccardSimilarity.calculateJaccardSimilarity.
    rewrite (orb_comm (length left =? 0)%nat).
    rewrite (union_comm_L (JaccardSimilarity.set_of left)).
    by rewrite (Z.add_comm (Z.of_nat (size (JaccardSimilarity.set_of left)))). }
  unfold Binary64.JaccardDistance.apply, Binary64.JaccardSimilarity.apply.
  by rewrite Hcalc.
Qed.

Section JaccardRounding.

Variable rnd : Q -> Q.
Hypothesis Hrnd : binary64_rounding rnd.

Lemma rnd_exact_integer (x : Q) (k : Z) :
  0 <= k <= 2 ^ 53 -> (x == inject_Z k)%Q -> (rnd x == inject_Z k)%Q.
Proof.
  intros Hk Hx. rewrite <- (rnd_integer rnd Hrnd k Hk).
  by apply rnd_proper.
Qed.

(** From the raw similarity to the two results: the percentage that is
    rounded to an integer, and the hundredths that are returned. *)
Lemma similarity_of_raw (raw : Q) (k : Z) :
  0 <= k <= 100 -> (raw * 100 == inject_Z k)%Q ->
  (rnd (JaccardSimilarity.round (rnd (raw * 100)) / 100)
   == rnd (inject_Z k / 100))%Q.
Proof.
  intros Hk Hraw.
  rewrite (round_proper (rnd (raw * 100)) (inject_Z k)), round_integer.
  - reflexivity.
  - apply rnd_exact_integer; [lia|done].
Qed.

Lemma raw_similarity_range (left right : jsstring) :
  Z.of_nat (length left) < 2 ^ 53 -> Z.of_nat (length right) < 2 ^ 53 ->
  (0 <= Binary64.JaccardSimilarity.calculateJaccardSimilarity rnd left right
     <= 1)%Q.
Proof.
  intros Hl Hr.
  unfold Binary64.JaccardSimilarity.calculateJaccardSimilarity.
  destruct (Nat.eqb_spec (length left) 0) as [Hl0|Hl0]; [simpl; lra|].
  destruct (Nat.eqb_spec (length right) 0) as [Hr0|Hr0]; [simpl; lra|].
  cbn [orb].
  set (L := JaccardSimilarity.set_of left).
  set (R := JaccardSimilarity.set_of right).
  pose proof (size_set_of_le left) as HleL.
  pose proof (size_set_of_le right) as HleR.
  pose proof (size_set_of_pos left ltac:(by destruct left)) as HposL.
  pose proof (size_union_alt L R) as Hunion.
  pose proof (size_difference_le R L) as Hdiff.
  pose proof (subseteq_size R (L ∪ R) (union_subseteq_r L R)) as HRU.
  fold L R in HleL, HleR, HposL.
  set (i := (Z.of_nat (size L) + Z.of_nat (size R)
             - Z.of_nat (size (L ∪ R)))%Z).
  set (u := Z.of_nat (size (L ∪ R))).
  assert (0 <= i <= u) as Hi by (unfold i, u; lia).
  assert (0 < u) as Hu by (unfold u; lia).
  assert (rnd (1 * inject_Z i) == inject_Z i)%Q as Hnum.
  { apply rnd_exact_integer; [unfold i; lia|apply Qmult_1_l]. }
  change 0%Q with (inject_Z 0). change 1%Q with (inject_Z 1).
  apply (rnd_between rnd Hrnd); [lia..|].
  rewrite Hnum. by apply ratio_bounds.
Qed.

(** X20: both results are hundredths between 0 and 1: the double nearest to
    [k / 100] for an integer [k] from 0 to 100. *)
Theorem jaccard_results_are_percentages (left right : jsstring) :
  Z.of_nat (length left) < 2 ^ 53 -> Z.of_nat (length right) < 2 ^ 53 ->
  (exists k, 0 <= k <= 100
     /\ Binary64.JaccardSimilarity.apply rnd (Some left) (Some right)
        = Return (rnd (inject_Z k / 100))
     /\ (0 <= rnd (inject_Z k / 100) <= 1)%Q)
  /\ (exists k, 0 <= k <= 100
        /\ Binary64.JaccardDistance.apply rnd (Some left) (Some right)
           = Return (rnd (inject_Z k / 100))
        /\ (0 <= rnd (inject_Z k / 100) <= 1)%Q).
Proof.
  intros Hl Hr.
  assert (forall x, (0 <= x <= 1)%Q ->
            exists k, 0 <= k <= 100
              /\ rnd (JaccardSimilarity.round (rnd (x * 100)) / 100)
                 = rnd (inject_Z k / 100)
              /\ (0 <= rnd (inject_Z k / 100) <= 1)%Q) as Hpercent.
  { intros x Hx.
    destruct (round_percent (rnd (x * 100))) as (k & Hk & Hround).
    { change 0%Q with (inject_Z 0). change 100%Q with (inject_Z 100).
      apply (rnd_between rnd Hrnd); [lia..|].
      change (inject_Z 0) with 0%Q. change (inject_Z 100) with 100%Q. lra. }
    exists k. split; [done|]. split; [by rewrite Hround|].
    change 0%Q with (inject_Z 0). change 1%Q with (inject_Z 1).
    apply (rnd_between rnd Hrnd); [lia..|].
    change (inject_Z 0) with 0%Q. change (inject_Z 1) with 1%Q.
    assert (0 <= inject_Z k <= 100)%Q as Hk'.
    { change 0%Q with (inject_Z 0). change 100%Q with (inject_Z 100).
      rewrite <- !Zle_Qle. lia. }
    unfold Qdiv. change (/ 100)%Q with (1 # 100)%Q.
    set (q := inject_Z k) in *. lra. }
  destruct (Hpercent _ (raw_similarity_range left right Hl Hr))
    as (k & Hk & Hsim & Hrange).
  split.
  - exists k. split; [done|]. split; [|done].
    unfold Binary64.JaccardSimilarity.apply. by rewrite Hsim.
  - unfold Binary64.JaccardDistance.apply, Binary64.JaccardSimilarity.apply.
    cbn [JS.bind]. rewrite Hsim.
    destruct (Hpercent (rnd (1 - rnd (inject_Z k / 100))))
      as (k' & Hk' & Hdist & Hrange').
    { change 0%Q with (inject_Z 0). change 1%Q with (inject_Z 1).
      apply (rnd_between rnd Hrnd); [lia..|].
      change (inject_Z 0) with 0%Q. change (inject_Z 1) with 1%Q.
      set (q := rnd (inject_Z k / 100)) in *. lra. }
    exists k'. split; [done|]. split; [|done]. by rewrite Hdist.
Qed.

(** X21: two non-empty strings with the same characters, whatever their
    order and multiplicity, have similarity 1 and distance 0; in particular
    a non-empty string and itself. *)
Theorem jaccard_same_characters (left right : jsstring) :
  left <> [] ->
  (forall c, c ∈ left <-> c ∈ right) ->
  Z.of_nat (length left) < 2 ^ 53 ->
  exists similarity distance,
    Binary64.JaccardSimilarity.apply rnd (Some left) (Some right)
    = Return similarity
    /\ Binary64.JaccardDistance.apply rnd (Some left) (Some right)
       = Return distance
    /\ (similarity == 1)%Q /\ (distance == 0)%Q.
Proof.
  intros Hne Hsame Hl.
  assert (right <> []) as Hne'.
  { destruct left as [|c left]; [done|]. intros ->.
    apply (elem_of_nil c), Hsame. by left. }
  assert (JaccardSimilarity.set_of right = JaccardSimilarity.set_of left)
    as Hset.
  { unfold JaccardSimilarity.set_of. apply set_eq. intros c.
    rewrite !elem_of_list_to_set. by rewrite Hsame. }
  set (raw := Binary64.JaccardSimilarity.calculateJaccardSimilarity
                rnd left right).
  assert (raw == 1)%Q as Hraw.
  { unfold raw, Binary64.JaccardSimilarity.calculateJaccardSimilarity.
    destruct (Nat.eqb_spec (length left) 0) as [Hl0|Hl0];
      [by destruct left|].
    destruct (Nat.eqb_spec (length right) 0) as [Hr0|Hr0];
      [by destruct right|].
    cbn [orb]. rewrite Hset, union_idemp_L.
    pose proof (size_set_of_le left) as Hle.
    pose proof (size_set_of_pos left Hne) as Hpos.
    set (u := Z.of_nat (size (JaccardSimilarity.set_of left))).
    replace (u + u - u) with u by lia.
    assert (rnd (1 * inject_Z u) == inject_Z u)%Q as Hnum.
    { apply rnd_exact_integer; [unfold u; lia|apply Qmult_1_l]. }
    apply (rnd_exact_integer _ 1); [lia|].
    rewrite Hnum. apply Qmult_inv_r.
    change 0%Q with (inject_Z 0). rewrite inject_Z_injective. unfold u. lia. }
  assert (rnd (JaccardSimilarity.round (rnd (raw * 100)) / 100) == 1)%Q
    as Hsim.
  { rewrite (similarity_of_raw raw 100); [|lia|by rewrite Hraw].
    by apply (rnd_exact_integer _ 1). }
  eexists _, _. split; [reflexivity|]. split; [reflexivity|].
  fold raw. split; [done|].
  set (sim := rnd (JaccardSimilarity.round (rnd (raw * 100)) / 100)) in *.
  assert (rnd (1 - sim) == 0)%Q as Hcompl.
  { apply (rnd_exact_integer _ 0); [lia|]. rewrite Hsim. reflexivity. }
  rewrite (similarity_of_raw (rnd (1 - sim)) 0); [|lia|by rewrite Hcompl].
  by apply (rnd_exact_integer _ 0).
Qed.

(** X22: two strings without a common character have similarity 0 and
    distance 1, and so has every pair with an empty string in it. *)
Theorem jaccard_no_common_character (left right : jsstring) :
  (forall c, c ∈ left -> c ∉ right) ->
  Z.of_nat (length left) < 2 ^ 53 -> Z.of_nat (length right) < 2 ^ 53 ->
  exists similarity distance,
    Binary64.JaccardSimilarity.apply rnd (Some left) (Some right)
    = Return similarity
    /\ Binary64.JaccardDistance.apply rnd (Some left) (Some right)
       = Return distance
    /\ (similarity == 0)%Q /\ (distance == 1)%Q.
Proof.
  intros Hdisjoint Hl Hr.
  set (raw := Binary64.JaccardSimilarity.calculateJaccardSimilarity
                rnd left right).
  assert (raw == 0)%Q as Hraw.
  { unfold raw, Binary64.JaccardSimilarity.calculateJaccardSimilarity.
    destruct ((length left =? 0)%nat || (length right =? 0)%nat);
      [reflexivity|].
    rewrite size_union.
    - pose proof (size_set_of_le left). pose proof (size_set_of_le right).
      rewrite Nat2Z.inj_add.
      set (l := Z.of_nat (size (JaccardSimilarity.set_of left))).
      set (r := Z.of_nat (size (JaccardSimilarity.set_of right))).
      replace (l + r - (l + r)) with 0 by lia.
      assert (rnd (1 * inject_Z 0) == 0)%Q as Hnum
        by (by apply (rnd_exact_integer _ 0)).
      apply (rnd_exact_integer _ 0); [lia|].
      rewrite Hnum. apply Qmult_0_l.
    - unfold JaccardSimilarity.set_of. intros c.
      rewrite !elem_of_list_to_set. apply Hdisjoint. }
  assert (rnd (JaccardSimilarity.round (rnd (raw * 100)) / 100) == 0)%Q
    as Hsim.
  { rewrite (similarity_of_raw raw 0); [|lia|by rewrite Hraw].
    by apply (rnd_exact_integer _ 0). }
  eexists _, _. split; [reflexivity|]. split; [reflexivity|].
  fold raw. split; [done|].
  set (sim := rnd (JaccardSimilarity.round (rnd (raw * 100)) / 100)) in *.
  assert (rnd (1 - sim) == 1)%Q as Hcompl.
  { apply (rnd_exact_integer _ 1); [lia|]. rewrite Hsim. reflexivity. }
  rewrite (similarity_of_raw (rnd (1 - sim)) 100); [|lia|by rewrite Hcompl].
  by apply (rnd_exact_integer _ 1).
Qed.

End JaccardRounding.

Lemma jaccard_results_are_percentages_witness :
  (exists k, 0 <= k <= 100
     /\ Binary64.JaccardSimilarity.apply exact
          (Some (str "night")) (Some (str "nacht"))
        = Return (exact (inject_Z k / 100))
     /\ (0 <= exact (inject_Z k / 100) <= 1)%Q)
  /\ (exists k, 0 <= k <= 100
        /\ Binary64.JaccardDistance.apply exact
             (Some (str "night")) (Some (str "nacht"))
           = Return (exact (inject_Z k / 100))
        /\ (0 <= exact (inject_Z k / 100) <= 1)%Q).
Proof.
  apply (jaccard_results_are_percentages exact exact_rounding
           (str "night") (str "nacht")).
  - vm_compute. reflexivity.
  - vm_compute. reflexivity.
Defined.

Lemma jaccard_same_characters_witness :
  exists similarity distance,
    Binary64.JaccardSimilarity.apply exact (Some (str "abab")) (Some (str "ba"))
    = Return similarity
    /\ Binary64.JaccardDistance.apply exact
         (Some (str "abab")) (Some (str "ba"))
       = Return distance
    /\ (similarity == 1)%Q /\ (distance == 0)%Q.
Proof.
  apply (jaccard_same_characters exact exact_rounding (str "abab") (str "ba")).
  - discriminate.
  - intros c. simpl. rewrite !elem_of_cons, !elem_of_nil. intuition auto.
  - vm_compute. reflexivity.
Defined.

Lemma jaccard_no_common_character_witness :
  exists similarity distance,
    Binary64.JaccardSimilarity.apply exact (Some (str "ab")) (Some (str "cd"))
    = Return similarity
    /\ Binary64.JaccardDistance.apply exact (Some (str "ab")) (Some (str "cd"))
       = Return distance
    /\ (similarity == 0)%Q /\ (distance == 1)%Q.
Proof.
  apply (jaccard_no_common_character exact exact_rounding
           (str "ab") (str "cd")).
  - intros c.
    cbv [str Ascii.N_of_ascii Ascii.N_of_digits N.add N.mul
         Pos.add Pos.succ Pos.mul].
    rewrite !elem_of_cons, !elem_of_nil. intuition (subst; discriminate).
  - vm_compute. reflexivity.
  - vm_compute. reflexivity.
Defined.

(** *** A string of even length against itself *)

Lemma find_first_in_seq (g : nat -> bool) (a len k : nat) :
  (a <= k < a + len)%nat ->
  (forall x, (a <= x < k)%nat -> g x = false) ->
  g k = true ->
  List.find g (seq a len) = Some k.
Proof.
  revert a. induction len as [|len IH]; intros a Hk Hbefore Hgk; [lia|].
  simpl. destruct (decide (a = k)) as [->|Hne].
  - by rewrite Hgk.
  - rewrite Hbefore by lia. apply IH; [lia| |done].
    intros x Hx. apply Hbefore. lia.
Qed.

Lemma foldl_ext_in {A B} (f g : A -> B -> A) (l : list B) (a : A) :
  (forall a x, x ∈ l -> f a x = g a x) -> foldl f a l = foldl g a l.
Proof.
  revert a. induction l as [|x l IH]; intros a Hfg; [done|]. simpl.
  rewrite Hfg by (by left). apply IH. intros a' x' Hx'. apply Hfg. by right.
Qed.

Lemma collect_ext (hit1 hit2 : nat -> bool) (s : jsstring)
    (ms : list (option N)) :
  (forall i, (i < length s)%nat -> hit1 i = hit2 i) ->
  collect hit1 s ms = collect hit2 s ms.
Proof.
  intros Hhit. unfold collect. f_equal. apply foldl_ext_in.
  intros [ms' si] i Hi. apply elem_of_seq in Hi. by rewrite Hhit by lia.
Qed.

Lemma common_prefix_same (s : jsstring) (mis : list nat) :
  common_prefix s s mis = length mis.
Proof.
  induction mis as [|mi mis IH]; [done|]. simpl.
  by rewrite bool_decide_eq_true_2, IH.
Qed.

(** A string of even length against itself: the character at [k] finds
    its match at [k], because the positions before it are used and [k] is
    inside the window. *)
Lemma match_loop_same (s : jsstring) :
  Nat.Even (length s) ->
  let st := match_loop s s in
  st.2 = length s
  /\ (forall i, (i < length s)%nat ->
        exists q, st.1.1 !! i = Some q /\ (q == inject_Z (Z.of_nat i))%Q)
  /\ (forall x, (x < length s)%nat ->
        flag_on st.1.2 (inject_Z (Z.of_nat x)) = true).
Proof.
  intros Heven.
  pose proof (range_of_even s Heven) as Hrange.
  assert (0 <= window_range s) as Hr by (unfold window_range; lia).
  pose proof (foldl_seq_ind
    (fun k (st : match_state) =>
       st.2 = k
       /\ length st.1.1 = length s
       /\ (forall i, (i < k)%nat ->
             exists q, st.1.1 !! i = Some q /\ (q == inject_Z (Z.of_nat i))%Q)
       /\ (forall x, (x < length s)%nat ->
             flag_on st.1.2 (inject_Z (Z.of_nat x)) = bool_decide (x < k)%nat))
    (match_step s s (range_of s))
    (createArray (length s) (-1)%Q, flags_create (length s), O)
    0 (length s)) as Hloop.
  destruct Hloop as (Hcount & _ & Hmis & Hflags).
  - simpl. split; [done|]. split; [by rewrite length_replicate|].
    split; [intros; lia|].
    intros x Hx. by rewrite flags_create_off.
  - intros k [[mis flags] cnt] Hk. simpl.
    intros (-> & Hlen & Hmis & Hflags).
    unfold match_step, scan.
    pose proof (scan_positions_integer (range_of s) (window_range s) s k
                  Hrange) as Hpos.
    set (a := Z.to_nat (Z.max (Z.of_nat k - window_range s) 0)) in *.
    set (len := Z.to_nat (Z.min (Z.of_nat k + window_range s + 1)
                                (Z.of_nat (length s))
                          - Z.max (Z.of_nat k - window_range s) 0)) in *.
    pose proof (find_related
      (fun q x => (q == inject_Z (Z.of_nat x))%Q)
      (fun xi => negb (flag_on flags xi)
                 && bool_decide (charAt s k = charAtQ s xi))
      (fun x => negb (bool_decide (x < k)%nat)
                && bool_decide (charAt s k = charAt s x))
      _ _ Hpos) as Hfind.
    rewrite (find_first_in_seq _ a len k) in Hfind.
    + destruct (List.find _ (scan_positions (range_of s) s k)) as [q|].
      * destruct Hfind as [Hq _].
        { intros q' x' Hq' Hx'. unfold flag_on, charAtQ.
          rewrite (flags_get_proper flags _ _ Hq'), (Qfloor_comp _ _ Hq').
          rewrite Qfloor_Z, Nat2Z.id.
          fold (flag_on flags (inject_Z (Z.of_nat x'))).
          apply elem_of_seq in Hx'. rewrite Hflags; [done|].
          unfold a, len in Hx'. lia. }
        simpl. split; [done|]. split; [by rewrite length_insert|]. split.
        -- intros i Hi. destruct (decide (i = k)) as [->|Hne].
           ++ exists q. split; [|done].
              apply list_lookup_insert_eq. lia.
           ++ rewrite list_lookup_insert_ne by done. apply Hmis. lia.
        -- intros x Hx. unfold flag_on, flags_set. simpl.
           destruct (Qeq_bool q (inject_Z (Z.of_nat x))) eqn:E.
           ++ apply Qeq_bool_iff in E. rewrite Hq in E.
              apply (proj1 (inject_Z_injective _ _)) in E.
              by rewrite bool_decide_eq_true_2 by lia.
           ++ fold (flag_on flags (inject_Z (Z.of_nat x))).
              rewrite Hflags by done.
              assert (x <> k) as Hne.
              { intros ->. apply Qeq_bool_neq in E. by apply E. }
              do 2 case_bool_decide; done || lia.
      * exfalso. apply Hfind.
        intros q' x' Hq' Hx'. unfold flag_on, charAtQ.
        rewrite (flags_get_proper flags _ _ Hq'), (Qfloor_comp _ _ Hq').
        rewrite Qfloor_Z, Nat2Z.id.
        fold (flag_on flags (inject_Z (Z.of_nat x'))).
        apply elem_of_seq in Hx'. rewrite Hflags; [done|].
        unfold a, len in Hx'. lia.
    + unfold a, len. lia.
    + intros x Hx. by rewrite bool_decide_eq_true_2 by lia.
    + rewrite bool_decide_eq_false_2 by lia.
      by rewrite bool_decide_eq_true_2.
  - cbv zeta. split; [done|]. split; [intros i Hi; apply Hmis; lia|].
    intros x Hx. rewrite Hflags by done.
    by rewrite bool_decide_eq_true_2 by lia.
Qed.

Lemma matches_same (s : jsstring) :
  Nat.Even (length s) ->
  matches s s = (length s, 0, Nat.min 4 (length s))%nat.
Proof.
  intros Heven. destruct (match_loop_same s Heven) as (Hcount & Hmis & Hflags).
  unfold matches. rewrite Nat.ltb_irrefl.
  destruct (match_loop s s) as [[mis flags] cnt]. simpl in Hcount, Hmis, Hflags.
  subst cnt.
  rewrite (collect_ext _ (fun _ => true) s).
  2:{ intros i Hi. destruct (Hmis i Hi) as (q & -> & Hq).
      destruct (Qeq_bool q (-1)) eqn:E; [|done].
      apply Qeq_bool_iff in E. rewrite Hq in E.
      change (-1)%Q with (inject_Z (-1)) in E.
      apply (proj1 (inject_Z_injective _ _)) in E. lia. }
  rewrite (collect_ext (fun i => flag_on flags (inject_Z (Z.of_nat i)))
             (fun _ => true) s) by done.
  rewrite common_prefix_same, length_seq. f_equal. f_equal.
  induction (seq 0 _) as [|mi l IH]; [done|].
  rewrite filter_cons. by case_decide.
Qed.

Section IdentityScore.

Variable rnd : Q -> Q.
Hypothesis Hrnd : binary64_rounding rnd.

Lemma score_of_full_match (n prefix : Z) :
  1 <= n <= 2 ^ 53 ->
  let j := rnd (rnd (rnd (rnd (inject_Z n / inject_Z n)
                          + rnd (inject_Z n / inject_Z n))
                     + rnd (rnd (inject_Z n - rnd (inject_Z 0 / 2))
                            / inject_Z n))
                / 3) in
  (j == 1
   /\ rnd (j + rnd (rnd (double_0_1 * inject_Z prefix) * rnd (1 - j))) == 1)%Q.
Proof.
  intros Hn.
  assert (~ inject_Z n == 0)%Q as Hn0.
  { change 0%Q with (inject_Z 0). rewrite inject_Z_injective. lia. }
  assert (rnd (inject_Z n / inject_Z n) == 1)%Q as H1.
  { apply (rnd_exact_integer rnd Hrnd _ 1); [lia|]. by apply Qmult_inv_r. }
  assert (rnd (rnd (inject_Z n / inject_Z n) + rnd (inject_Z n / inject_Z n))
          == 2)%Q as H2.
  { apply (rnd_exact_integer rnd Hrnd _ 2); [lia|]. rewrite H1. reflexivity. }
  assert (rnd (inject_Z 0 / 2) == 0)%Q as H3.
  { apply (rnd_exact_integer rnd Hrnd _ 0); [lia|]. reflexivity. }
  assert (rnd (inject_Z n - rnd (inject_Z 0 / 2)) == inject_Z n)%Q as H4.
  { apply (rnd_exact_integer rnd Hrnd); [lia|]. rewrite H3.
    unfold Qminus. change (- 0)%Q with 0%Q. apply Qplus_0_r. }
  assert (rnd (rnd (inject_Z n - rnd (inject_Z 0 / 2)) / inject_Z n) == 1)%Q
    as H5.
  { apply (rnd_exact_integer rnd Hrnd _ 1); [lia|]. rewrite H4.
    by apply Qmult_inv_r. }
  cbv zeta.
  set (j := rnd (_ / 3)).
  assert (j == 1)%Q as Hj.
  { unfold j. apply (rnd_exact_integer rnd Hrnd _ 1); [lia|].
    rewrite (rnd_exact_integer rnd Hrnd _ 3); [reflexivity|lia|].
    rewrite H2, H5. reflexivity. }
  split; [done|].
  assert (rnd (1 - j) == 0)%Q as H6.
  { apply (rnd_exact_integer rnd Hrnd _ 0); [lia|]. rewrite Hj. reflexivity. }
  apply (rnd_exact_integer rnd Hrnd _ 1); [lia|].
  rewrite (rnd_exact_integer rnd Hrnd _ 0); [by rewrite Hj|lia|].
  rewrite H6. apply Qmult_0_r.
Qed.

(** X23: a non-empty string of even length has score 1 against itself: every
    character matches in place, nothing is transposed, and the rounding of
    binary64 leaves the integers of the computation as they are. *)
Theorem even_length_identity_scores_one (s : jsstring) :
  s <> [] -> Nat.Even (length s) -> Z.of_nat (length s) < 2 ^ 53 ->
  exists score,
    JaroWinklerDistance.apply rnd (Some s) (Some s) = Return score
    /\ (score == 1)%Q.
Proof.
  intros Hne Heven Hlen. unfold JaroWinklerDistance.apply.
  rewrite (matches_same s Heven).
  destruct (Nat.eqb_spec (length s) 0) as [H0|H0]; [by destruct s|].
  eexists. split; [reflexivity|].
  destruct (score_of_full_match (Z.of_nat (length s))
              (Z.of_nat (Nat.min 4 (length s))) ltac:(lia)) as [Hj Hjw].
  unfold Qlen. by destruct (Qlt_le_dec _ _).
Qed.

End IdentityScore.

Lemma even_length_identity_scores_one_witness :
  exists score,
    JaroWinklerDistance.apply exact (Some (str "frog")) (Some (str "frog"))
    = Return score
    /\ (score == 1)%Q.
Proof.
  apply (even_length_identity_scores_one exact exact_rounding (str "frog")).
  - discriminate.
  - exists 2%nat. reflexivity.
  - vm_compute. reflexivity.
Defined.
